(** * Tumblbug funding monitor (bot.py): model and verified properties

    The bot polls crowdfunding pages for every guild (tenant), compares the
    funding figure with the stored [initial_funding] and the custom
    thresholds, sends notifications and writes the new state back to the
    document store.

    The Python code is stateful and raises exceptions, so it is embedded in
    a state-and-exception monad over a [World] that holds the document
    store, the browser session (driver and lock), the notifications handed
    to the dispatcher, the messages sent to channels and the log.

    What the outside world does is an input of the model:
    - a [Page] says what the browser session yields during one project read
      (every element wait either finds its element or raises);
    - an [Env] says which channel ids the client can resolve and which
      sends fail with [discord.HTTPException].
    The document store is taken to be reachable (its retry loops are not
    modelled), and a project key is an opaque string. *)

From Stdlib Require Import ZArith List String Ascii Bool Lia.
From Stdlib Require Import Sorting.Sorted Sorting.Permutation.
Import ListNotations.

Local Open Scope string_scope.
Local Open Scope list_scope.
Local Open Scope Z_scope.

(** ** Data model *)

Definition GuildId := Z.
Definition ChannelId := Z.
Definition ProjectId := string.

(** One entry of [monitored_urls]: the dict written by [project_add]. *)
Record ProjectData := mkProjectData {
  url : string;
  title : string;
  initial_funding : option Z;
  thresholds : list Z
}.

(** One document of the [server_config] collection. *)
Record ServerConfig := mkServerConfig {
  guild_id : GuildId;
  monitored_urls : list (ProjectId * ProjectData);
  notification_channels : list ChannelId
}.

Definition Store := list ServerConfig.

(** Python exceptions that the code raises or handles. *)
Inductive Exn :=
| TimeoutException
| NoSuchElementException
| WebDriverException
| HTTPException
| UnboundLocalError
| ValueError (msg : string)
| OtherException.

(** [except WebDriverException] also catches its subclasses. *)
Definition is_WebDriverException (e : Exn) : bool :=
  match e with
  | TimeoutException | NoSuchElementException | WebDriverException => true
  | _ => false
  end.

(** The embeds built by the monitoring code, by the data put in them. *)
Inductive Notification :=
| MonitoringStart (project_url : string) (current_funding : Z)
| MilestoneEvent (project_title : string) (milestone current_funding : Z)
                 (project_url : string)
| ThresholdEvent (project_title : string) (threshold current_funding : Z)
                 (project_url : string).

(** Operations on the shared browser session ([self.driver]). *)
Inductive SessionOp :=
| OpCheck            (* if not self.driver *)
| OpCreate           (* self.driver = webdriver.Chrome(...) *)
| OpNavigate (u : string)
| OpWaitTitle
| OpWaitPrice
| OpWaitImage
| OpScreenshot
| OpCurrentUrl
| OpPageSource
| OpQuit.

Inductive LogEntry :=
| LogDriverInitFailed (e : Exn)
| LogTitleFailed (u : string) (e : Exn)
| LogPriceFailed (u : string) (e : Exn)
| LogImageMissing (u : string)
| LogScrapeFailed (u : string) (e : Exn)
| LogSendFailed (c : ChannelId) (e : Exn)
| LogPriceCheckError (u : string) (e : Exn)
| LogMemoryExceeded (usage : Z).

Record World := mkWorld {
  store : Store;
  driver : bool;                      (* self.driver is set *)
  lock_held : bool;                   (* self.driver_lock *)
  session_trace : list (SessionOp * bool);
      (* every session operation, with whether the lock was held *)
  dispatched : list (GuildId * Notification);
      (* calls of send_notifications, in order *)
  outbox : list (ChannelId * Notification);
      (* calls of channel.send, in order *)
  log : list LogEntry
}.

(** ** The state-and-exception monad *)

Inductive Outcome (A : Type) :=
| Ret (a : A)
| Raise (e : Exn).
Arguments Ret {A} a.
Arguments Raise {A} e.

Definition M (A : Type) := World -> Outcome A * World.

Definition ret {A} (a : A) : M A := fun w => (Ret a, w).

Definition raise {A} (e : Exn) : M A := fun w => (Raise e, w).

Definition bind {A B} (m : M A) (k : A -> M B) : M B :=
  fun w =>
    match m w with
    | (Ret a, w') => k a w'
    | (Raise e, w') => (Raise e, w')
    end.

(** [try: m except <handles>: h]; an exception that [handles] rejects
    passes through. *)
Definition try_except {A} (m : M A) (handles : Exn -> bool)
    (h : Exn -> M A) : M A :=
  fun w =>
    match m w with
    | (Ret a, w') => (Ret a, w')
    | (Raise e, w') => if handles e then h e w' else (Raise e, w')
    end.

(** [m] followed by [cleanup] on every exit (the exit of [async with]). *)
Definition finally_ {A} (m : M A) (cleanup : World -> World) : M A :=
  fun w => let (o, w') := m w in (o, cleanup w').

Declare Scope monad_scope.
Delimit Scope monad_scope with monad.
Notation "x <- c1 ;; c2" := (bind c1 (fun x => c2))
  (at level 100, c1 at next level, right associativity) : monad_scope.
Notation "c1 ;; c2" := (bind c1 (fun _ => c2))
  (at level 100, right associativity) : monad_scope.
Local Open Scope monad_scope.

Definition modify (f : World -> World) : M unit := fun w => (Ret tt, f w).

Definition logging (e : LogEntry) : M unit :=
  modify (fun w => mkWorld (store w) (driver w) (lock_held w)
                     (session_trace w) (dispatched w) (outbox w)
                     (log w ++ [e])).

(** Record one operation on the session with the current lock state. *)
Definition session_op (op : SessionOp) : M unit :=
  modify (fun w => mkWorld (store w) (driver w) (lock_held w)
                     (session_trace w ++ [(op, lock_held w)])
                     (dispatched w) (outbox w) (log w)).

Definition set_driver (d : bool) : M unit :=
  modify (fun w => mkWorld (store w) d (lock_held w)
                     (session_trace w) (dispatched w) (outbox w) (log w)).

Definition set_lock (b : bool) (w : World) : World :=
  mkWorld (store w) (driver w) b
    (session_trace w) (dispatched w) (outbox w) (log w).

Definition set_store (s : Store) : M unit :=
  modify (fun w => mkWorld s (driver w) (lock_held w)
                     (session_trace w) (dispatched w) (outbox w) (log w)).

Fixpoint for_each {A} (l : list A) (body : A -> M unit) : M unit :=
  match l with
  | [] => ret tt
  | x :: l' => body x ;; for_each l' body
  end.

(** Python truthiness of an optional integer: [None] and [0] are false. *)
Definition truthy (v : option Z) : bool :=
  match v with
  | Some n => negb (n =? 0)
  | None => false
  end.

Definition gets {A} (f : World -> A) : M A := fun w => (Ret (f w), w).

(** ** Session Manager and Page Reader *)

(** Result of waiting for one page element. *)
Inductive Elem (A : Type) :=
| Found (a : A)
| Fails (e : Exn).
Arguments Found {A} a.
Arguments Fails {A} e.

(** What the browser yields during one project read.  The text of the
    title is taken after [strip()]; the funding text is given by what
    [int(...)] makes of it after the separators and unit suffixes are
    removed: [Some n], or [None] when [int] raises [ValueError]. *)
Record Page := mkPage {
  launch : option Exn;          (* starting Chrome, when a session is created *)
  navigation : option Exn;      (* driver.get(url) *)
  title_elem : Elem string;
  price_elem : Elem (option Z);
  image_elem : Elem (option string)
}.

Definition is_Timeout (e : Exn) : bool :=
  match e with TimeoutException => true | _ => false end.

Definition is_Timeout_or_NoSuchElement (e : Exn) : bool :=
  match e with
  | TimeoutException | NoSuchElementException => true
  | _ => false
  end.

Definition is_Exception (e : Exn) : bool := true.

(** [get_driver]: under [self.driver_lock], create the session when there
    is none.  The lock is free whenever the coroutine reaches it, since no
    holder suspends while holding it; the exit of [async with] releases it
    on return and on exception. *)
Definition get_driver (launch_result : option Exn) : M unit :=
  finally_
    (fun w =>
       (session_op OpCheck ;;
        d <- gets driver ;;
        if negb d then
          match launch_result with
          | None => session_op OpCreate ;; set_driver true
          | Some e =>
              (if is_WebDriverException e
               then logging (LogDriverInitFailed e) else ret tt) ;;
              raise e
          end
        else ret tt) (set_lock true w))
    (set_lock false).

Definition wait_until {A} (op : SessionOp) (el : Elem A) : M A :=
  session_op op ;;
  match el with
  | Found a => ret a
  | Fails e => raise e
  end.

Definition ScrapeResult : Type := option string * option Z * option string.

(** The body of the outer [try] of [get_project_data], after [driver] is
    bound. *)
Definition read_page (u : string) (page : Page) : M ScrapeResult :=
  session_op (OpNavigate u) ;;
  match navigation page with Some e => raise e | None => ret tt end ;;
  project_title <-
    try_except (wait_until OpWaitTitle (title_elem page)) is_Exception
      (fun e =>
         (if is_Timeout e then
            session_op OpScreenshot ;;
            logging (LogTitleFailed u e) ;;
            session_op OpCurrentUrl ;;
            session_op OpPageSource
          else if is_WebDriverException e then
            logging (LogTitleFailed u e) ;;
            session_op OpCurrentUrl
          else logging (LogTitleFailed u e)) ;;
         raise e) ;;
  current_funding <-
    try_except
      (price_text <- wait_until OpWaitPrice (price_elem page) ;;
       match price_text with
       | Some n => ret n
       | None => raise (ValueError "invalid literal for int()")
       end)
      is_Timeout_or_NoSuchElement
      (fun e => logging (LogPriceFailed u e) ;; raise e) ;;
  image_url <-
    try_except (wait_until OpWaitImage (image_elem page))
      is_Timeout_or_NoSuchElement
      (fun _ => logging (LogImageMissing u) ;; ret None) ;;
  ret (Some project_title, Some current_funding, image_url).

(** [get_project_data].  Every handler of the outer [try] logs, reads
    [driver.current_url] and returns three [None]s.  When [get_driver]
    itself raised, the local [driver] was never bound, so the handler's
    second log line raises [UnboundLocalError], which leaves the function. *)
Definition get_project_data (u : string) (page : Page) : M ScrapeResult :=
  try_except (get_driver (launch page)) is_Exception
    (fun e => logging (LogScrapeFailed u e) ;; raise UnboundLocalError) ;;
  try_except (read_page u page) is_Exception
    (fun e =>
       logging (LogScrapeFailed u e) ;;
       session_op OpCurrentUrl ;;
       ret (None, None, None)).

Definition MEMORY_THRESHOLD : Z := 500 * 1024 * 1024.

(** One round of the [while True] loop of [check_memory_and_restart]
    (between two sleeps), for a sampled resident memory size. *)
Definition check_memory_and_restart (memory_usage : Z) : M unit :=
  if memory_usage >? MEMORY_THRESHOLD then
    logging (LogMemoryExceeded memory_usage) ;;
    d <- gets driver ;;
    if d then session_op OpQuit ;; set_driver false else ret tt
  else ret tt.

(** ** State Store *)

Definition find_one (gid : GuildId) (s : Store) : option ServerConfig :=
  find (fun c => guild_id c =? gid) s.

(** The [$set] documents the code sends, by the path they address. *)
Inductive Update :=
| SetInitialFunding (pid : ProjectId) (v : Z)
| SetThresholds (pid : ProjectId) (l : list Z)
| SetProject (pid : ProjectId) (d : ProjectData).

Fixpoint set_field (pid : ProjectId) (f : ProjectData -> ProjectData)
    (m : list (ProjectId * ProjectData)) : list (ProjectId * ProjectData) :=
  match m with
  | [] => []
  | (k, d) :: m' =>
      if String.eqb k pid then (k, f d) :: m'
      else (k, d) :: set_field pid f m'
  end.

Fixpoint set_project (pid : ProjectId) (d : ProjectData)
    (m : list (ProjectId * ProjectData)) : list (ProjectId * ProjectData) :=
  match m with
  | [] => [(pid, d)]
  | (k, d0) :: m' =>
      if String.eqb k pid then (k, d) :: m'
      else (k, d0) :: set_project pid d m'
  end.

(** Setting a field of a project that the document does not hold leaves
    the model's document as it is (the store would create a sub-document
    with that field alone); the monitoring loop only addresses projects it
    has just read from the same document. *)
Definition apply_update (upd : Update) (c : ServerConfig) : ServerConfig :=
  let m := monitored_urls c in
  let m' :=
    match upd with
    | SetInitialFunding pid v =>
        set_field pid
          (fun d => mkProjectData (url d) (title d) (Some v) (thresholds d)) m
    | SetThresholds pid l =>
        set_field pid
          (fun d => mkProjectData (url d) (title d) (initial_funding d) l) m
    | SetProject pid d => set_project pid d m
    end in
  mkServerConfig (guild_id c) m' (notification_channels c).

(** [update_one({'guild_id': gid}, ...)]: the first matching document. *)
Fixpoint update_one (gid : GuildId) (upd : Update) (s : Store) : Store :=
  match s with
  | [] => []
  | c :: s' =>
      if guild_id c =? gid then apply_update upd c :: s'
      else c :: update_one gid upd s'
  end.

(** [update_server_config]: update the guild's document, or insert a
    fresh one when the guild has none (none of the dotted paths used here
    is copied into a fresh document). *)
Definition update_server_config (gid : GuildId) (upd : Update) : M unit :=
  existing_config <- gets (fun w => find_one gid (store w)) ;;
  match existing_config with
  | Some _ =>
      s <- gets store ;; set_store (update_one gid upd s)
  | None =>
      s <- gets store ;; set_store (s ++ [mkServerConfig gid [] []])
  end.

(** ** Notification Dispatcher *)

(** [get_channel c] says whether the client resolves the channel id;
    [send_fails c n] says whether [channel.send] raises
    [discord.HTTPException] (the failure it is documented to raise, with
    its subclasses) instead of delivering. *)
Record Env := mkEnv {
  get_channel : ChannelId -> bool;
  send_fails : ChannelId -> Notification -> bool
}.

Definition is_HTTPException (e : Exn) : bool :=
  match e with HTTPException => true | _ => false end.

Definition channel_send (env : Env) (c : ChannelId) (embed : Notification)
    : M unit :=
  modify (fun w => mkWorld (store w) (driver w) (lock_held w)
                     (session_trace w) (dispatched w)
                     (outbox w ++ [(c, embed)]) (log w)) ;;
  if send_fails env c embed then raise HTTPException else ret tt.

Definition send_notifications (env : Env) (gid : GuildId)
    (embed : Notification) : M unit :=
  modify (fun w => mkWorld (store w) (driver w) (lock_held w)
                     (session_trace w) (dispatched w ++ [(gid, embed)])
                     (outbox w) (log w)) ;;
  server_config <- gets (fun w => find_one gid (store w)) ;;
  match server_config with
  | None => ret tt
  | Some cfg =>
      for_each (notification_channels cfg) (fun channel_id =>
        if get_channel env channel_id then
          try_except (channel_send env channel_id embed) is_HTTPException
            (fun e => logging (LogSendFailed channel_id e))
        else ret tt)
  end.

Definition send_milestone_notification (env : Env) (gid : GuildId)
    (u : string) (current_funding milestone : Z) (project_title : string)
    : M unit :=
  send_notifications env gid
    (MilestoneEvent project_title milestone current_funding u).

(** ** Monitoring Scheduler *)

Definition mem (t : Z) (l : list Z) : bool := existsb (Z.eqb t) l.

(** The [for threshold in thresholds] loop; returns [removed_thresholds]. *)
Fixpoint thresholds_loop (env : Env) (gid : GuildId) (u : string)
    (current_funding : Z) (project_title : string)
    (l removed_thresholds : list Z) : M (list Z) :=
  match l with
  | [] => ret removed_thresholds
  | threshold :: l' =>
      if current_funding >=? threshold then
        send_notifications env gid
          (ThresholdEvent project_title threshold current_funding u) ;;
        thresholds_loop env gid u current_funding project_title l'
          (removed_thresholds ++ [threshold])
      else
        thresholds_loop env gid u current_funding project_title l'
          removed_thresholds
  end.

Definition check_custom_thresholds (env : Env) (gid : GuildId)
    (pid : ProjectId) (u : string) (current_funding : Z)
    (data : ProjectData) (project_title : string) : M unit :=
  removed_thresholds <-
    thresholds_loop env gid u current_funding project_title
      (thresholds data) [] ;;
  match removed_thresholds with
  | [] => ret tt
  | _ :: _ =>
      update_server_config gid
        (SetThresholds pid
           (filter (fun t => negb (mem t removed_thresholds))
              (thresholds data)))
  end.

(** The body of the inner loop of [check_prices]: one watched project.
    [page] is what the session yields for this read.  [data] is the dict
    read from the document; the assignments the code makes to it
    ([data['initial_funding']], [data['thresholds']]) are not read again
    in the tick, so only what is written to the store is kept.  Each
    [continue] ends the body. *)
Definition check_project (env : Env) (page : Page) (gid : GuildId)
    (pid : ProjectId) (data : ProjectData) : M unit :=
  let u := url data in
  try_except
    (r <- get_project_data u page ;;
     let '(_, current_funding, _) := r in
     if negb (truthy current_funding) then ret tt
     else
       match current_funding with
       | None => ret tt
       | Some current_funding =>
           if negb (truthy (initial_funding data)) then
             update_server_config gid
               (SetInitialFunding pid current_funding) ;;
             send_notifications env gid
               (MonitoringStart u current_funding)
           else
             match initial_funding data with
             | None => ret tt
             | Some initial =>
                 if current_funding >? initial then
                   let base := (initial / 1000000) * 1000000 in
                   let next_1m := base + 1000000 in
                   let project_title := title data in
                   (if (current_funding >=? next_1m) && (next_1m >? initial)
                    then
                      send_milestone_notification env gid u current_funding
                        next_1m project_title ;;
                      update_server_config gid
                        (SetInitialFunding pid next_1m)
                    else ret tt) ;;
                   check_custom_thresholds env gid pid u current_funding
                     data project_title
                 else ret tt
             end
       end)
    is_Exception
    (fun e => logging (LogPriceCheckError u e)).

(** One tick of [check_prices]: every document the store returns, every
    project of it.  [browse gid pid] is the page served for the read of
    that project in this tick. *)
Definition check_prices (env : Env) (browse : GuildId -> ProjectId -> Page)
    : M unit :=
  configs <- gets store ;;
  for_each configs (fun server_config =>
    for_each (monitored_urls server_config) (fun entry =>
      check_project env (browse (guild_id server_config) (fst entry))
        (guild_id server_config) (fst entry) (snd entry))).

(** ** Commands that write the watch list *)

(** *** Strings *)

Definition slash : ascii := "/"%char.

Fixpoint has_char (c : ascii) (s : string) : bool :=
  match s with
  | EmptyString => false
  | String c' s' => Ascii.eqb c' c || has_char c s'
  end.

(** The part of [s] before the first character that satisfies [p]. *)
Fixpoint take_until (p : ascii -> bool) (s : string) : string :=
  match s with
  | EmptyString => EmptyString
  | String c s' => if p c then EmptyString else String c (take_until p s')
  end.

(** The part of [s] from the first character that satisfies [p] on. *)
Fixpoint drop_until (p : ascii -> bool) (s : string) : string :=
  match s with
  | EmptyString => EmptyString
  | String c s' => if p c then s else drop_until p s'
  end.

Fixpoint lstrip (p : ascii -> bool) (s : string) : string :=
  match s with
  | EmptyString => EmptyString
  | String c s' => if p c then lstrip p s' else s
  end.

Fixpoint rstrip (p : ascii -> bool) (s : string) : string :=
  match s with
  | EmptyString => EmptyString
  | String c s' =>
      match rstrip p s' with
      | EmptyString => if p c then EmptyString else String c EmptyString
      | r => String c r
      end
  end.

(** [s.strip('/')]. *)
Definition strip (c : ascii) (s : string) : string :=
  rstrip (Ascii.eqb c) (lstrip (Ascii.eqb c) s).

(** [s.split(sep)] for a one-character separator. *)
Fixpoint split (sep : ascii) (s : string) : list string :=
  match s with
  | EmptyString => [EmptyString]
  | String c s' =>
      if Ascii.eqb c sep then EmptyString :: split sep s'
      else
        match split sep s' with
        | part :: parts => String c part :: parts
        | [] => [String c EmptyString]
        end
  end.

Fixpoint remove_chars (p : ascii -> bool) (s : string) : string :=
  match s with
  | EmptyString => EmptyString
  | String c s' =>
      if p c then remove_chars p s' else String c (remove_chars p s')
  end.

Fixpoint forall_chars (p : ascii -> bool) (s : string) : bool :=
  match s with
  | EmptyString => true
  | String c s' => p c && forall_chars p s'
  end.

Fixpoint map_chars (f : ascii -> ascii) (s : string) : string :=
  match s with
  | EmptyString => EmptyString
  | String c s' => String (f c) (map_chars f s')
  end.

Definition code (c : ascii) : nat := nat_of_ascii c.

Definition is_upper (c : ascii) : bool :=
  (65 <=? code c)%nat && (code c <=? 90)%nat.
Definition is_lower (c : ascii) : bool :=
  (97 <=? code c)%nat && (code c <=? 122)%nat.
Definition is_digit (c : ascii) : bool :=
  (48 <=? code c)%nat && (code c <=? 57)%nat.
Definition is_alpha (c : ascii) : bool := is_upper c || is_lower c.

Definition lower (c : ascii) : ascii :=
  if is_upper c then ascii_of_nat (code c + 32) else c.

(** *** [urllib.parse.urlparse]

    The standard library's parser, as far as the path of the result goes,
    for a URL given as its bytes: leading C0 controls and spaces are
    dropped, tabs and newlines removed, then scheme, network location,
    fragment, query and parameters are cut off.  It raises [ValueError]
    when the network location has one square bracket without the other.
    (The library also validates a host in matched brackets and a host
    that is not ASCII; those checks are not modelled.) *)

Record ParseResult := mkParseResult {
  scheme : string;
  netloc : string;
  path : string
}.

Definition is_c0_control_or_space (c : ascii) : bool := (code c <=? 32)%nat.

Definition is_unsafe_url_byte (c : ascii) : bool :=
  (code c =? 9)%nat || (code c =? 13)%nat || (code c =? 10)%nat.

Definition is_scheme_char (c : ascii) : bool :=
  is_alpha c || is_digit c
  || Ascii.eqb c "+"%char || Ascii.eqb c "-"%char || Ascii.eqb c "."%char.

Definition uses_params : list string :=
  [""; "ftp"; "hdl"; "prospero"; "http"; "imap"; "https"; "shttp"; "rtsp";
   "rtspu"; "sip"; "sips"; "mms"; "sftp"; "tel"].

Definition tail (s : string) : string :=
  match s with
  | EmptyString => EmptyString
  | String _ s' => s'
  end.

(** [scheme, url = url[:i].lower(), url[i+1:]] when the text before the
    first colon is a scheme. *)
Definition split_scheme (u : string) : string * string :=
  let is_colon := Ascii.eqb ":"%char in
  let before := take_until is_colon u in
  match before with
  | EmptyString => (EmptyString, u)
  | String c0 _ =>
      if has_char ":"%char u && is_alpha c0 && forall_chars is_scheme_char before
      then (map_chars lower before, tail (drop_until is_colon u))
      else (EmptyString, u)
  end.

Definition is_netloc_delim (c : ascii) : bool :=
  Ascii.eqb c "/"%char || Ascii.eqb c "?"%char || Ascii.eqb c "#"%char.

(** [_splitparams]: cut at the first [;] after the last [/]. *)
Fixpoint splitparams (s : string) : string :=
  match s with
  | EmptyString => EmptyString
  | String c s' =>
      if has_char slash s' then String c (splitparams s')
      else take_until (Ascii.eqb ";"%char) s
  end.

Definition urlparse (u : string) : Outcome ParseResult :=
  let u := lstrip is_c0_control_or_space u in
  let u := remove_chars is_unsafe_url_byte u in
  let (sch, u) := split_scheme u in
  let (loc, u) :=
    match u with
    | String "/" (String "/" rest) =>
        (take_until is_netloc_delim rest, drop_until is_netloc_delim rest)
    | _ => (EmptyString, u)
    end in
  if (has_char "["%char loc && negb (has_char "]"%char loc))
     || (has_char "]"%char loc && negb (has_char "["%char loc))
  then Raise (ValueError "Invalid IPv6 URL")
  else
    let u := take_until (Ascii.eqb "#"%char) u in
    let u := take_until (Ascii.eqb "?"%char) u in
    let u :=
      if existsb (String.eqb sch) uses_params then splitparams u else u in
    Ret (mkParseResult sch loc u).

(** *** [extract_project_id] *)

(** The message of the [ValueError] that [extract_project_id] declares
    (a Korean sentence in the source, given here in English). *)
Definition no_project_id : string := "cannot extract the project id".

(** [if path_parts:] holds for a list that is not empty. *)
Definition extract_project_id (u : string) : Outcome string :=
  match urlparse u with
  | Raise e => Raise e
  | Ret parsed_url =>
      let path_parts := split slash (strip slash (path parsed_url)) in
      match path_parts with
      | first :: _ => Ret first
      | [] => Raise (ValueError no_project_id)
      end
  end.

(** *** The commands *)

(** What a command answers to the requester. *)
Inductive Response :=
| InvalidUrl                 (* not a tumblbug URL *)
| CannotExtractId
| FetchFailed                (* the project data could not be fetched *)
| ProjectAdded (project_title : string) (current_funding : Z)
| NotMonitored
| ThresholdAlreadySet
| ThresholdSet (amount : Z)
| CommandError.

Fixpoint startswith (p s : string) : bool :=
  match p, s with
  | EmptyString, _ => true
  | String a p', String b s' => Ascii.eqb a b && startswith p' s'
  | String _ _, EmptyString => false
  end.

(** Python truthiness of an optional string: [None] and [''] are false. *)
Definition truthy_str (v : option string) : bool :=
  match v with
  | Some (String _ _) => true
  | _ => false
  end.

Definition is_ValueError (e : Exn) : bool :=
  match e with ValueError _ => true | _ => false end.

Definition lift {A} (o : Outcome A) : M A := fun w => (o, w).

(** The project-add command.  [extract_project_id] runs in a [try] that
    answers [CannotExtractId] on [ValueError]; the read of the page is
    outside any [try]. *)
Definition project_add (page : Page) (gid : GuildId) (u : string)
    : M Response :=
  if negb (startswith "https://tumblbug.com/" u) then ret InvalidUrl
  else
    extracted <-
      try_except
        (project_id <- lift (extract_project_id u) ;; ret (Some project_id))
        is_ValueError (fun _ => ret None) ;;
    match extracted with
    | None => ret CannotExtractId
    | Some project_id =>
        r <- get_project_data u page ;;
        let '(project_title, current_funding, _) := r in
        if negb (truthy_str project_title) || negb (truthy current_funding)
        then ret FetchFailed
        else
          match project_title, current_funding with
          | Some project_title, Some current_funding =>
              server_config <- gets (fun w => find_one gid (store w)) ;;
              match server_config with
              | Some _ => ret tt
              | None =>
                  s <- gets store ;;
                  set_store (s ++ [mkServerConfig gid [] []])
              end ;;
              update_server_config gid
                (SetProject project_id
                   (mkProjectData u project_title (Some current_funding)
                      [])) ;;
              ret (ProjectAdded project_title current_funding)
          | _, _ => ret FetchFailed
          end
    end.

(** [list.sort()] on integers: the ascending arrangement of the list. *)
Fixpoint insert_sorted (x : Z) (l : list Z) : list Z :=
  match l with
  | [] => [x]
  | y :: l' => if x <=? y then x :: l else y :: insert_sorted x l'
  end.

Fixpoint sort (l : list Z) : list Z :=
  match l with
  | [] => []
  | x :: l' => insert_sorted x (sort l')
  end.

(** The threshold-add command, returning the answer; the threshold list
    it stores is [sort (thresholds ++ [amount])]. *)
Definition threshold_add (gid : GuildId) (project_title : string)
    (amount : Z) : M Response :=
  server_config <- gets (fun w => find_one gid (store w)) ;;
  match server_config with
  | None => ret NotMonitored
  | Some cfg =>
      let has_title := fun e : ProjectId * ProjectData =>
        String.eqb (title (snd e)) project_title in
      if negb (existsb has_title (monitored_urls cfg)) then ret NotMonitored
      else
        match find has_title (monitored_urls cfg) with
        | None => ret CommandError
        | Some (project_id, data) =>
            let thresholds := thresholds data in
            if mem amount thresholds then ret ThresholdAlreadySet
            else
              let thresholds := sort (thresholds ++ [amount]) in
              s <- gets store ;;
              set_store
                (update_one gid (SetThresholds project_id thresholds) s) ;;
              ret (ThresholdSet amount)
        end
  end.

(** * Vocabulary of the properties *)

(** What a read returns once the session exists. *)
Definition page_reading (page : Page) : ScrapeResult :=
  match navigation page, title_elem page, price_elem page with
  | None, Found t, Found (Some n) =>
      match image_elem page with
      | Found i => (Some t, Some n, i)
      | Fails e =>
          if is_Timeout_or_NoSuchElement e then (Some t, Some n, None)
          else (None, None, None)
      end
  | _, _, _ => (None, None, None)
  end.

Definition scrape_outcome (page : Page) (has_driver : bool)
    : Outcome ScrapeResult :=
  match has_driver, launch page with
  | false, Some _ => Raise UnboundLocalError
  | _, _ => Ret (page_reading page)
  end.

(** The channels of a guild that the client resolves: the ones a
    notification is sent to. *)
Definition resolved_channels (env : Env) (gid : GuildId) (s : Store)
    : list ChannelId :=
  match find_one gid s with
  | None => []
  | Some cfg => filter (get_channel env) (notification_channels cfg)
  end.

(** The world after [send_notifications]. *)
Definition notified (env : Env) (gid : GuildId) (w : World)
    (embed : Notification) : World :=
  snd (send_notifications env gid embed w).

Definition notified_all (env : Env) (gid : GuildId)
    (embeds : list Notification) (w : World) : World :=
  fold_left (notified env gid) embeds w.

(** The thresholds that the current funding has reached. *)
Definition crossed (current_funding : Z) (l : list Z) : list Z :=
  filter (fun t => current_funding >=? t) l.

Definition threshold_events (u : string) (current_funding : Z)
    (project_title : string) (l : list Z) : list Notification :=
  map (fun t => ThresholdEvent project_title t current_funding u)
    (crossed current_funding l).

(** The world after [update_server_config]. *)
Definition updated (gid : GuildId) (upd : Update) (w : World) : World :=
  snd (update_server_config gid upd w).

(** The store after an update of a guild's document. *)
Definition store_after (gid : GuildId) (upd : Update) (s : Store) : Store :=
  match find_one gid s with
  | Some _ => update_one gid upd s
  | None => s ++ [mkServerConfig gid [] []]
  end.

Definition remaining (current_funding : Z) (l : list Z) : list Z :=
  filter (fun t => negb (mem t (crossed current_funding l))) l.

(** The next multiple of 1,000,000 above the base of [initial]. *)
Definition next_1m (initial : Z) : Z := (initial / 1000000) * 1000000 + 1000000.

(** The funding with which the scheduler goes on after a read: none when
    the read raised, returned no funding, or returned 0. *)
Definition usable_funding (r : Outcome ScrapeResult) : option Z :=
  match r with
  | Ret (_, Some n, _) => if n =? 0 then None else Some n
  | _ => None
  end.

(** What one cycle decides for a project read at [current_funding]: the
    notifications, in order, and the updates of the store. *)
Definition cycle (pid : ProjectId) (data : ProjectData)
    (current_funding : Z) : list Notification * list Update :=
  if negb (truthy (initial_funding data)) then
    ([MonitoringStart (url data) current_funding],
     [SetInitialFunding pid current_funding])
  else
    match initial_funding data with
    | None => ([], [])
    | Some initial =>
        if current_funding >? initial then
          let ms :=
            if (current_funding >=? next_1m initial)
               && (next_1m initial >? initial)
            then ([MilestoneEvent (title data) (next_1m initial)
                     current_funding (url data)],
                  [SetInitialFunding pid (next_1m initial)])
            else ([], []) in
          (fst ms ++ threshold_events (url data) current_funding
                       (title data) (thresholds data),
           snd ms ++
           match crossed current_funding (thresholds data) with
           | [] => []
           | _ :: _ =>
               [SetThresholds pid
                  (remaining current_funding (thresholds data))]
           end)
        else ([], [])
    end.

Definition cycle_of (pid : ProjectId) (data : ProjectData)
    (r : Outcome ScrapeResult) : list Notification * list Update :=
  match usable_funding r with
  | Some current_funding => cycle pid data current_funding
  | None => ([], [])
  end.

Definition store_after_all (gid : GuildId) (upds : list Update) (s : Store)
    : Store :=
  fold_left (fun s upd => store_after gid upd s) upds s.

(** The notifications dispatched between two worlds. *)
Definition emitted (w w' : World) : list (GuildId * Notification) :=
  skipn (List.length (dispatched w)) (dispatched w').

Fixpoint get_project (pid : ProjectId) (m : list (ProjectId * ProjectData))
    : option ProjectData :=
  match m with
  | [] => None
  | (k, d) :: m' => if String.eqb k pid then Some d else get_project pid m'
  end.

(** The stored state of project [pid] of guild [gid]. *)
Definition lookup_project (gid : GuildId) (pid : ProjectId) (s : Store)
    : option ProjectData :=
  match find_one gid s with
  | Some cfg => get_project pid (monitored_urls cfg)
  | None => None
  end.

(** The effect of a field update on the stored state of project [p]. *)
Definition apply_to (upd : Update) (p : ProjectId) (d : ProjectData)
    : ProjectData :=
  match upd with
  | SetInitialFunding pid v =>
      if String.eqb p pid
      then mkProjectData (url d) (title d) (Some v) (thresholds d) else d
  | SetThresholds pid l =>
      if String.eqb p pid
      then mkProjectData (url d) (title d) (initial_funding d) l else d
  | SetProject pid nd => if String.eqb p pid then nd else d
  end.

Definition is_field_update (upd : Update) : bool :=
  match upd with SetProject _ _ => false | _ => true end.

Definition apply_all_to (upds : list Update) (p : ProjectId)
    (d : ProjectData) : ProjectData :=
  fold_left (fun d upd => apply_to upd p d) upds d.

Definition is_milestone (n : Notification) : bool :=
  match n with MilestoneEvent _ _ _ _ => true | _ => false end.

Definition is_threshold_event (n : Notification) : bool :=
  match n with ThresholdEvent _ _ _ _ => true | _ => false end.

(** The notifications of one step, without the guild they went to. *)
Definition events (w w' : World) : list Notification :=
  map snd (emitted w w').

(** The stored [initial_funding] of a project ([None] when the project is
    not stored or the field is unset). *)
Definition stored_initial_funding (gid : GuildId) (pid : ProjectId)
    (w : World) : option Z :=
  match lookup_project gid pid (store w) with
  | Some d => initial_funding d
  | None => None
  end.

Definition stored_thresholds (gid : GuildId) (pid : ProjectId)
    (w : World) : list Z :=
  match lookup_project gid pid (store w) with
  | Some d => thresholds d
  | None => []
  end.

(** A guild with one channel that watches one project. *)
Definition sample_env : Env := mkEnv (fun _ => true) (fun _ _ => false).

Definition sample_page (funding : Z) : Page :=
  mkPage None None (Found "Book") (Found (Some funding)) (Found None).

Definition sample_data (initial : option Z) (ths : list Z) : ProjectData :=
  mkProjectData "https://tumblbug.com/book" "Book" initial ths.

Definition sample_world (data : ProjectData) : World :=
  mkWorld [mkServerConfig 1 [("book", data)] [10]] false false [] [] [] [].

(** The state of a project after a cycle read it at [current_funding]. *)
Definition after_cycle (data : ProjectData) (current_funding : Z)
    : ProjectData :=
  if negb (truthy (initial_funding data)) then
    mkProjectData (url data) (title data) (Some current_funding)
      (thresholds data)
  else
    match initial_funding data with
    | None => data
    | Some initial =>
        if current_funding >? initial then
          mkProjectData (url data) (title data)
            (if (current_funding >=? next_1m initial)
                && (next_1m initial >? initial)
             then Some (next_1m initial) else Some initial)
            (remaining current_funding (thresholds data))
        else data
    end.

Definition sorted_unique (l : list Z) : Prop := Sorted Z.le l /\ NoDup l.

(** Every project of every document has a sorted, duplicate-free list. *)
Definition config_sorted (c : ServerConfig) : Prop :=
  Forall (fun e => sorted_unique (thresholds (snd e))) (monitored_urls c).

Definition store_sorted (s : Store) : Prop := Forall config_sorted s.

Definition update_sorted (upd : Update) : Prop :=
  match upd with
  | SetInitialFunding _ _ => True
  | SetThresholds _ l => sorted_unique l
  | SetProject _ d => sorted_unique (thresholds d)
  end.

(** Channel 10 fails with HTTPException, channel 11 is not resolved,
    channel 12 delivers. *)
Definition flaky_env : Env :=
  mkEnv (fun c => negb (c =? 11)) (fun c _ => c =? 10).

Definition flaky_world : World :=
  mkWorld [mkServerConfig 1 [] [10; 11; 12]] false false [] [] [] [].

(** The session operations performed between two worlds. *)
Definition new_ops (w w' : World) : list (SessionOp * bool) :=
  skipn (List.length (session_trace w)) (session_trace w').

(** The operations that [get_driver] performs on [self.driver]. *)
Definition is_driver_init (op : SessionOp) : bool :=
  match op with
  | OpCheck | OpCreate => true
  | _ => false
  end.

(** Every operation was made while the lock was held. *)
Definition all_under_lock (ops : list (SessionOp * bool)) : Prop :=
  Forall (fun e => snd e = true) ops.

(** An operation is recorded with the lock held exactly when it is one
    of [get_driver]'s. *)
Definition lock_matches (e : SessionOp * bool) : Prop :=
  snd e = is_driver_init (fst e).

(** [m], started with the lock free, ends with the lock free and records
    only operations whose lock state matches. *)
Definition respects_lock {A} (m : M A) : Prop :=
  forall w, lock_held w = false ->
    lock_held (snd (m w)) = false
    /\ exists ops,
         session_trace (snd (m w)) = session_trace w ++ ops
         /\ Forall lock_matches ops.

(** The projects a tick goes through, in order, with their guild. *)
Definition Job : Type := GuildId * ProjectId * ProjectData.

Definition jobs (s : Store) : list Job :=
  flat_map (fun c => map (fun e => (guild_id c, fst e, snd e))
                       (monitored_urls c)) s.

Definition run_job (env : Env) (browse : GuildId -> ProjectId -> Page)
    (j : Job) : M unit :=
  let '(gid, pid, data) := j in
  check_project env (browse gid pid) gid pid data.

Definition key (j : Job) : GuildId * ProjectId := fst j.

(** Guild documents are unique by [guild_id] (the unique index) and the
    projects of a document by their id (the keys of a dict). *)
Definition well_formed (s : Store) : Prop :=
  NoDup (map guild_id s)
  /\ Forall (fun c => NoDup (map fst (monitored_urls c))) s.

(** The funding a read hands to its caller ([None] when it raised). *)
Definition funding_read (r : Outcome ScrapeResult) : option Z :=
  match r with
  | Ret (_, f, _) => f
  | Raise _ => None
  end.

(** The read of this page fails: it raises or returns no funding,
    whether or not a session exists when it starts. *)
Definition read_fails (page : Page) : Prop :=
  forall has_driver, funding_read (scrape_outcome page has_driver) = None.

Definition read_gives (page : Page) (current_funding : Z) : Prop :=
  forall has_driver,
    funding_read (scrape_outcome page has_driver) = Some current_funding.

(** One guild watching two projects: the page of [a] times out on the
    title, the page of [b] shows 1,050,000. *)
Definition two_projects : World :=
  mkWorld
    [mkServerConfig 1
       [("a", mkProjectData "https://tumblbug.com/a" "A" (Some 900000)
                [1000000]);
        ("b", mkProjectData "https://tumblbug.com/b" "B" (Some 900000) [])]
       [10]]
    false false [] [] [] [].

Definition one_fails (gid : GuildId) (pid : ProjectId) : Page :=
  if String.eqb pid "a"
  then mkPage None None (Fails TimeoutException) (Found (Some 1050000))
         (Found None)
  else sample_page 1050000.

(** * The other commands and the store connection *)

(** What the remaining commands answer to the requester. *)
Inductive Reply :=
| GuildOnly                  (* the command needs a guild *)
| NotWatched                 (* no watched project has this title *)
| ProjectStopped
| ChannelAdded
| ChannelAlreadySet
| NoChannelConfigured
| ChannelNotSet
| ChannelRemoved
| ThresholdsCleared
| TestAmountTooLow (initial : Z)
| TestDone (test_amount : Z)
| ReplyError.

Definition has_title (project_title : string)
    (e : ProjectId * ProjectData) : bool :=
  String.eqb (title (snd e)) project_title.

(** [$unset monitored_urls.<pid>]: the entry of that key is dropped. *)
Fixpoint remove_project (pid : ProjectId)
    (m : list (ProjectId * ProjectData)) : list (ProjectId * ProjectData) :=
  match m with
  | [] => []
  | (k, d) :: m' =>
      if String.eqb k pid then m' else (k, d) :: remove_project pid m'
  end.

Fixpoint unset_project (gid : GuildId) (pid : ProjectId) (s : Store)
    : Store :=
  match s with
  | [] => []
  | c :: s' =>
      if guild_id c =? gid
      then mkServerConfig (guild_id c)
             (remove_project pid (monitored_urls c))
             (notification_channels c) :: s'
      else c :: unset_project gid pid s'
  end.

(** The project-stop command: the first project with the title goes. *)
Definition project_stop (gid : GuildId) (project_title : string)
    : M Reply :=
  server_config <- gets (fun w => find_one gid (store w)) ;;
  match server_config with
  | None => ret NotWatched
  | Some cfg =>
      if negb (existsb (has_title project_title) (monitored_urls cfg))
      then ret NotWatched
      else
        match find (has_title project_title) (monitored_urls cfg) with
        | None => ret ReplyError
        | Some (project_id, _) =>
            s <- gets store ;;
            set_store (unset_project gid project_id s) ;;
            ret ProjectStopped
        end
  end.

(** [$set notification_channels] on the guild's document. *)
Fixpoint set_channels (gid : GuildId) (l : list ChannelId) (s : Store)
    : Store :=
  match s with
  | [] => []
  | c :: s' =>
      if guild_id c =? gid
      then mkServerConfig (guild_id c) (monitored_urls c) l :: s'
      else c :: set_channels gid l s'
  end.

(** The channel-set command, used in channel [channel_id]; [in_guild]
    says whether the interaction has a guild. *)
Definition set_channel (in_guild : bool) (gid : GuildId)
    (channel_id : ChannelId) : M Reply :=
  if negb in_guild then ret GuildOnly
  else
    server_config <- gets (fun w => find_one gid (store w)) ;;
    match server_config with
    | None =>
        s <- gets store ;;
        set_store (s ++ [mkServerConfig gid [] [channel_id]]) ;;
        ret ChannelAdded
    | Some cfg =>
        let notification_channels := notification_channels cfg in
        if mem channel_id notification_channels then ret ChannelAlreadySet
        else
          s <- gets store ;;
          set_store
            (set_channels gid (notification_channels ++ [channel_id]) s) ;;
          ret ChannelAdded
    end.

(** [list.remove(x)]: the first occurrence goes. *)
Fixpoint remove_first (x : Z) (l : list Z) : list Z :=
  match l with
  | [] => []
  | y :: l' => if y =? x then l' else y :: remove_first x l'
  end.

(** The channel-unset command. *)
Definition remove_channel (in_guild : bool) (gid : GuildId)
    (channel_id : ChannelId) : M Reply :=
  if negb in_guild then ret GuildOnly
  else
    server_config <- gets (fun w => find_one gid (store w)) ;;
    match server_config with
    | None => ret NoChannelConfigured
    | Some cfg =>
        let notification_channels := notification_channels cfg in
        if negb (mem channel_id notification_channels) then ret ChannelNotSet
        else
          s <- gets store ;;
          set_store
            (set_channels gid (remove_first channel_id notification_channels)
               s) ;;
          ret ChannelRemoved
    end.

(** The threshold-remove command: every threshold of the project goes. *)
Definition threshold_remove (gid : GuildId) (project_title : string)
    : M Reply :=
  server_config <- gets (fun w => find_one gid (store w)) ;;
  match server_config with
  | None => ret NotWatched
  | Some cfg =>
      if negb (existsb (has_title project_title) (monitored_urls cfg))
      then ret NotWatched
      else
        match find (has_title project_title) (monitored_urls cfg) with
        | None => ret ReplyError
        | Some (project_id, _) =>
            s <- gets store ;;
            set_store (update_one gid (SetThresholds project_id []) s) ;;
            ret ThresholdsCleared
        end
  end.

(** The funding-test command.  The whole body is in a [try] whose
    [except Exception] answers with an error; comparing the amount with
    an unset [initial_funding] raises there. *)
Definition test_funding (env : Env) (guild : option GuildId)
    (project_title : string) (test_amount : Z) : M Reply :=
  match guild with
  | None => ret GuildOnly
  | Some gid =>
      try_except
        (server_config <- gets (fun w => find_one gid (store w)) ;;
         match server_config with
         | None => ret NotWatched
         | Some cfg =>
             if negb (existsb (has_title project_title) (monitored_urls cfg))
             then ret NotWatched
             else
               match find (has_title project_title) (monitored_urls cfg) with
               | None => raise OtherException
               | Some (project_id, project_data) =>
                   match initial_funding project_data with
                   | None => raise OtherException
                   | Some initial =>
                       if test_amount <? initial
                       then ret (TestAmountTooLow initial)
                       else
                         check_custom_thresholds env gid project_id
                           (url project_data) test_amount project_data
                           project_title ;;
                         let base := (initial / 1000000) * 1000000 in
                         let next_1m := base + 1000000 in
                         (if test_amount >=? next_1m then
                            send_milestone_notification env gid
                              (url project_data) test_amount next_1m
                              project_title
                          else ret tt) ;;
                         ret (TestDone test_amount)
                   end
               end
         end)
        is_Exception (fun _ => ret ReplyError)
  end.

(** [on_guild_join]: a guild without a document gets an empty one. *)
Definition on_guild_join (gid : GuildId) : M unit :=
  existing_config <- gets (fun w => find_one gid (store w)) ;;
  match existing_config with
  | Some _ => ret tt
  | None =>
      s <- gets store ;; set_store (s ++ [mkServerConfig gid [] []])
  end.

(** The embeds of the project-list command. *)
Inductive ListEmbed :=
| NoProjectsEmbed
| ProjectEmbed (project_title : string) (current_funding : Z)
               (thumbnail : option string) (alerts : list Z)
| ListErrorEmbed (project_url : string).

(** [range(0, n, 10)]. *)
Definition range_by_10 (n : nat) : list nat :=
  map (fun k => (10 * k)%nat) (seq 0 ((n + 9) / 10)).

(** The messages of the final loop: [embeds[i:i+10]] for every [i] of
    [range(0, len(embeds), 10)]. *)
Definition chunks {A} (embeds : list A) : list (list A) :=
  map (fun i => firstn 10 (skipn i embeds))
    (range_by_10 (List.length embeds)).

(** The body of the loop of the project-list command, for one project:
    the embed that is appended.  Formatting an absent funding raises, and
    the [except Exception] of the body appends the error embed. *)
Definition list_project (page : Page) (data : ProjectData) : M ListEmbed :=
  try_except
    (r <- get_project_data (url data) page ;;
     let '(project_title, current_funding, image_url) := r in
     let project_title :=
       match project_title with
       | Some (String c t) => String c t
       | _ => title data
       end in
     match current_funding with
     | None => raise OtherException
     | Some current_funding =>
         ret (ProjectEmbed project_title current_funding
                (if truthy_str image_url then image_url else None)
                (sort (thresholds data)))
     end)
    is_Exception (fun _ => ret (ListErrorEmbed (url data))).

Fixpoint list_projects (browse : ProjectId -> Page)
    (m : list (ProjectId * ProjectData)) : M (list ListEmbed) :=
  match m with
  | [] => ret []
  | (pid, data) :: m' =>
      embed <- list_project (browse pid) data ;;
      embeds <- list_projects browse m' ;;
      ret (embed :: embeds)
  end.

(** The project-list command; the result is the list of messages sent,
    each with its embeds. *)
Definition project_list (browse : ProjectId -> Page) (gid : GuildId)
    : M (list (list ListEmbed)) :=
  server_config <- gets (fun w => find_one gid (store w)) ;;
  match server_config with
  | None => ret [[NoProjectsEmbed]]
  | Some cfg =>
      match monitored_urls cfg with
      | [] => ret [[NoProjectsEmbed]]
      | _ :: _ =>
          embeds <- list_projects browse (monitored_urls cfg) ;;
          ret (chunks embeds)
      end
  end.

(** ** [DatabaseConnection.ensure_connection]

    What the server does during one call is an input: the outcome of the
    k-th ping and of the k-th reconnection. *)
Inductive Ping :=
| PingOk
| PingConnectionFailure      (* ConnectionFailure, ServerSelectionTimeoutError *)
| PingOtherError.

Inductive DbAction :=
| DoPing
| LogRetry (retry_count : nat)
| Sleep
| Reconnect.

Inductive DbResult :=
| DbReturned
| DbRaisedConnectionFailure  (* the ping's exception, raised again *)
| DbRaisedOther              (* an exception the loop does not handle *)
| DbRaisedConnect.           (* [connect] raised *)

Definition max_retries : nat := 3.

(** The [while retry_count < max_retries] loop; [left] is
    [max_retries - retry_count]. *)
Fixpoint ensure_connection_loop (ping : nat -> Ping) (connect : nat -> bool)
    (left : nat) : DbResult * list DbAction :=
  match left with
  | O => (DbReturned, [])
  | S left' =>
      let retry_count := (max_retries - left)%nat in
      match ping retry_count with
      | PingOk => (DbReturned, [DoPing])
      | PingOtherError => (DbRaisedOther, [DoPing])
      | PingConnectionFailure =>
          let retry_count := S retry_count in
          if (retry_count <? max_retries)%nat then
            if connect (retry_count - 1)%nat then
              let (r, acts) := ensure_connection_loop ping connect left' in
              (r, [DoPing; LogRetry retry_count; Sleep; Reconnect] ++ acts)
            else
              (DbRaisedConnect,
               [DoPing; LogRetry retry_count; Sleep; Reconnect])
          else (DbRaisedConnectionFailure, [DoPing; LogRetry retry_count])
      end
  end.

Definition ensure_connection (ping : nat -> Ping) (connect : nat -> bool)
    : DbResult * list DbAction :=
  ensure_connection_loop ping connect max_retries.



(** No guild has a channel twice in its list. *)
Definition channels_unique (s : Store) : Prop :=
  Forall (fun c => NoDup (notification_channels c)) s.


Definition is_DoPing (a : DbAction) : bool :=
  match a with DoPing => true | _ => false end.

Definition is_Sleep (a : DbAction) : bool :=
  match a with Sleep => true | _ => false end.

Definition is_Reconnect (a : DbAction) : bool :=
  match a with Reconnect => true | _ => false end.

(** [@tasks.loop(minutes=1)]: the scheduler runs [check_prices] again and
    again; [ticks n] is its first [n] runs. *)
Fixpoint ticks (env : Env) (browse : GuildId -> ProjectId -> Page)
    (n : nat) : M unit :=
  match n with
  | O => ret tt
  | S n' => check_prices env browse ;; ticks env browse n'
  end.

(** The first [k] milestones above [initial], announced at
    [current_funding]. *)
Definition milestones_from (initial current_funding : Z)
    (project_title u : string) (k : nat) : list Notification :=
  map (fun j => MilestoneEvent project_title
                  (next_1m initial + Z.of_nat j * 1000000)
                  current_funding u)
    (seq 0 k).

(** * Properties *)

(** ** Running monadic code *)

Lemma bind_run {A B} (m : M A) (k : A -> M B) (w : World) (a : A) :
  fst (m w) = Ret a -> bind m k w = k a (snd (m w)).
Proof.
  unfold bind. destruct (m w) as [[a'|e] w']; cbn; intros H.
  - now inversion H.
  - discriminate.
Qed.

(** ** The page reader *)

(** The result of a read, and what a read leaves alone: it touches the
    session and the log only. *)
Lemma get_project_data_run (u : string) (page : Page) (w : World) :
  let r := get_project_data u page w in
  fst r = scrape_outcome page (driver w)
  /\ store (snd r) = store w /\ dispatched (snd r) = dispatched w
  /\ outbox (snd r) = outbox w.
Proof.
  destruct page as [l n t p i], w as [s d lk tr ds ob lg].
  unfold get_project_data, read_page, get_driver, scrape_outcome,
    page_reading, try_except, finally_, bind, wait_until, session_op,
    logging, set_driver, modify, gets, ret, raise, set_lock.
  cbn -[is_Timeout is_WebDriverException is_Timeout_or_NoSuchElement].
  destruct d; [|destruct l as [el|]];
    cbn -[is_Timeout is_WebDriverException is_Timeout_or_NoSuchElement].
  2:{ destruct (is_WebDriverException el); cbn; auto. }
  all: destruct n as [en|];
    cbn -[is_Timeout is_WebDriverException is_Timeout_or_NoSuchElement];
    [cbn; repeat split; reflexivity|].
  all: destruct t as [tt'|et];
    cbn -[is_Timeout is_WebDriverException is_Timeout_or_NoSuchElement];
    [|destruct (is_Timeout et); [|destruct (is_WebDriverException et)];
      cbn; repeat split; reflexivity].
  all: destruct p as [[pn|]|ep];
    cbn -[is_Timeout is_WebDriverException is_Timeout_or_NoSuchElement];
    [| cbn; repeat split; reflexivity
     | destruct (is_Timeout_or_NoSuchElement ep); cbn; repeat split; reflexivity].
  all: destruct i as [ii|ei];
    cbn -[is_Timeout is_WebDriverException is_Timeout_or_NoSuchElement];
    [cbn; repeat split; reflexivity|].
  all: destruct (is_Timeout_or_NoSuchElement ei); cbn; repeat split; reflexivity.
Qed.

Lemma get_project_data_outcome (u : string) (page : Page) (w : World) :
  fst (get_project_data u page w) = scrape_outcome page (driver w).
Proof. apply (get_project_data_run u page w). Qed.

Lemma get_project_data_frame (u : string) (page : Page) (w : World) :
  let w' := snd (get_project_data u page w) in
  store w' = store w /\ dispatched w' = dispatched w
  /\ outbox w' = outbox w.
Proof. apply (get_project_data_run u page w). Qed.

(** ** The store *)

Lemma update_server_config_run (gid : GuildId) (upd : Update) (w : World) :
  update_server_config gid upd w =
  (Ret tt,
   mkWorld
     (match find_one gid (store w) with
      | Some _ => update_one gid upd (store w)
      | None => store w ++ [mkServerConfig gid [] []]
      end)
     (driver w) (lock_held w) (session_trace w) (dispatched w)
     (outbox w) (log w)).
Proof.
  unfold update_server_config, bind, gets, set_store, modify. cbn.
  destruct (find_one gid (store w)); reflexivity.
Qed.

(** ** The dispatcher *)

(** The loop body of [send_notifications], run on one channel. *)
Lemma send_one_run (env : Env) (embed : Notification) (c : ChannelId)
    (w : World) :
  (if get_channel env c then
     try_except (channel_send env c embed) is_HTTPException
       (fun e => logging (LogSendFailed c e))
   else ret tt) w =
  (Ret tt,
   mkWorld (store w) (driver w) (lock_held w) (session_trace w)
     (dispatched w)
     (outbox w ++ (if get_channel env c then [(c, embed)] else []))
     (log w ++ (if get_channel env c && send_fails env c embed
                then [LogSendFailed c HTTPException] else []))).
Proof.
  destruct w as [s d lk tr ds ob lg].
  unfold try_except, channel_send, bind, modify, logging, ret, raise. cbn.
  destruct (get_channel env c); cbn.
  - destruct (send_fails env c embed); cbn; rewrite ?app_nil_r; reflexivity.
  - rewrite !app_nil_r. reflexivity.
Qed.

Lemma send_loop_run (env : Env) (embed : Notification)
    (l : list ChannelId) (w : World) :
  for_each l (fun channel_id =>
    if get_channel env channel_id then
      try_except (channel_send env channel_id embed) is_HTTPException
        (fun e => logging (LogSendFailed channel_id e))
    else ret tt) w =
  (Ret tt,
   mkWorld (store w) (driver w) (lock_held w) (session_trace w)
     (dispatched w)
     (outbox w ++ map (fun c => (c, embed)) (filter (get_channel env) l))
     (log w ++ map (fun c => LogSendFailed c HTTPException)
                 (filter (fun c => send_fails env c embed)
                    (filter (get_channel env) l)))).
Proof.
  revert w. induction l as [|c l IH]; intros w.
  - cbn. rewrite !app_nil_r. now destruct w.
  - cbn [for_each]. unfold bind at 1. rewrite send_one_run.
    rewrite IH. cbn [store driver lock_held session_trace dispatched outbox log].
    f_equal. cbn [filter].
    destruct (get_channel env c); cbn [andb filter].
    + destruct (send_fails env c embed); cbn [map];
        rewrite <- ?app_assoc, ?app_nil_r; reflexivity.
    + rewrite !app_nil_r. reflexivity.
Qed.

Lemma send_notifications_run (env : Env) (gid : GuildId)
    (embed : Notification) (w : World) :
  send_notifications env gid embed w =
  (Ret tt,
   mkWorld (store w) (driver w) (lock_held w) (session_trace w)
     (dispatched w ++ [(gid, embed)])
     (outbox w ++ map (fun c => (c, embed))
                    (resolved_channels env gid (store w)))
     (log w ++ map (fun c => LogSendFailed c HTTPException)
                 (filter (fun c => send_fails env c embed)
                    (resolved_channels env gid (store w))))).
Proof.
  unfold send_notifications, resolved_channels.
  unfold bind at 1, modify. unfold bind at 1, gets.
  cbn [store driver lock_held session_trace dispatched outbox log].
  destruct (find_one gid (store w)) as [cfg|].
  - rewrite send_loop_run. reflexivity.
  - unfold ret. cbn. rewrite !app_nil_r. reflexivity.
Qed.

Lemma send_notifications_notified env gid embed w :
  send_notifications env gid embed w = (Ret tt, notified env gid w embed).
Proof. unfold notified. now rewrite send_notifications_run. Qed.

Lemma notified_all_frame env gid embeds w :
  let w' := notified_all env gid embeds w in
  store w' = store w /\ driver w' = driver w
  /\ lock_held w' = lock_held w /\ session_trace w' = session_trace w
  /\ dispatched w' = dispatched w ++ map (pair gid) embeds.
Proof.
  revert w. induction embeds as [|e l IH]; intros w; cbn.
  - rewrite app_nil_r. repeat split.
  - specialize (IH (notified env gid w e)). cbn in IH.
    destruct IH as (Hs & Hd & Hl & Ht & Hds).
    unfold notified_all in *. cbn.
    rewrite Hs, Hd, Hl, Ht, Hds. unfold notified.
    rewrite send_notifications_run. cbn. rewrite <- app_assoc.
    repeat split.
Qed.

(** ** Custom thresholds *)

Lemma thresholds_loop_run env gid u cur project_title l removed w :
  thresholds_loop env gid u cur project_title l removed w =
  (Ret (removed ++ crossed cur l),
   notified_all env gid (threshold_events u cur project_title l) w).
Proof.
  revert removed w. induction l as [|t l IH]; intros removed w.
  - cbn. now rewrite app_nil_r.
  - cbn [thresholds_loop]. unfold threshold_events, crossed. cbn [filter].
    destruct (cur >=? t) eqn:Ht.
    + unfold bind. rewrite send_notifications_notified. rewrite IH.
      rewrite <- app_assoc. reflexivity.
    + apply IH.
Qed.

Lemma update_server_config_updated gid upd w :
  update_server_config gid upd w = (Ret tt, updated gid upd w).
Proof. unfold updated. now rewrite update_server_config_run. Qed.

Lemma updated_frame gid upd w :
  let w' := updated gid upd w in
  store w' = store_after gid upd (store w) /\ driver w' = driver w
  /\ lock_held w' = lock_held w /\ session_trace w' = session_trace w
  /\ dispatched w' = dispatched w /\ outbox w' = outbox w
  /\ log w' = log w.
Proof.
  unfold updated. rewrite update_server_config_run. cbn. repeat split.
Qed.

Lemma check_custom_thresholds_run env gid pid u cur data project_title w :
  check_custom_thresholds env gid pid u cur data project_title w =
  (Ret tt,
   let w1 := notified_all env gid
               (threshold_events u cur project_title (thresholds data)) w in
   match crossed cur (thresholds data) with
   | [] => w1
   | _ :: _ =>
       updated gid (SetThresholds pid (remaining cur (thresholds data))) w1
   end).
Proof.
  unfold check_custom_thresholds, bind. rewrite thresholds_loop_run.
  cbn [app]. unfold remaining.
  destruct (crossed cur (thresholds data)) eqn:Hc.
  - reflexivity.
  - now rewrite update_server_config_updated.
Qed.

(** ** One project in one cycle *)

Lemma notified_frame env gid embed w :
  let w' := notified env gid w embed in
  store w' = store w /\ driver w' = driver w
  /\ lock_held w' = lock_held w /\ session_trace w' = session_trace w
  /\ dispatched w' = dispatched w ++ [(gid, embed)].
Proof. exact (notified_all_frame env gid [embed] w). Qed.

Ltac frames :=
  repeat match goal with
    | |- context [store (updated ?g ?u ?w)] =>
        rewrite (proj1 (updated_frame g u w))
    | |- context [dispatched (updated ?g ?u ?w)] =>
        rewrite (proj1 (proj2 (proj2 (proj2 (proj2 (updated_frame g u w))))))
    | |- context [store (notified ?e ?g ?w ?n)] =>
        rewrite (proj1 (notified_frame e g n w))
    | |- context [dispatched (notified ?e ?g ?w ?n)] =>
        rewrite (proj2 (proj2 (proj2 (proj2 (notified_frame e g n w)))))
    | |- context [store (notified_all ?e ?g ?l ?w)] =>
        rewrite (proj1 (notified_all_frame e g l w))
    | |- context [dispatched (notified_all ?e ?g ?l ?w)] =>
        rewrite (proj2 (proj2 (proj2 (proj2 (notified_all_frame e g l w)))))
    end.

(** [check_project] always returns (its [except Exception] takes every
    exception); it dispatches the notifications and applies the updates
    that [cycle] lists for what the read gave. *)
Lemma check_project_effect env page gid pid data w :
  let w' := snd (check_project env page gid pid data w) in
  let c := cycle_of pid data (scrape_outcome page (driver w)) in
  fst (check_project env page gid pid data w) = Ret tt
  /\ dispatched w' = dispatched w ++ map (pair gid) (fst c)
  /\ store w' = store_after_all gid (snd c) (store w).
Proof.
  cbn zeta.
  pose proof (get_project_data_outcome (url data) page w) as Ho.
  pose proof (get_project_data_frame (url data) page w) as Hf.
  cbn zeta in Hf. destruct Hf as (Hs & Hd & _).
  unfold check_project, try_except, bind, send_milestone_notification, ret.
  destruct (get_project_data (url data) page w) as [o w1].
  cbn [fst snd] in *. rewrite <- Ho. clear Ho.
  unfold cycle_of, usable_funding.
  destruct o as [[[t cf] i]|e].
  2:{ cbn. rewrite app_nil_r. auto. }
  destruct cf as [n|]; cbn [truthy negb].
  2:{ cbn. rewrite app_nil_r. auto. }
  destruct (n =? 0) eqn:Hn; cbn [negb].
  { cbn. rewrite app_nil_r. auto. }
  unfold cycle.
  destruct (truthy (initial_funding data)) eqn:Hi; cbn [negb].
  - destruct (initial_funding data) as [init|]; [|discriminate].
    destruct (n >? init) eqn:Hgt.
    2:{ cbn. rewrite app_nil_r. auto. }
    fold (next_1m init).
    destruct ((n >=? next_1m init) && (next_1m init >? init)) eqn:Hm.
    + rewrite send_notifications_notified, update_server_config_updated.
      rewrite check_custom_thresholds_run. cbn [fst snd].
      destruct (crossed n (thresholds data)) eqn:Hc; cbn zeta; frames;
        rewrite Hs, Hd; cbn [app map]; unfold store_after_all;
        rewrite ?map_app, <- ?app_assoc; cbn [app fold_left]; auto.
    + rewrite check_custom_thresholds_run. cbn [fst snd].
      destruct (crossed n (thresholds data)) eqn:Hc; cbn zeta; frames;
        rewrite Hs, Hd; cbn [app map]; unfold store_after_all;
        cbn [app fold_left]; auto.
  - rewrite update_server_config_updated, send_notifications_notified.
    cbn [fst snd]. frames. rewrite Hs, Hd. cbn. auto.
Qed.

Lemma emitted_app w w' l :
  dispatched w' = dispatched w ++ l -> emitted w w' = l.
Proof.
  unfold emitted. intros ->.
  rewrite skipn_app, skipn_all, Nat.sub_diag. reflexivity.
Qed.

Lemma check_project_emitted env page gid pid data w :
  emitted w (snd (check_project env page gid pid data w)) =
  map (pair gid) (fst (cycle_of pid data (scrape_outcome page (driver w)))).
Proof.
  apply emitted_app.
  apply (check_project_effect env page gid pid data w).
Qed.

(** ** Looking a project up in the store *)

Lemma get_project_set_field pid f p m :
  get_project p (set_field pid f m) =
  option_map (fun d => if String.eqb p pid then f d else d) (get_project p m).
Proof.
  induction m as [|[k d] m IH]; cbn; [reflexivity|].
  destruct (String.eqb k pid) eqn:Hk; cbn.
  - apply String.eqb_eq in Hk. subst k.
    destruct (String.eqb pid p) eqn:Hp; cbn.
    + apply String.eqb_eq in Hp. subst p. now rewrite String.eqb_refl.
    + destruct (get_project p m); cbn; [|reflexivity].
      rewrite String.eqb_sym in Hp. now rewrite Hp.
  - destruct (String.eqb k p) eqn:Hp; cbn.
    + apply String.eqb_eq in Hp. subst p. now rewrite Hk.
    + apply IH.
Qed.

Lemma find_one_update_one gid upd g s :
  find_one g (update_one gid upd s) =
  if g =? gid then option_map (apply_update upd) (find_one g s)
  else find_one g s.
Proof.
  unfold find_one. induction s as [|c s IH]; cbn.
  - now destruct (g =? gid).
  - destruct (guild_id c =? gid) eqn:Hc; cbn.
    + apply Z.eqb_eq in Hc. rewrite Hc.
      rewrite (Z.eqb_sym gid g). destruct (g =? gid); reflexivity.
    + destruct (guild_id c =? g) eqn:Hg; cbn.
      * apply Z.eqb_eq in Hg. subst g. now rewrite Hc.
      * apply IH.
Qed.

Lemma find_one_app_miss g s c :
  guild_id c <> g -> find_one g (s ++ [c]) = find_one g s.
Proof.
  intros Hne. unfold find_one. induction s as [|c0 s IH]; cbn.
  - apply Z.eqb_neq in Hne. now rewrite Hne.
  - destruct (guild_id c0 =? g); [reflexivity|apply IH].
Qed.

Lemma find_one_guild g s c : find_one g s = Some c -> guild_id c = g.
Proof.
  unfold find_one. intros H. apply find_some in H.
  now apply Z.eqb_eq.
Qed.

Lemma find_one_app_new g s :
  find_one g s = None ->
  find_one g (s ++ [mkServerConfig g [] []]) = Some (mkServerConfig g [] []).
Proof.
  unfold find_one. induction s as [|c0 s IH]; cbn.
  - now rewrite Z.eqb_refl.
  - destruct (guild_id c0 =? g); [discriminate|apply IH].
Qed.

(** A field update changes the addressed project of the addressed guild
    and nothing else. *)
Lemma lookup_project_store_after gid upd g p s :
  is_field_update upd = true ->
  lookup_project g p (store_after gid upd s) =
  if g =? gid then option_map (apply_to upd p) (lookup_project g p s)
  else lookup_project g p s.
Proof.
  intros Hu. unfold lookup_project, store_after.
  destruct (find_one gid s) as [cfg|] eqn:Hf.
  - rewrite find_one_update_one.
    destruct (g =? gid) eqn:Hg; [|reflexivity].
    apply Z.eqb_eq in Hg. subst g. rewrite Hf. cbn.
    destruct upd as [pid v|pid l|pid nd]; cbn in *; try discriminate;
      rewrite get_project_set_field; reflexivity.
  - destruct (g =? gid) eqn:Hg.
    + apply Z.eqb_eq in Hg. subst g. rewrite Hf.
      now rewrite (find_one_app_new _ _ Hf).
    + apply Z.eqb_neq in Hg. rewrite find_one_app_miss; [reflexivity|].
      cbn. congruence.
Qed.

Lemma lookup_project_store_after_all gid upds g p s :
  forallb is_field_update upds = true ->
  lookup_project g p (store_after_all gid upds s) =
  if g =? gid then option_map (apply_all_to upds p) (lookup_project g p s)
  else lookup_project g p s.
Proof.
  revert s. induction upds as [|upd upds IH]; intros s Hu; cbn.
  - destruct (g =? gid); [|reflexivity].
    now destruct (lookup_project g p s).
  - cbn in Hu. apply andb_true_iff in Hu. destruct Hu as [Hu Hus].
    unfold store_after_all in *. cbn. rewrite (IH _ Hus).
    rewrite (lookup_project_store_after _ _ _ _ _ Hu).
    destruct (g =? gid); [|reflexivity].
    now destruct (lookup_project g p s).
Qed.

Lemma cycle_field_updates pid data cur :
  forallb is_field_update (snd (cycle pid data cur)) = true.
Proof.
  unfold cycle.
  destruct (truthy (initial_funding data)); cbn; [|reflexivity].
  destruct (initial_funding data) as [init|]; [|reflexivity].
  destruct (cur >? init); [|reflexivity].
  destruct ((cur >=? next_1m init) && (next_1m init >? init));
    destruct (crossed cur (thresholds data)); reflexivity.
Qed.

Lemma cycle_of_field_updates pid data r :
  forallb is_field_update (snd (cycle_of pid data r)) = true.
Proof.
  unfold cycle_of. destruct (usable_funding r); [|reflexivity].
  apply cycle_field_updates.
Qed.

(** The stored state of every project after [check_project]. *)
Lemma check_project_lookup env page gid pid data w g p :
  lookup_project g p (store (snd (check_project env page gid pid data w))) =
  if g =? gid
  then option_map
         (apply_all_to
            (snd (cycle_of pid data (scrape_outcome page (driver w)))) p)
         (lookup_project g p (store w))
  else lookup_project g p (store w).
Proof.
  destruct (check_project_effect env page gid pid data w) as (_ & _ & Hs).
  rewrite Hs. apply lookup_project_store_after_all.
  apply cycle_of_field_updates.
Qed.

(** ** The pricing cycle: milestones and thresholds *)

Lemma check_project_events env page gid pid data w :
  events w (snd (check_project env page gid pid data w)) =
  fst (cycle_of pid data (scrape_outcome page (driver w))).
Proof.
  unfold events. rewrite check_project_emitted, map_map. cbn.
  apply map_id.
Qed.

Lemma filter_milestone_thresholds u cur ttl l :
  filter is_milestone (threshold_events u cur ttl l) = [].
Proof.
  unfold threshold_events. induction (crossed cur l); cbn; auto.
Qed.

(** The state a project is left in by the updates of a cycle. *)
Lemma check_project_stored env page gid pid data w :
  lookup_project gid pid (store w) = Some data ->
  lookup_project gid pid
    (store (snd (check_project env page gid pid data w))) =
  Some (apply_all_to
          (snd (cycle_of pid data (scrape_outcome page (driver w)))) pid
          data).
Proof.
  intros H. rewrite check_project_lookup, Z.eqb_refl, H. reflexivity.
Qed.

(** C1. With [previousInitialFunding < currentFunding], one pricing cycle
    of a project dispatches at most one milestone notification; its value
    is [floor(previousInitialFunding / 1,000,000) * 1,000,000 + 1,000,000],
    and when it is dispatched the stored [initial_funding] becomes that
    value.  From 900,000 to 1,050,000 the milestone 1,000,000 is dispatched
    and stored. *)
Theorem milestone_once_per_cycle :
  forall env page gid pid data w prev cur t i,
    initial_funding data = Some prev ->
    prev < cur ->
    fst (get_project_data (url data) page w) = Ret (t, Some cur, i) ->
    lookup_project gid pid (store w) = Some data ->
    let w' := snd (check_project env page gid pid data w) in
    let milestones := filter is_milestone (events w w') in
    let next := prev / 1000000 * 1000000 + 1000000 in
    (List.length milestones <= 1)%nat
    /\ (forall m, In m milestones ->
          m = MilestoneEvent (title data) next cur (url data)
          /\ stored_initial_funding gid pid w' = Some next)
    /\ (prev = 900000 -> cur = 1050000 ->
          milestones = [MilestoneEvent (title data) 1000000 cur (url data)]
          /\ stored_initial_funding gid pid w' = Some 1000000).
Proof.
  intros env page gid pid data w prev cur t i Hi Hlt Hr Hl. cbn zeta.
  rewrite get_project_data_outcome in Hr.
  unfold stored_initial_funding.
  rewrite check_project_events, (check_project_stored _ _ _ _ _ _ Hl), Hr.
  unfold cycle_of, usable_funding, cycle. rewrite Hi.
  fold (next_1m prev).
  destruct (cur =? 0) eqn:Hc0.
  { cbn. repeat split; try lia; try contradiction.
    all: intros -> ->; discriminate. }
  cbn [truthy].
  destruct (prev =? 0) eqn:Hp0; cbn [negb].
  { cbn. repeat split; try lia; try contradiction.
    all: intros -> ->; discriminate. }
  assert (Hgt : (cur >? prev) = true) by (apply Z.gtb_lt; lia).
  rewrite Hgt.
  destruct ((cur >=? next_1m prev) && (next_1m prev >? prev)) eqn:Hm;
    cbn [fst snd app filter is_milestone];
    rewrite ?filter_milestone_thresholds; cbn [List.length In].
  - assert (Hst : initial_funding
              (apply_all_to
                 (SetInitialFunding pid (next_1m prev)
                  :: match crossed cur (thresholds data) with
                     | [] => []
                     | _ :: _ =>
                         [SetThresholds pid (remaining cur (thresholds data))]
                     end) pid data) = Some (next_1m prev)).
    { destruct (crossed cur (thresholds data)); cbn;
        rewrite ?String.eqb_refl; reflexivity. }
    rewrite Hst. split; [lia|]. split.
    + intros m [<-|[]]. split; reflexivity.
    + intros -> ->. split; reflexivity.
  - split; [lia|]. split; [contradiction|].
    intros -> ->. discriminate.
Qed.

Lemma milestone_once_per_cycle_witness :
  let data := sample_data (Some 900000) [] in
  let w := sample_world data in
  let w' := snd (check_project sample_env (sample_page 1050000) 1 "book"
                   data w) in
  filter is_milestone (events w w') =
    [MilestoneEvent "Book" 1000000 1050000 "https://tumblbug.com/book"]
  /\ stored_initial_funding 1 "book" w' = Some 1000000.
Proof.
  refine (proj2 (proj2
    (milestone_once_per_cycle sample_env (sample_page 1050000) 1 "book"
       (sample_data (Some 900000) []) (sample_world _) 900000 1050000
       (Some "Book") None _ _ _ _)) _ _); reflexivity.
Defined.

Lemma remaining_In cur l t :
  In t (remaining cur l) <-> In t l /\ cur < t.
Proof.
  unfold remaining, mem. rewrite filter_In.
  split; intros [Hin H]; split; trivial.
  - destruct (Z_lt_ge_dec cur t) as [|Hge]; [assumption|].
    apply negb_true_iff in H.
    assert (existsb (Z.eqb t) (crossed cur l) = true); [|congruence].
    apply existsb_exists. exists t. split; [|apply Z.eqb_refl].
    apply filter_In. split; [assumption|]. apply Z.geb_le. lia.
  - apply negb_true_iff. apply not_true_is_false. intros He.
    apply existsb_exists in He. destruct He as (x & Hx & Heq).
    apply Z.eqb_eq in Heq. subst x.
    apply filter_In in Hx. destruct Hx as [_ Hx].
    apply Z.geb_le in Hx. lia.
Qed.

Lemma remaining_none cur l : crossed cur l = [] -> remaining cur l = l.
Proof.
  unfold remaining. intros ->. cbn. induction l; cbn; congruence.
Qed.

Lemma cycle_after_cycle pid data cur :
  apply_all_to (snd (cycle pid data cur)) pid data = after_cycle data cur.
Proof.
  unfold cycle, after_cycle.
  destruct (truthy (initial_funding data)); cbn [negb].
  - destruct (initial_funding data) as [init|] eqn:Hi; [|reflexivity].
    destruct (cur >? init); [|reflexivity].
    destruct ((cur >=? next_1m init) && (next_1m init >? init));
      destruct (crossed cur (thresholds data)) eqn:Hc; cbn;
      rewrite ?String.eqb_refl; cbn; rewrite ?Hi;
      rewrite ?(remaining_none _ _ Hc); try reflexivity.
    now destruct data; cbn in *; subst.
  - cbn. now rewrite String.eqb_refl.
Qed.

(** A cycle whose read gives a funding other than 0. *)
Lemma check_project_reads env page gid pid data w cur t i :
  fst (get_project_data (url data) page w) = Ret (t, Some cur, i) ->
  cur <> 0 ->
  let w' := snd (check_project env page gid pid data w) in
  events w w' = fst (cycle pid data cur)
  /\ (lookup_project gid pid (store w) = Some data ->
      lookup_project gid pid (store w') = Some (after_cycle data cur)).
Proof.
  intros Hr Hc. cbn zeta. rewrite get_project_data_outcome in Hr.
  apply Z.eqb_neq in Hc. split.
  - rewrite check_project_events, Hr. unfold cycle_of, usable_funding.
    now rewrite Hc.
  - intros Hl. rewrite (check_project_stored _ _ _ _ _ _ Hl), Hr.
    unfold cycle_of, usable_funding. rewrite Hc.
    now rewrite cycle_after_cycle.
Qed.

(** A cycle whose read gives no funding, or 0, or raises. *)
Lemma check_project_skips env page gid pid data w :
  usable_funding (fst (get_project_data (url data) page w)) = None ->
  let w' := snd (check_project env page gid pid data w) in
  events w w' = [] /\ store w' = store w.
Proof.
  intros Hr. cbn zeta. rewrite get_project_data_outcome in Hr. split.
  - rewrite check_project_events. unfold cycle_of. now rewrite Hr.
  - destruct (check_project_effect env page gid pid data w) as (_ & _ & Hs).
    rewrite Hs. unfold cycle_of. now rewrite Hr.
Qed.

Lemma threshold_events_In u cur ttl l n :
  In n (threshold_events u cur ttl l) <->
  exists t, n = ThresholdEvent ttl t cur u /\ In t l /\ t <= cur.
Proof.
  unfold threshold_events, crossed. rewrite in_map_iff. split.
  - intros (t & <- & Ht). apply filter_In in Ht. destruct Ht as [Hin Hge].
    apply Z.geb_le in Hge. eauto.
  - intros (t & -> & Hin & Hle). exists t. split; [reflexivity|].
    apply filter_In. split; [assumption|]. now apply Z.geb_le.
Qed.

(** C2, as the code has it.  The custom thresholds are evaluated inside
    the branch [current_funding > initial_funding]: there every threshold
    the funding has reached is notified and dropped from the stored list,
    whether or not a milestone is due; when the funding has not risen
    above [initial_funding], no threshold is notified and the list stays. *)
Theorem thresholds_fire_when_funding_rises :
  forall env page gid pid data w prev cur ttl i,
    initial_funding data = Some prev ->
    prev <> 0 -> cur <> 0 ->
    fst (get_project_data (url data) page w) = Ret (ttl, Some cur, i) ->
    lookup_project gid pid (store w) = Some data ->
    let w' := snd (check_project env page gid pid data w) in
    (prev < cur ->
       (forall t, In t (thresholds data) -> t <= cur ->
          In (ThresholdEvent (title data) t cur (url data)) (events w w')
          /\ ~ In t (stored_thresholds gid pid w'))
       /\ (forall t, In t (stored_thresholds gid pid w') <->
                     In t (thresholds data) /\ cur < t))
    /\ (cur <= prev ->
          filter is_threshold_event (events w w') = []
          /\ stored_thresholds gid pid w' = thresholds data).
Proof.
  intros env page gid pid data w prev cur ttl i Hi Hp Hc Hr Hl. cbn zeta.
  destruct (check_project_reads env page gid pid data w cur ttl i Hr Hc)
    as [He Hs].
  specialize (Hs Hl). unfold stored_thresholds. rewrite He, Hs.
  unfold cycle, after_cycle. rewrite Hi. cbn [truthy].
  apply Z.eqb_neq in Hp. rewrite Hp. cbn [negb].
  split.
  - intros Hlt.
    assert (Hgt : (cur >? prev) = true) by (apply Z.gtb_lt; lia).
    rewrite Hgt. cbn [thresholds fst]. split.
    + intros t Hin Hle. split.
      * apply in_or_app. right. apply threshold_events_In. eauto.
      * rewrite remaining_In. lia.
    + intros t. apply remaining_In.
  - intros Hle.
    assert (Hgt : (cur >? prev) = false)
      by (rewrite Z.gtb_ltb; apply Z.ltb_ge; lia).
    rewrite Hgt. split; reflexivity.
Qed.

Lemma thresholds_fire_when_funding_rises_witness :
  let data := sample_data (Some 1000000) [2000000; 5000000] in
  let w := sample_world data in
  let w' := snd (check_project sample_env (sample_page 3000000) 1 "book"
                   data w) in
  In (ThresholdEvent "Book" 2000000 3000000 "https://tumblbug.com/book")
    (events w w')
  /\ ~ In 2000000 (stored_thresholds 1 "book" w').
Proof.
  refine (proj1 (proj1
    (thresholds_fire_when_funding_rises sample_env (sample_page 3000000) 1
       "book" (sample_data (Some 1000000) [2000000; 5000000])
       (sample_world _) 1000000 3000000 (Some "Book") None _ _ _ _ _) _)
    2000000 _ _); cbn; try reflexivity; try lia; try discriminate.
Defined.

(** C2 as stated fails: a project stored with [initial_funding] 2,000,000
    and the threshold 1,500,000, read at 2,000,000.  The threshold is
    reached, yet nothing is notified and the threshold stays. *)
Lemma thresholds_not_independent_counterexample :
  let data := sample_data (Some 2000000) [1500000] in
  let w := sample_world data in
  let w' := snd (check_project sample_env (sample_page 2000000) 1 "book"
                   data w) in
  fst (get_project_data (url data) (sample_page 2000000) w)
    = Ret (Some "Book", Some 2000000, None)
  /\ In 1500000 (thresholds data) /\ 1500000 <= 2000000
  /\ events w w' = []
  /\ stored_thresholds 1 "book" w' = [1500000].
Proof.
  cbn zeta. repeat split; try reflexivity.
  - now left.
  - discriminate.
Qed.

(** C10. When [initial_funding] is unset, the cycle of the first
    successful read stores the current funding as [initial_funding],
    dispatches the monitoring-started notification and nothing else: no
    threshold is notified or removed, whatever the funding. *)
Theorem first_read_only_starts_monitoring :
  forall env page gid pid data w cur ttl i,
    truthy (initial_funding data) = false ->
    fst (get_project_data (url data) page w) = Ret (ttl, Some cur, i) ->
    cur <> 0 ->
    lookup_project gid pid (store w) = Some data ->
    let w' := snd (check_project env page gid pid data w) in
    emitted w w' = [(gid, MonitoringStart (url data) cur)]
    /\ stored_initial_funding gid pid w' = Some cur
    /\ stored_thresholds gid pid w' = thresholds data.
Proof.
  intros env page gid pid data w cur ttl i Hi Hr Hc Hl. cbn zeta.
  destruct (check_project_reads env page gid pid data w cur ttl i Hr Hc)
    as [_ Hs].
  specialize (Hs Hl).
  unfold stored_initial_funding, stored_thresholds. rewrite Hs.
  rewrite check_project_emitted.
  rewrite get_project_data_outcome in Hr. rewrite Hr.
  unfold cycle_of, usable_funding, cycle, after_cycle.
  apply Z.eqb_neq in Hc. rewrite Hc, Hi. cbn. auto.
Qed.

Lemma first_read_only_starts_monitoring_witness :
  let data := sample_data None [2000000; 5000000] in
  let w := sample_world data in
  let w' := snd (check_project sample_env (sample_page 3000000) 1 "book"
                   data w) in
  emitted w w' = [(1, MonitoringStart "https://tumblbug.com/book" 3000000)]
  /\ stored_initial_funding 1 "book" w' = Some 3000000
  /\ stored_thresholds 1 "book" w' = [2000000; 5000000].
Proof.
  refine (first_read_only_starts_monitoring sample_env (sample_page 3000000)
            1 "book" (sample_data None [2000000; 5000000])
            (sample_world _) 3000000 (Some "Book") None _ _ _ _);
    try reflexivity; discriminate.
Defined.

(** ** Running the cycle again *)

Lemma next_1m_next x : next_1m (next_1m x) = next_1m x + 1000000.
Proof.
  unfold next_1m.
  replace (x / 1000000 * 1000000 + 1000000)
    with ((x / 1000000 + 1) * 1000000) by ring.
  rewrite Z.div_mul by discriminate. ring.
Qed.

Lemma next_1m_above x : x < next_1m x.
Proof.
  unfold next_1m.
  pose proof (Z.mul_div_le x 1000000 ltac:(lia)).
  pose proof (Z.mod_pos_bound x 1000000 ltac:(lia)).
  pose proof (Z.div_mod x 1000000 ltac:(lia)). lia.
Qed.

Lemma crossed_remaining cur l : crossed cur (remaining cur l) = [].
Proof.
  unfold crossed at 1.
  assert (H : forall t, In t (remaining cur l) -> (cur >=? t) = false).
  { intros t Ht. apply remaining_In in Ht.
    rewrite Z.geb_leb. apply Z.leb_gt. lia. }
  induction (remaining cur l) as [|t r IH]; cbn; [reflexivity|].
  rewrite (H t (or_introl eq_refl)). apply IH.
  intros t' Ht'. apply H. now right.
Qed.

Lemma threshold_events_remaining u cur ttl l :
  threshold_events u cur ttl (remaining cur l) = [].
Proof. unfold threshold_events. now rewrite crossed_remaining. Qed.

Lemma remaining_remaining cur l :
  remaining cur (remaining cur l) = remaining cur l.
Proof. apply remaining_none, crossed_remaining. Qed.

(** The decisions of a second cycle at the same funding, from the state
    the first one left. *)
Lemma cycle_again pid data cur :
  (forall prev, initial_funding data = Some prev -> 0 <= prev) ->
  cur <> 0 ->
  let ev1 := fst (cycle pid data cur) in
  let data1 := after_cycle data cur in
  let ev2 := fst (cycle pid data1 cur) in
  thresholds (after_cycle data1 cur) = thresholds data1
  /\ ((filter is_milestone ev1 = [] /\ ev2 = [])
      \/ exists init,
           filter is_milestone ev1 =
             [MilestoneEvent (title data) (next_1m init) cur (url data)]
           /\ ev2 =
                if next_1m init + 1000000 <=? cur
                then [MilestoneEvent (title data) (next_1m init + 1000000)
                        cur (url data)]
                else []).
Proof.
  intros Hnn Hc. cbn zeta. apply Z.eqb_neq in Hc.
  unfold cycle, after_cycle.
  destruct (truthy (initial_funding data)) eqn:Hi; cbn [negb].
  - destruct (initial_funding data) as [init|] eqn:Hinit; [|discriminate].
    specialize (Hnn init eq_refl).
    destruct (cur >? init) eqn:Hgt.
    + pose proof (next_1m_above init) as Hab.
      destruct ((cur >=? next_1m init) && (next_1m init >? init)) eqn:Hm;
        cbn [initial_funding thresholds url title truthy negb fst app
             filter is_milestone];
        rewrite ?filter_milestone_thresholds.
      * assert (Hn0 : (next_1m init =? 0) = false) by (apply Z.eqb_neq; lia).
        rewrite Hn0. cbn [negb]. rewrite next_1m_next.
        apply andb_true_iff in Hm. destruct Hm as [Hge _].
        apply Z.geb_le in Hge.
        assert (Hn : (next_1m init + 1000000 >? next_1m init) = true)
          by (apply Z.gtb_lt; lia).
        rewrite Hn, andb_true_r.
        rewrite threshold_events_remaining, remaining_remaining.
        destruct (cur >? next_1m init) eqn:Hgt2.
        -- split; [reflexivity|]. right. exists init. split; [reflexivity|].
           rewrite Z.geb_leb.
           destruct (next_1m init + 1000000 <=? cur); reflexivity.
        -- split; [reflexivity|]. right. exists init. split; [reflexivity|].
           assert (Hle : (next_1m init + 1000000 <=? cur) = false).
           { apply Z.leb_gt. rewrite Z.gtb_ltb in Hgt2.
             apply Z.ltb_ge in Hgt2. lia. }
           now rewrite Hle.
      * cbn in Hi. rewrite Hi. cbn [negb]. rewrite Hgt, Hm.
        cbn [fst app].
        rewrite threshold_events_remaining, remaining_remaining.
        split; [reflexivity|]. now left.
    + rewrite Hinit, Hi. cbn [negb]. rewrite Hgt.
      split; [reflexivity|]. now left.
  - cbn [initial_funding thresholds truthy]. rewrite Hc. cbn [negb].
    assert (Hgt : (cur >? cur) = false)
      by (rewrite Z.gtb_ltb; apply Z.ltb_irrefl).
    rewrite Hgt. cbn. split; [reflexivity|]. now left.
Qed.

(** C4, as the code has it.  After a cycle, a second cycle that reads the
    same funding notifies no threshold and leaves the thresholds as they
    are.  It dispatches nothing at all when the first cycle dispatched no
    milestone; when the first cycle dispatched the milestone [M], the
    second dispatches the milestone [M + 1,000,000] if the funding has
    reached it too, and nothing otherwise. *)
Theorem rerun_after_cycle :
  forall env page page2 gid pid data data1 w cur t i t2 i2,
    (forall prev, initial_funding data = Some prev -> 0 <= prev) ->
    lookup_project gid pid (store w) = Some data ->
    fst (get_project_data (url data) page w) = Ret (t, Some cur, i) ->
    let w1 := snd (check_project env page gid pid data w) in
    lookup_project gid pid (store w1) = Some data1 ->
    fst (get_project_data (url data1) page2 w1) = Ret (t2, Some cur, i2) ->
    let w2 := snd (check_project env page2 gid pid data1 w1) in
    filter is_threshold_event (events w1 w2) = []
    /\ stored_thresholds gid pid w2 = stored_thresholds gid pid w1
    /\ (filter is_milestone (events w w1) = [] -> events w1 w2 = [])
    /\ (forall M,
          In (MilestoneEvent (title data) M cur (url data)) (events w w1) ->
          events w1 w2 =
            if M + 1000000 <=? cur
            then [MilestoneEvent (title data) (M + 1000000) cur (url data)]
            else []).
Proof.
  intros env page page2 gid pid data data1 w cur t i t2 i2 Hnn Hl Hr.
  cbn zeta. intros Hl1 Hr2.
  destruct (Z.eq_dec cur 0) as [Hc|Hc].
  - subst cur.
    destruct (check_project_skips env page gid pid data w) as [He Hs].
    { rewrite Hr. reflexivity. }
    destruct (check_project_skips env page2 gid pid data1
                (snd (check_project env page gid pid data w))) as [He2 Hs2].
    { rewrite Hr2. reflexivity. }
    unfold stored_thresholds. rewrite He, He2, Hs2. cbn.
    repeat split; auto. intros M [].
  - destruct (check_project_reads env page gid pid data w cur t i Hr Hc)
      as [He Hs].
    specialize (Hs Hl). rewrite Hs in Hl1. inversion Hl1. subst data1.
    destruct (check_project_reads env page2 gid pid (after_cycle data cur)
                (snd (check_project env page gid pid data w)) cur t2 i2
                Hr2 Hc) as [He2 Hs2].
    specialize (Hs2 Hs).
    unfold stored_thresholds. rewrite He, He2, Hs, Hs2.
    destruct (cycle_again pid data cur Hnn Hc) as [Hth Hev].
    cbn zeta in Hev. rewrite Hth.
    destruct Hev as [[Hm1 Hm2]|(init & Hm1 & Hm2)]; rewrite Hm2.
    + repeat split; auto.
      intros M HM.
      assert (Hin : In (MilestoneEvent (title data) M cur (url data))
                      (filter is_milestone (fst (cycle pid data cur)))).
      { apply filter_In. now split. }
      rewrite Hm1 in Hin. destruct Hin.
    + repeat split.
      * destruct (next_1m init + 1000000 <=? cur); reflexivity.
      * rewrite Hm1. discriminate.
      * intros M HM.
        assert (Hin : In (MilestoneEvent (title data) M cur (url data))
                        (filter is_milestone (fst (cycle pid data cur)))).
        { apply filter_In. now split. }
        rewrite Hm1 in Hin. destruct Hin as [Heq|[]].
        inversion Heq. reflexivity.
Qed.

Lemma rerun_after_cycle_witness :
  let data := sample_data (Some 900000) [1000000; 5000000] in
  let w := sample_world data in
  let w1 := snd (check_project sample_env (sample_page 1050000) 1 "book"
                   data w) in
  let data1 := sample_data (Some 1000000) [5000000] in
  let w2 := snd (check_project sample_env (sample_page 1050000) 1 "book"
                   data1 w1) in
  events w1 w2 = [].
Proof.
  refine (proj2 (proj2 (proj2
    (rerun_after_cycle sample_env (sample_page 1050000) (sample_page 1050000)
       1 "book" (sample_data (Some 900000) [1000000; 5000000])
       (sample_data (Some 1000000) [5000000]) (sample_world _) 1050000
       (Some "Book") None (Some "Book") None _ _ _ _ _))) 1000000 _).
  - intros prev H. inversion H. lia.
  - reflexivity.
  - reflexivity.
  - reflexivity.
  - reflexivity.
  - vm_compute. now left.
Defined.

(** C4 as stated fails: from 900,000 the funding is read at 3,000,000.
    The first cycle dispatches the milestone 1,000,000 and stores it; the
    second cycle, at the same funding, dispatches the milestone 2,000,000. *)
Lemma rerun_emits_next_milestone_counterexample :
  let data := sample_data (Some 900000) [] in
  let w := sample_world data in
  let w1 := snd (check_project sample_env (sample_page 3000000) 1 "book"
                   data w) in
  let data1 := sample_data (Some 1000000) [] in
  let w2 := snd (check_project sample_env (sample_page 3000000) 1 "book"
                   data1 w1) in
  events w w1 =
    [MilestoneEvent "Book" 1000000 3000000 "https://tumblbug.com/book"]
  /\ lookup_project 1 "book" (store w1) = Some data1
  /\ events w1 w2 =
       [MilestoneEvent "Book" 2000000 3000000 "https://tumblbug.com/book"].
Proof. cbn zeta. repeat split; reflexivity. Qed.

(** ** The threshold list stays sorted and free of duplicates *)

Lemma sorted_unique_strict l : sorted_unique l <-> StronglySorted Z.lt l.
Proof.
  unfold sorted_unique. split.
  - intros [Hs Hn]. apply Sorted_StronglySorted in Hs.
    2:{ intros x y z. apply Z.le_trans. }
    induction l as [|a l IH]; constructor.
    + apply IH; [now inversion Hs | now inversion Hn].
    + inversion Hs as [|? ? _ Hall]. inversion Hn as [|? ? Hnotin _]. subst.
      rewrite Forall_forall in *. intros x Hx.
      specialize (Hall x Hx).
      assert (x <> a) by (intros ->; contradiction). lia.
  - intros Hs. split.
    + apply StronglySorted_Sorted.
      induction Hs as [|a l _ IH Hall]; constructor; [assumption|].
      eapply Forall_impl; [|exact Hall]. intros x. apply Z.lt_le_incl.
    + induction Hs as [|a l _ IH Hall]; constructor; [|assumption].
      rewrite Forall_forall in Hall. intros Hin.
      specialize (Hall a Hin). lia.
Qed.

Lemma strict_filter (f : Z -> bool) l :
  StronglySorted Z.lt l -> StronglySorted Z.lt (filter f l).
Proof.
  induction 1 as [|a l _ IH Hall]; cbn; [constructor|].
  destruct (f a); [|assumption]. constructor; [assumption|].
  rewrite Forall_forall in *. intros x Hx. apply Hall.
  now apply filter_In in Hx.
Qed.

Lemma insert_sorted_In x l y :
  In y (insert_sorted x l) <-> y = x \/ In y l.
Proof.
  induction l as [|a l IH]; cbn.
  - intuition.
  - destruct (x <=? a); cbn; rewrite ?IH; intuition.
Qed.

Lemma insert_sorted_strict x l :
  StronglySorted Z.lt l -> ~ In x l -> StronglySorted Z.lt (insert_sorted x l).
Proof.
  induction 1 as [|a l Hs IH Hall]; intros Hx; cbn.
  - repeat constructor.
  - assert (x <> a) by (intros ->; apply Hx; now left).
    destruct (x <=? a) eqn:Hle.
    + apply Z.leb_le in Hle. constructor; [now constructor|].
      constructor; [lia|]. eapply Forall_impl; [|exact Hall].
      intros y. cbn. lia.
    + apply Z.leb_gt in Hle.
      constructor; [apply IH; intros Hin; apply Hx; now right|].
      rewrite Forall_forall in *. intros y Hy.
      apply insert_sorted_In in Hy. destruct Hy as [->|Hy]; [lia|auto].
Qed.

Lemma sort_In l y : In y (sort l) <-> In y l.
Proof.
  induction l as [|a l IH]; cbn; [tauto|].
  rewrite insert_sorted_In, IH. intuition.
Qed.

Lemma sort_strict l : NoDup l -> StronglySorted Z.lt (sort l).
Proof.
  induction 1 as [|a l Hnotin _ IH]; cbn; [constructor|].
  apply insert_sorted_strict; [assumption|]. now rewrite sort_In.
Qed.

Lemma mem_In t l : mem t l = true <-> In t l.
Proof.
  unfold mem. rewrite existsb_exists. split.
  - intros (x & Hx & Heq). apply Z.eqb_eq in Heq. now subst.
  - intros H. exists t. split; [assumption|apply Z.eqb_refl].
Qed.

(** The list that [threshold_add] stores. *)
Lemma sort_added_sorted_unique l amount :
  sorted_unique l -> mem amount l = false ->
  sorted_unique (sort (l ++ [amount])).
Proof.
  intros [_ Hn] Hm. apply sorted_unique_strict, sort_strict.
  apply NoDup_app; [assumption|repeat constructor; auto|].
  intros x Hx [<-|[]].
  apply mem_In in Hx. congruence.
Qed.

Lemma remaining_sorted_unique cur l :
  sorted_unique l -> sorted_unique (remaining cur l).
Proof.
  rewrite !sorted_unique_strict. apply strict_filter.
Qed.

Lemma set_field_sorted pid f m :
  (forall d, sorted_unique (thresholds d) -> sorted_unique (thresholds (f d))) ->
  Forall (fun e => sorted_unique (thresholds (snd e))) m ->
  Forall (fun e => sorted_unique (thresholds (snd e))) (set_field pid f m).
Proof.
  intros Hf. induction 1 as [|[k d] m Hd Hm IH]; cbn; [constructor|].
  destruct (String.eqb k pid); constructor; cbn in *; auto.
Qed.

Lemma set_project_sorted pid nd m :
  sorted_unique (thresholds nd) ->
  Forall (fun e => sorted_unique (thresholds (snd e))) m ->
  Forall (fun e => sorted_unique (thresholds (snd e))) (set_project pid nd m).
Proof.
  intros Hnd. induction 1 as [|[k d] m Hd Hm IH]; cbn.
  - constructor; [exact Hnd|constructor].
  - destruct (String.eqb k pid); constructor; cbn in *; auto.
Qed.

Lemma apply_update_sorted upd c :
  update_sorted upd -> config_sorted c -> config_sorted (apply_update upd c).
Proof.
  unfold config_sorted. intros Hu Hc.
  destruct upd as [pid v|pid l|pid nd]; cbn in *.
  - apply set_field_sorted; auto.
  - apply set_field_sorted; auto.
  - apply set_project_sorted; auto.
Qed.

Lemma update_one_sorted gid upd s :
  update_sorted upd -> store_sorted s -> store_sorted (update_one gid upd s).
Proof.
  intros Hu. induction 1 as [|c s Hc Hs IH]; cbn; [constructor|].
  destruct (guild_id c =? gid); constructor; auto.
  now apply apply_update_sorted.
Qed.

Lemma store_after_sorted gid upd s :
  update_sorted upd -> store_sorted s -> store_sorted (store_after gid upd s).
Proof.
  intros Hu Hs. unfold store_after. destruct (find_one gid s).
  - now apply update_one_sorted.
  - apply Forall_app. split; [assumption|]. repeat constructor.
Qed.

Lemma store_after_all_sorted gid upds s :
  Forall update_sorted upds -> store_sorted s ->
  store_sorted (store_after_all gid upds s).
Proof.
  intros Hu. revert s. induction Hu as [|upd upds H _ IH]; intros s Hs; cbn.
  - assumption.
  - apply IH. now apply store_after_sorted.
Qed.

Lemma cycle_of_sorted pid data r :
  sorted_unique (thresholds data) ->
  Forall update_sorted (snd (cycle_of pid data r)).
Proof.
  intros Hd. unfold cycle_of. destruct (usable_funding r) as [cur|];
    [|constructor].
  unfold cycle. destruct (truthy (initial_funding data)); cbn [negb].
  - destruct (initial_funding data) as [init|]; [|constructor].
    destruct (cur >? init); [|constructor]. cbn [snd].
    apply Forall_app. split.
    + destruct ((cur >=? next_1m init) && (next_1m init >? init));
        repeat constructor.
    + destruct (crossed cur (thresholds data)); constructor;
        [now apply remaining_sorted_unique|constructor].
  - repeat constructor.
Qed.

Lemma check_project_sorted env page gid pid data w :
  sorted_unique (thresholds data) -> store_sorted (store w) ->
  store_sorted (store (snd (check_project env page gid pid data w))).
Proof.
  intros Hd Hs.
  destruct (check_project_effect env page gid pid data w) as (_ & _ & ->).
  apply store_after_all_sorted; [|assumption]. now apply cycle_of_sorted.
Qed.

(** A loop whose body, on the members of the list, always returns and
    keeps an invariant does so too. *)
Lemma for_each_inv {A} (P : World -> Prop) (body : A -> M unit)
    (l : list A) :
  (forall x, In x l ->
     forall w, P w -> fst (body x w) = Ret tt /\ P (snd (body x w))) ->
  forall w, P w ->
    fst (for_each l body w) = Ret tt /\ P (snd (for_each l body w)).
Proof.
  induction l as [|x l IH]; intros Hbody w Hw; cbn.
  - now split.
  - destruct (Hbody x (or_introl eq_refl) w Hw) as [Hr HP].
    rewrite (bind_run _ _ _ _ Hr). apply IH; [|assumption].
    intros y Hy. apply Hbody. now right.
Qed.

Lemma check_project_returns env page gid pid data w :
  fst (check_project env page gid pid data w) = Ret tt.
Proof. apply (check_project_effect env page gid pid data w). Qed.

(** A whole tick keeps every threshold list sorted and duplicate-free. *)
Lemma check_prices_sorted env browse w :
  store_sorted (store w) ->
  fst (check_prices env browse w) = Ret tt
  /\ store_sorted (store (snd (check_prices env browse w))).
Proof.
  intros Hs. unfold check_prices, bind at 1, gets.
  apply (for_each_inv (fun w => store_sorted (store w))); [|assumption].
  intros c Hc w1 Hw1.
  apply (for_each_inv (fun w => store_sorted (store w))); [|assumption].
  intros [p d] Hpd w2 Hw2. cbn [fst snd]. split.
  - apply check_project_returns.
  - apply check_project_sorted; [|assumption].
    unfold store_sorted, config_sorted in Hs.
    rewrite Forall_forall in Hs. specialize (Hs c Hc).
    rewrite Forall_forall in Hs. apply (Hs (p, d) Hpd).
Qed.

Lemma threshold_add_sorted gid project_title amount w :
  store_sorted (store w) ->
  store_sorted (store (snd (threshold_add gid project_title amount w))).
Proof.
  intros Hs. unfold threshold_add, bind at 1, gets.
  destruct (find_one gid (store w)) as [cfg|] eqn:Hf; [|assumption].
  destruct (existsb _ (monitored_urls cfg)); cbn [negb]; [|assumption].
  destruct (find _ (monitored_urls cfg)) as [[project_id data]|] eqn:Hfind;
    [|assumption].
  destruct (mem amount (thresholds data)) eqn:Hm; [assumption|].
  cbn. apply update_one_sorted; [|assumption]. cbn.
  apply sort_added_sorted_unique; [|assumption].
  apply find_some in Hfind. destruct Hfind as [Hin _].
  unfold find_one in Hf. apply find_some in Hf. destruct Hf as [Hc _].
  unfold store_sorted, config_sorted in Hs.
  rewrite Forall_forall in Hs. specialize (Hs cfg Hc).
  rewrite Forall_forall in Hs. apply (Hs _ Hin).
Qed.

Lemma apply_all_to_last_thresholds upds pid l d :
  thresholds (apply_all_to (upds ++ [SetThresholds pid l]) pid d) = l.
Proof.
  unfold apply_all_to. rewrite fold_left_app. cbn.
  now rewrite String.eqb_refl.
Qed.

(** A threshold that was notified is no longer stored. *)
Lemma notified_threshold_removed env page gid pid data w ttl t c u :
  let w' := snd (check_project env page gid pid data w) in
  In (ThresholdEvent ttl t c u) (events w w') ->
  ~ In t (stored_thresholds gid pid w').
Proof.
  cbn zeta. rewrite check_project_events. unfold stored_thresholds.
  rewrite check_project_lookup, Z.eqb_refl.
  unfold cycle_of.
  destruct (usable_funding (scrape_outcome page (driver w))) as [cur|];
    [|intros []].
  unfold cycle. destruct (truthy (initial_funding data)); cbn [negb].
  2:{ cbn. intros [H|[]]. discriminate. }
  destruct (initial_funding data) as [init|]; [|intros []].
  destruct (cur >? init); [|intros []].
  cbn [fst snd]. intros Hin. apply in_app_or in Hin.
  destruct Hin as [Hin|Hin].
  { destruct ((cur >=? next_1m init) && (next_1m init >? init));
      cbn in Hin; [destruct Hin as [H|[]]; discriminate|contradiction]. }
  apply threshold_events_In in Hin.
  destruct Hin as (t' & Heq & Hin & Hle). inversion Heq. subst t' c u ttl.
  destruct (lookup_project gid pid (store w)) as [d0|]; cbn; [|tauto].
  destruct (crossed cur (thresholds data)) eqn:Hc.
  - assert (Hx : In t (crossed cur (thresholds data))).
    { apply filter_In. split; [assumption|]. now apply Z.geb_le. }
    rewrite Hc in Hx. destruct Hx.
  - rewrite apply_all_to_last_thresholds, remaining_In. lia.
Qed.

(** C3. A store whose threshold lists are all sorted ascending and free
    of duplicates stays so through a pricing cycle (one project, or the
    whole tick) and through the threshold-add command; and a threshold
    for which a notification was dispatched is absent from the list the
    cycle leaves. *)
Theorem thresholds_stay_sorted_unique :
  forall env w,
    store_sorted (store w) ->
    (forall page gid pid data,
       sorted_unique (thresholds data) ->
       let w' := snd (check_project env page gid pid data w) in
       store_sorted (store w')
       /\ forall ttl t c u,
            In (ThresholdEvent ttl t c u) (events w w') ->
            ~ In t (stored_thresholds gid pid w'))
    /\ (forall browse,
          store_sorted (store (snd (check_prices env browse w))))
    /\ (forall gid project_title amount,
          store_sorted
            (store (snd (threshold_add gid project_title amount w)))).
Proof.
  intros env w Hs. repeat split.
  - now apply check_project_sorted.
  - intros ttl t c u. apply notified_threshold_removed.
  - intros browse. now apply check_prices_sorted.
  - intros gid project_title amount. now apply threshold_add_sorted.
Qed.

Lemma thresholds_stay_sorted_unique_witness :
  let w := sample_world (sample_data (Some 1000000) [2000000; 5000000]) in
  store_sorted (store (snd (threshold_add 1 "Book" 3000000 w))).
Proof.
  refine (proj2 (proj2
    (thresholds_stay_sorted_unique sample_env (sample_world _) _))
    1 "Book" 3000000).
  repeat constructor; cbn; lia.
Defined.

(** ** Funding 0 and failed reads *)

(** A cycle that gets no usable funding leaves everything but the
    session and the log as it was. *)
Lemma check_project_skips_all env page gid pid data w :
  usable_funding (fst (get_project_data (url data) page w)) = None ->
  let w' := snd (check_project env page gid pid data w) in
  fst (check_project env page gid pid data w) = Ret tt
  /\ store w' = store w /\ dispatched w' = dispatched w
  /\ outbox w' = outbox w.
Proof.
  intros Hr. cbn zeta.
  pose proof (get_project_data_frame (url data) page w) as Hf.
  cbn zeta in Hf. destruct Hf as (Hs & Hd & Ho).
  unfold check_project, try_except, bind, ret.
  destruct (get_project_data (url data) page w) as [o w1].
  cbn [fst snd] in *. unfold usable_funding in Hr.
  destruct o as [[[t cf] i]|e]; [|cbn; auto].
  destruct cf as [n|]; [|cbn; auto].
  destruct (n =? 0) eqn:Hn; [|discriminate].
  cbn [truthy]. rewrite Hn. cbn. auto.
Qed.

Lemma split_not_empty sep s : split sep s <> [].
Proof.
  destruct s as [|c s]; cbn; [discriminate|].
  destruct (Ascii.eqb c sep); [discriminate|].
  destruct (split sep s); discriminate.
Qed.

(** Once the URL is parsed, [extract_project_id] returns the first part
    of the stripped path. *)
Lemma extract_project_id_parsed u parsed_url :
  urlparse u = Ret parsed_url ->
  extract_project_id u =
  Ret (hd EmptyString (split slash (strip slash (path parsed_url)))).
Proof.
  intros H. unfold extract_project_id. rewrite H.
  pose proof (split_not_empty slash (strip slash (path parsed_url))).
  destruct (split slash (strip slash (path parsed_url)));
    [contradiction|reflexivity].
Qed.

Lemma startswith_app p u :
  startswith p u = true -> exists rest, u = (p ++ rest)%string.
Proof.
  revert u. induction p as [|a p IH]; intros u H; cbn in *.
  - now exists u.
  - destruct u as [|b u]; [discriminate|].
    apply andb_true_iff in H. destruct H as [Hab H].
    apply Ascii.eqb_eq in Hab. subst b.
    destruct (IH u H) as [rest ->]. now exists rest.
Qed.

(** A URL that passes the prefix check of [project_add] is parsed: its
    network location is [tumblbug.com]. *)
Lemma tumblbug_url_parses u :
  startswith "https://tumblbug.com/" u = true ->
  exists project_id, extract_project_id u = Ret project_id.
Proof.
  intros H. apply startswith_app in H. destruct H as [rest ->].
  eexists. apply extract_project_id_parsed.
  unfold urlparse. cbn. reflexivity.
Qed.

(** C8. A read that returns the funding 0 is handled exactly as a read
    that returns no funding: the scheduler skips the project (nothing is
    stored, dispatched or sent), and the project-add command answers that
    the fetch failed and stores nothing. *)
Theorem zero_funding_treated_as_absent :
  forall env page gid pid data w u ttl i f,
    f = None \/ f = Some 0 ->
    (fst (get_project_data (url data) page w) = Ret (ttl, f, i) ->
     let w' := snd (check_project env page gid pid data w) in
     fst (check_project env page gid pid data w) = Ret tt
     /\ store w' = store w /\ emitted w w' = [] /\ outbox w' = outbox w)
    /\ (startswith "https://tumblbug.com/" u = true ->
        fst (get_project_data u page w) = Ret (ttl, f, i) ->
        fst (project_add page gid u w) = Ret FetchFailed
        /\ store (snd (project_add page gid u w)) = store w).
Proof.
  intros env page gid pid data w u ttl i f Hf.
  assert (Ht : truthy f = false) by (destruct Hf as [->| ->]; reflexivity).
  split.
  - intros Hr. cbn zeta.
    destruct (check_project_skips_all env page gid pid data w)
      as (H1 & H2 & H3 & H4).
    { rewrite Hr. destruct Hf as [->| ->]; reflexivity. }
    repeat split; auto. apply emitted_app. now rewrite app_nil_r.
  - intros Hu Hr.
    destruct (tumblbug_url_parses u Hu) as [project_id Hid].
    pose proof (get_project_data_frame u page w) as Hfr.
    cbn zeta in Hfr. destruct Hfr as (Hs & _).
    unfold project_add. rewrite Hu. cbn [negb].
    unfold bind, try_except, lift, ret. rewrite Hid.
    destruct (get_project_data u page w) as [o w1].
    cbn [fst snd] in *. subst o. rewrite Ht. cbn [negb].
    rewrite orb_true_r. cbn. auto.
Qed.

Lemma zero_funding_treated_as_absent_witness :
  let data := sample_data (Some 900000) [500000] in
  let w := sample_world data in
  store (snd (check_project sample_env (sample_page 0) 1 "book" data w))
    = store w
  /\ fst (project_add (sample_page 0) 1 "https://tumblbug.com/book" w)
     = Ret FetchFailed.
Proof.
  pose proof
    (zero_funding_treated_as_absent sample_env (sample_page 0) 1 "book"
       (sample_data (Some 900000) [500000])
       (sample_world (sample_data (Some 900000) [500000]))
       "https://tumblbug.com/book" (Some "Book") None (Some 0)
       (or_intror eq_refl)) as [Hs Ha].
  split.
  - apply Hs. reflexivity.
  - apply Ha; reflexivity.
Defined.

(** ** [extract_project_id] *)

Lemma urlparse_raises u e :
  urlparse u = Raise e -> e = ValueError "Invalid IPv6 URL".
Proof.
  unfold urlparse.
  destruct (split_scheme _) as [sch rest].
  destruct (match rest with
            | String "/" (String "/" r) =>
                (take_until is_netloc_delim r, drop_until is_netloc_delim r)
            | _ => (EmptyString, rest)
            end) as [loc rest'].
  destruct (_ || _); intros H; inversion H. reflexivity.
Qed.

(** C9, as the code has it.  The [raise ValueError] of
    [extract_project_id] is never reached, because splitting the stripped
    path never gives an empty list: whenever [urlparse] returns, the
    function returns the first part of the stripped path, the only
    exception that leaves it is the one [urlparse] raises, every URL that
    passes the prefix check of the project-add command is accepted, and
    [https://tumblbug.com/] gives the empty string. *)
Theorem extract_project_id_error_branch_unreachable :
  forall u,
    extract_project_id u <> Raise (ValueError no_project_id)
    /\ (forall parsed_url,
          urlparse u = Ret parsed_url ->
          extract_project_id u =
          Ret (hd EmptyString (split slash (strip slash (path parsed_url)))))
    /\ (forall e, extract_project_id u = Raise e -> urlparse u = Raise e)
    /\ (startswith "https://tumblbug.com/" u = true ->
        exists project_id, extract_project_id u = Ret project_id)
    /\ extract_project_id "https://tumblbug.com/" = Ret "".
Proof.
  intros u. repeat split.
  - destruct (urlparse u) as [p|e] eqn:Hp.
    + rewrite (extract_project_id_parsed u p Hp). discriminate.
    + unfold extract_project_id. rewrite Hp.
      apply urlparse_raises in Hp. subst e.
      unfold no_project_id. intros H. inversion H.
  - apply extract_project_id_parsed.
  - intros e He. destruct (urlparse u) as [p|e'] eqn:Hp.
    + rewrite (extract_project_id_parsed u p Hp) in He. discriminate.
    + unfold extract_project_id in He. rewrite Hp in He.
      now inversion He.
  - apply tumblbug_url_parses.
Qed.

Lemma extract_project_id_error_branch_unreachable_witness :
  extract_project_id "https://tumblbug.com/my-book/story?ref=main"
  = Ret "my-book".
Proof.
  refine (proj1 (proj2
    (extract_project_id_error_branch_unreachable
       "https://tumblbug.com/my-book/story?ref=main"))
    (mkParseResult "https" "tumblbug.com" "/my-book/story") _).
  reflexivity.
Defined.

(** C9 as stated fails: [urlparse] raises [ValueError] for a network
    location with an unmatched square bracket, and [extract_project_id]
    lets it through. *)
Lemma extract_project_id_raises_counterexample :
  extract_project_id "https://[" = Raise (ValueError "Invalid IPv6 URL").
Proof. reflexivity. Qed.

(** ** The dispatcher isolates failed deliveries *)

(** C6, as the code has it.  [send_notifications] never raises.  It
    sends the embed once, in order, to every registered channel id that
    the client resolves, whether or not earlier sends failed; every send
    that fails with [discord.HTTPException] is logged; an id that the
    client does not resolve is passed over without a log entry.  A guild
    without a document gets nothing. *)
Theorem dispatch_isolates_failures :
  forall env gid embed w,
    let r := send_notifications env gid embed w in
    fst r = Ret tt
    /\ store (snd r) = store w
    /\ (forall cfg,
          find_one gid (store w) = Some cfg ->
          let reached := filter (get_channel env) (notification_channels cfg) in
          outbox (snd r) = outbox w ++ map (fun c => (c, embed)) reached
          /\ log (snd r) =
             log w ++ map (fun c => LogSendFailed c HTTPException)
                        (filter (fun c => send_fails env c embed) reached))
    /\ (find_one gid (store w) = None ->
        outbox (snd r) = outbox w /\ log (snd r) = log w).
Proof.
  intros env gid embed w. cbn zeta. rewrite send_notifications_run.
  cbn [fst snd store outbox log]. unfold resolved_channels.
  split; [reflexivity|]. split; [reflexivity|]. split.
  - intros cfg Hc. rewrite Hc. cbn zeta. split; reflexivity.
  - intros Hn. rewrite Hn. cbn. rewrite !app_nil_r. split; reflexivity.
Qed.

Lemma dispatch_isolates_failures_witness :
  let embed := MonitoringStart "https://tumblbug.com/book" 5 in
  let r := send_notifications flaky_env 1 embed flaky_world in
  outbox (snd r) = [(10, embed); (12, embed)]
  /\ log (snd r) = [LogSendFailed 10 HTTPException].
Proof.
  refine (proj1 (proj2 (proj2
    (dispatch_isolates_failures flaky_env 1
       (MonitoringStart "https://tumblbug.com/book" 5) flaky_world)))
    (mkServerConfig 1 [] [10; 11; 12]) _).
  reflexivity.
Defined.

(** C6 as stated fails for a registered channel id that the client does
    not resolve: channel 11 is registered, nothing is sent to it and
    nothing is logged about it. *)
Lemma unresolved_channel_counterexample :
  let embed := MonitoringStart "https://tumblbug.com/book" 5 in
  let r := send_notifications flaky_env 1 embed flaky_world in
  find_one 1 (store flaky_world) = Some (mkServerConfig 1 [] [10; 11; 12])
  /\ In 11 [10; 11; 12]
  /\ ~ In (11, embed) (outbox (snd r))
  /\ ~ In (LogSendFailed 11 HTTPException) (log (snd r)).
Proof.
  cbn zeta. repeat split.
  - right. now left.
  - cbn. intros [H|[H|[]]]; discriminate.
  - cbn. intros [H|[]]. discriminate.
Qed.

(** ** The scope of the session lock *)

Lemma new_ops_app w w' l :
  session_trace w' = session_trace w ++ l -> new_ops w w' = l.
Proof.
  unfold new_ops. intros ->.
  rewrite skipn_app, skipn_all, Nat.sub_diag. reflexivity.
Qed.

Lemma respects_ret {A} (a : A) : respects_lock (ret a).
Proof.
  intros w Hw. split; [assumption|]. exists []. cbn.
  now rewrite app_nil_r.
Qed.

Lemma respects_raise {A} (e : Exn) : respects_lock (@raise A e).
Proof.
  intros w Hw. split; [assumption|]. exists []. cbn.
  now rewrite app_nil_r.
Qed.

Lemma respects_logging (e : LogEntry) : respects_lock (logging e).
Proof.
  intros w Hw. split; [assumption|]. exists []. cbn.
  now rewrite app_nil_r.
Qed.

Lemma respects_session_op (op : SessionOp) :
  is_driver_init op = false -> respects_lock (session_op op).
Proof.
  intros Hop w Hw. split; [assumption|]. exists [(op, lock_held w)]. cbn.
  split; [reflexivity|]. repeat constructor.
  unfold lock_matches. cbn. congruence.
Qed.

Lemma respects_bind {A B} (m : M A) (k : A -> M B) :
  respects_lock m -> (forall a, respects_lock (k a)) ->
  respects_lock (bind m k).
Proof.
  intros Hm Hk w Hw. destruct (Hm w Hw) as (Hl & ops & Ht & Hf).
  unfold bind. destruct (m w) as [[a|e] w1]; cbn [fst snd] in *.
  - destruct (Hk a w1 Hl) as (Hl2 & ops2 & Ht2 & Hf2).
    split; [assumption|]. exists (ops ++ ops2).
    rewrite Ht2, Ht, app_assoc. split; [reflexivity|].
    apply Forall_app. now split.
  - split; [assumption|]. now exists ops.
Qed.

Lemma respects_try {A} (m : M A) (handles : Exn -> bool) (h : Exn -> M A) :
  respects_lock m -> (forall e, respects_lock (h e)) ->
  respects_lock (try_except m handles h).
Proof.
  intros Hm Hh w Hw. destruct (Hm w Hw) as (Hl & ops & Ht & Hf).
  unfold try_except. destruct (m w) as [[a|e] w1]; cbn [fst snd] in *.
  - split; [assumption|]. now exists ops.
  - destruct (handles e).
    + destruct (Hh e w1 Hl) as (Hl2 & ops2 & Ht2 & Hf2).
      split; [assumption|]. exists (ops ++ ops2).
      rewrite Ht2, Ht, app_assoc. split; [reflexivity|].
      apply Forall_app. now split.
    + split; [assumption|]. now exists ops.
Qed.

Lemma respects_wait_until {A} (op : SessionOp) (el : Elem A) :
  is_driver_init op = false -> respects_lock (wait_until op el).
Proof.
  intros Hop. unfold wait_until. apply respects_bind.
  - now apply respects_session_op.
  - intros _. destruct el; [apply respects_ret|apply respects_raise].
Qed.

Lemma respects_get_driver (launch_result : option Exn) :
  respects_lock (get_driver launch_result).
Proof.
  intros w Hw. destruct w as [s d lk tr ds ob lg].
  unfold get_driver, finally_, bind, session_op, gets, set_driver, modify,
    logging, ret, raise, set_lock.
  cbn. split.
  - destruct d; cbn; [reflexivity|].
    destruct launch_result as [e|]; cbn; [|reflexivity].
    destruct (is_WebDriverException e); reflexivity.
  - destruct d; cbn.
    + exists [(OpCheck, true)]. split; [reflexivity|]. repeat constructor.
    + destruct launch_result as [e|]; cbn.
      * exists [(OpCheck, true)]. split; [|repeat constructor].
        destruct (is_WebDriverException e); reflexivity.
      * exists [(OpCheck, true); (OpCreate, true)].
        rewrite <- app_assoc. split; [reflexivity|]. repeat constructor.
Qed.

Lemma respects_read_page (u : string) (page : Page) :
  respects_lock (read_page u page).
Proof.
  unfold read_page.
  apply respects_bind; [now apply respects_session_op|]. intros _.
  apply respects_bind.
  { destruct (navigation page); [apply respects_raise|apply respects_ret]. }
  intros _. apply respects_bind.
  { apply respects_try; [now apply respects_wait_until|].
    intros e. apply respects_bind; [|intros _; apply respects_raise].
    destruct (is_Timeout e); [|destruct (is_WebDriverException e)];
      repeat first [ apply respects_logging
                   | apply respects_session_op; reflexivity
                   | apply respects_bind; [|intros _] ]. }
  intros project_title. apply respects_bind.
  { apply respects_try.
    - apply respects_bind; [now apply respects_wait_until|].
      intros [n|]; [apply respects_ret|apply respects_raise].
    - intros e. apply respects_bind; [apply respects_logging|].
      intros _. apply respects_raise. }
  intros current_funding. apply respects_bind.
  { apply respects_try; [now apply respects_wait_until|].
    intros e. apply respects_bind; [apply respects_logging|].
    intros _. apply respects_ret. }
  intros image_url. apply respects_ret.
Qed.

Lemma respects_get_project_data (u : string) (page : Page) :
  respects_lock (get_project_data u page).
Proof.
  unfold get_project_data. apply respects_bind.
  - apply respects_try; [apply respects_get_driver|].
    intros e. apply respects_bind; [apply respects_logging|].
    intros _. apply respects_raise.
  - intros _. apply respects_try; [apply respects_read_page|].
    intros e. apply respects_bind; [apply respects_logging|].
    intros _. apply respects_bind; [now apply respects_session_op|].
    intros _. apply respects_ret.
Qed.

(** The watchdog records its teardown with the lock state it finds: it
    does not take the lock. *)
Lemma check_memory_and_restart_ops (memory_usage : Z) (w : World) :
  let w' := snd (check_memory_and_restart memory_usage w) in
  lock_held w' = lock_held w
  /\ session_trace w' =
     session_trace w ++
     (if (memory_usage >? MEMORY_THRESHOLD) && driver w
      then [(OpQuit, lock_held w)] else []).
Proof.
  destruct w as [s d lk tr ds ob lg].
  unfold check_memory_and_restart, bind, logging, gets, session_op,
    set_driver, modify, ret.
  destruct (memory_usage >? MEMORY_THRESHOLD); cbn.
  - destruct d; cbn; rewrite ?app_nil_r; auto.
  - rewrite app_nil_r. auto.
Qed.

(** C7, as the code has it.  With the lock free at the start, a project
    read leaves the lock free, and every session operation it performs is
    recorded with the lock held exactly when it belongs to [get_driver]
    (the check for a session and its creation): navigation, element
    waits, the screenshot and the reads of the current URL all run after
    the lock was released.  The memory watchdog quits the session without
    taking the lock. *)
Theorem lock_covers_only_session_creation :
  forall u page memory_usage w,
    lock_held w = false ->
    let w1 := snd (get_project_data u page w) in
    let w2 := snd (check_memory_and_restart memory_usage w) in
    lock_held w1 = false
    /\ (forall op held,
          In (op, held) (new_ops w w1) -> held = is_driver_init op)
    /\ (forall op held,
          In (op, held) (new_ops w w2) -> op = OpQuit /\ held = false).
Proof.
  intros u page memory_usage w Hw. cbn zeta.
  destruct (respects_get_project_data u page w Hw) as (Hl & ops & Ht & Hf).
  split; [assumption|]. split.
  - intros op held Hin. rewrite (new_ops_app _ _ _ Ht) in Hin.
    rewrite Forall_forall in Hf. apply (Hf _ Hin).
  - intros op held Hin.
    destruct (check_memory_and_restart_ops memory_usage w) as [_ Hq].
    rewrite (new_ops_app _ _ _ Hq), Hw in Hin.
    destruct ((memory_usage >? MEMORY_THRESHOLD) && driver w);
      [|destruct Hin].
    destruct Hin as [Heq|[]]. inversion Heq. auto.
Qed.

Lemma lock_covers_only_session_creation_witness :
  let w := sample_world (sample_data None []) in
  let w1 := snd (get_project_data "https://tumblbug.com/book"
                   (sample_page 5) w) in
  lock_held w1 = false
  /\ In (OpNavigate "https://tumblbug.com/book", false) (new_ops w w1).
Proof.
  split.
  - refine (proj1 (lock_covers_only_session_creation
                     "https://tumblbug.com/book" (sample_page 5) 0
                     (sample_world (sample_data None [])) _)).
    reflexivity.
  - vm_compute. right. right. now left.
Defined.

(** C7 as stated fails: in a first project read, only the check for a
    session and its creation are made under the lock; the navigation and
    the three element waits are made with the lock released.  The
    watchdog, over its memory limit, quits that session without the
    lock. *)
Lemma scrape_outside_lock_counterexample :
  let u := "https://tumblbug.com/book" in
  let w := sample_world (sample_data None []) in
  let w1 := snd (get_project_data u (sample_page 5) w) in
  let w2 := snd (check_memory_and_restart (MEMORY_THRESHOLD + 1) w1) in
  session_trace w1 =
    [(OpCheck, true); (OpCreate, true); (OpNavigate u, false);
     (OpWaitTitle, false); (OpWaitPrice, false); (OpWaitImage, false)]
  /\ ~ all_under_lock (session_trace w1)
  /\ new_ops w1 w2 = [(OpQuit, false)].
Proof.
  cbn zeta. split; [reflexivity|]. split; [|reflexivity].
  intros H. vm_compute in H.
  inversion H as [|a1 l1 _ Ha]. inversion Ha as [|a2 l2 _ Hb].
  inversion Hb as [|a3 l3 Hnav _]. discriminate.
Qed.

(** ** A whole tick *)

Lemma for_each_app {A} (l1 l2 : list A) (body : A -> M unit) (w : World) :
  for_each (l1 ++ l2) body w = (for_each l1 body ;; for_each l2 body) w.
Proof.
  revert w. induction l1 as [|x l1 IH]; intros w; cbn.
  - reflexivity.
  - unfold bind. destruct (body x w) as [[[]|e] w1].
    + rewrite IH. reflexivity.
    + reflexivity.
Qed.

Lemma for_each_map {A B} (f : A -> B) (l : list A) (body : B -> M unit)
    (w : World) :
  for_each (map f l) body w = for_each l (fun x => body (f x)) w.
Proof.
  revert w. induction l as [|x l IH]; intros w; cbn; [reflexivity|].
  unfold bind. destruct (body (f x) w) as [[[]|e] w1]; [apply IH|reflexivity].
Qed.

Lemma check_prices_jobs env browse w :
  check_prices env browse w =
  for_each (jobs (store w)) (run_job env browse) w.
Proof.
  unfold check_prices, bind at 1, gets. cbn [fst snd].
  generalize (store w) as s. intros s. revert w.
  induction s as [|c s IH]; intros w; cbn [for_each jobs flat_map].
  - reflexivity.
  - fold (jobs s). rewrite for_each_app. unfold bind at 1 2.
    rewrite for_each_map. cbn [run_job fst snd].
    destruct (for_each (monitored_urls c) _ w) as [[[]|e] w1];
      [apply IH|reflexivity].
Qed.

Lemma find_one_unique s c :
  NoDup (map guild_id s) -> In c s -> find_one (guild_id c) s = Some c.
Proof.
  unfold find_one. induction s as [|c0 s IH]; intros Hn Hin; [destruct Hin|].
  cbn in *. inversion Hn as [|? ? Hnotin Hn']. subst.
  destruct Hin as [->|Hin].
  - now rewrite Z.eqb_refl.
  - destruct (guild_id c0 =? guild_id c) eqn:He.
    + apply Z.eqb_eq in He. exfalso. apply Hnotin. rewrite He.
      now apply in_map.
    + now apply IH.
Qed.

Lemma get_project_unique m p d :
  NoDup (map fst m) -> In (p, d) m -> get_project p m = Some d.
Proof.
  induction m as [|[k d0] m IH]; intros Hn Hin; [destruct Hin|].
  cbn in *. inversion Hn as [|? ? Hnotin Hn']. subst.
  destruct Hin as [Heq|Hin].
  - inversion Heq. subst. now rewrite String.eqb_refl.
  - destruct (String.eqb k p) eqn:He.
    + apply String.eqb_eq in He. subst k. exfalso. apply Hnotin.
      now apply (in_map fst _ (p, d)).
    + now apply IH.
Qed.

Lemma lookup_project_job s c p d :
  well_formed s -> In c s -> In (p, d) (monitored_urls c) ->
  lookup_project (guild_id c) p s = Some d.
Proof.
  intros [Hg Hp] Hc Hin. unfold lookup_project.
  rewrite (find_one_unique s c Hg Hc).
  rewrite Forall_forall in Hp. now apply get_project_unique; [apply Hp|].
Qed.

Lemma jobs_In s g p d :
  In (g, p, d) (jobs s) <->
  exists c, In c s /\ guild_id c = g /\ In (p, d) (monitored_urls c).
Proof.
  unfold jobs. rewrite in_flat_map. split.
  - intros (c & Hc & Hin). apply in_map_iff in Hin.
    destruct Hin as ([p' d'] & Heq & Hin). inversion Heq. subst.
    exists c. auto.
  - intros (c & Hc & <- & Hin). exists c. split; [assumption|].
    apply in_map_iff. exists (p, d). auto.
Qed.

Lemma jobs_keys_unique s : well_formed s -> NoDup (map key (jobs s)).
Proof.
  intros [Hg Hp]. induction s as [|c s IH]; cbn; [constructor|].
  inversion Hg as [|? ? Hnotin Hg']. inversion Hp as [|? ? Hc Hp']. subst.
  fold (jobs s). rewrite map_app.
  apply NoDup_app.
  - rewrite map_map. cbn.
    clear -Hc. induction (monitored_urls c) as [|[k d] m IHm]; cbn in *;
      [constructor|].
    inversion Hc as [|? ? Hk Hm]. subst. constructor; [|now apply IHm].
    intros Hin. apply Hk. apply in_map_iff in Hin.
    destruct Hin as ([k' d'] & Heq & Hin). inversion Heq. subst.
    now apply (in_map fst _ (k, d')).
  - now apply IH.
  - intros [g p] Hin1 Hin2. apply Hnotin.
    apply in_map_iff in Hin1. destruct Hin1 as ([[g1 p1] d1] & Heq1 & Hin1).
    apply in_map_iff in Hin1. destruct Hin1 as (e & He & _).
    inversion He. subst. cbn in Heq1. inversion Heq1. subst.
    apply in_map_iff in Hin2. destruct Hin2 as ([[g2 p2] d2] & Heq2 & Hin2).
    cbn in Heq2. inversion Heq2. subst.
    apply jobs_In in Hin2. destruct Hin2 as (c2 & Hc2 & Hg2 & _).
    rewrite <- Hg2. now apply in_map.
Qed.

Lemma apply_all_to_other pid data r p d :
  p <> pid -> apply_all_to (snd (cycle_of pid data r)) p d = d.
Proof.
  intros Hne. apply String.eqb_neq in Hne.
  unfold cycle_of. destruct (usable_funding r) as [cur|]; [|reflexivity].
  unfold cycle. destruct (truthy (initial_funding data)); cbn [negb].
  - destruct (initial_funding data) as [init|]; [|reflexivity].
    destruct (cur >? init); [|reflexivity].
    destruct ((cur >=? next_1m init) && (next_1m init >? init));
      destruct (crossed cur (thresholds data)); cbn; rewrite ?Hne;
      reflexivity.
  - cbn. now rewrite Hne.
Qed.

(** A job leaves the stored state of every other project alone. *)
Lemma run_job_other env browse g0 p0 d0 w g p :
  (g, p) <> (g0, p0) ->
  lookup_project g p (store (snd (run_job env browse (g0, p0, d0) w))) =
  lookup_project g p (store w).
Proof.
  intros Hne. cbn [run_job]. rewrite check_project_lookup.
  destruct (g =? g0) eqn:Hg; [|reflexivity].
  apply Z.eqb_eq in Hg. subst g0.
  assert (Hp : p <> p0) by congruence.
  destruct (lookup_project g p (store w)) as [d|]; [|reflexivity].
  cbn. now rewrite apply_all_to_other.
Qed.

(** What a sequence of jobs with distinct keys does: it returns; a
    project that is not among the jobs keeps its state; the state of a
    job's project is the one its own cycle gives, and its notifications
    are dispatched; nothing else is dispatched. *)
Lemma tick_jobs env browse l :
  NoDup (map key l) ->
  forall w,
    let w' := snd (for_each l (run_job env browse) w) in
    fst (for_each l (run_job env browse) w) = Ret tt
    /\ dispatched w' = dispatched w ++ emitted w w'
    /\ (forall g p, ~ In (g, p) (map key l) ->
          lookup_project g p (store w') = lookup_project g p (store w))
    /\ (forall g p d, In (g, p, d) l ->
          exists has_driver,
            let c := cycle_of p d (scrape_outcome (browse g p) has_driver) in
            lookup_project g p (store w') =
              option_map (apply_all_to (snd c) p)
                (lookup_project g p (store w))
            /\ forall n, In n (fst c) -> In (g, n) (emitted w w'))
    /\ (forall g n, In (g, n) (emitted w w') ->
          exists p d has_driver,
            In (g, p, d) l
            /\ In n (fst (cycle_of p d
                            (scrape_outcome (browse g p) has_driver)))).
Proof.
  induction l as [|[[g0 p0] d0] l IH]; intros Hn w; cbn zeta.
  - cbn. unfold emitted. rewrite skipn_all, app_nil_r.
    repeat split; auto.
    + intros g p d [].
    + intros g n [].
  - inversion Hn as [|? ? Hnotin Hn']. subst.
    cbn [for_each].
    pose proof (check_project_effect env (browse g0 p0) g0 p0 d0 w) as He.
    cbn zeta in He. destruct He as (Hr & Hd & _).
    rewrite (bind_run _ _ _ _ Hr).
    change (run_job env browse (g0, p0, d0))
      with (check_project env (browse g0 p0) g0 p0 d0).
    set (w1 := snd (check_project env (browse g0 p0) g0 p0 d0 w)) in *.
    destruct (IH Hn' w1) as (Hr' & Hd' & Hother & Hjob & Honly).
    set (w' := snd (for_each l (run_job env browse) w1)) in *.
    set (ev0 := map (pair g0)
                  (fst (cycle_of p0 d0
                          (scrape_outcome (browse g0 p0) (driver w))))) in *.
    assert (Hem : emitted w w' = ev0 ++ emitted w1 w').
    { apply emitted_app. rewrite Hd', Hd. now rewrite app_assoc. }
    split; [exact Hr'|]. split.
    { rewrite Hem, Hd', Hd. now rewrite app_assoc. }
    split; [|split].
    + intros g p Hk. cbn in Hk.
      rewrite Hother by tauto.
      apply (run_job_other env browse g0 p0 d0 w).
      intros Heq. apply Hk. left. now inversion Heq.
    + intros g p d [Heq|Hin].
      * inversion Heq. subst g p d. exists (driver w). cbn zeta. split.
        -- rewrite (Hother g0 p0 Hnotin). unfold w1.
           rewrite check_project_lookup, Z.eqb_refl. reflexivity.
        -- intros n Hin. rewrite Hem. apply in_or_app. left.
           unfold ev0. now apply in_map.
      * destruct (Hjob g p d Hin) as (hd & Hl & Hev). exists hd.
        cbn zeta in *. split.
        -- rewrite Hl. f_equal.
           apply (run_job_other env browse g0 p0 d0 w).
           intros Heq. inversion Heq. subst. apply Hnotin.
           now apply (in_map key _ (g0, p0, d)).
        -- intros n Hn0. rewrite Hem. apply in_or_app. right. now apply Hev.
    + intros g n Hin. rewrite Hem in Hin. apply in_app_or in Hin.
      destruct Hin as [Hin|Hin].
      * unfold ev0 in Hin. apply in_map_iff in Hin.
        destruct Hin as (n' & Heq & Hin). inversion Heq. subst.
        exists p0, d0, (driver w). split; [now left|assumption].
      * destruct (Honly g n Hin) as (p & d & hd & Hl & Hev).
        exists p, d, hd. split; [now right|assumption].
Qed.

Lemma usable_funding_read r :
  usable_funding r =
  match funding_read r with
  | Some n => if n =? 0 then None else Some n
  | None => None
  end.
Proof. destruct r as [[[t [n|]] i]|e]; reflexivity. Qed.

Lemma cycle_of_read pid data r r' :
  funding_read r = funding_read r' ->
  cycle_of pid data r = cycle_of pid data r'.
Proof.
  intros H. unfold cycle_of. now rewrite !usable_funding_read, H.
Qed.

Lemma cycle_of_failed pid data r :
  funding_read r = None -> cycle_of pid data r = ([], []).
Proof.
  intros H. unfold cycle_of. now rewrite usable_funding_read, H.
Qed.

(** C5. In a tick over a well-formed store, [check_prices] returns, and
    for every watched project of every guild: when its read fails, its
    stored state is what it was before the tick; when its read gives a
    funding, its stored state and its notifications are those of its own
    cycle, whatever happened to the other projects.  Every notification
    of the tick belongs to a project whose read did not fail. *)
Theorem scheduler_isolates_failed_reads :
  forall env browse w,
    well_formed (store w) ->
    let w' := snd (check_prices env browse w) in
    fst (check_prices env browse w) = Ret tt
    /\ (forall c pid data,
          In c (store w) -> In (pid, data) (monitored_urls c) ->
          let gid := guild_id c in
          let alone := snd (check_project env (browse gid pid) gid pid
                              data w) in
          (read_fails (browse gid pid) ->
             lookup_project gid pid (store w') = Some data)
          /\ (forall cur, read_gives (browse gid pid) cur ->
                lookup_project gid pid (store w') =
                  lookup_project gid pid (store alone)
                /\ forall n, In n (events w alone) ->
                             In (gid, n) (emitted w w')))
    /\ (forall gid n, In (gid, n) (emitted w w') ->
          exists c pid data,
            In c (store w) /\ guild_id c = gid
            /\ In (pid, data) (monitored_urls c)
            /\ ~ read_fails (browse gid pid)).
Proof.
  intros env browse w Hwf. cbn zeta. rewrite check_prices_jobs.
  destruct (tick_jobs env browse (jobs (store w)) (jobs_keys_unique _ Hwf) w)
    as (Hr & _ & _ & Hjob & Honly).
  split; [exact Hr|]. split.
  - intros c pid data Hc Hin.
    assert (Hj : In (guild_id c, pid, data) (jobs (store w))).
    { apply jobs_In. exists c. auto. }
    destruct (Hjob _ _ _ Hj) as (hd & Hl & Hev). cbn zeta in Hl, Hev.
    rewrite (lookup_project_job _ _ _ _ Hwf Hc Hin) in Hl. split.
    + intros Hf. rewrite Hl, (cycle_of_failed _ _ _ (Hf hd)). reflexivity.
    + intros cur Hg.
      assert (Hc2 : cycle_of pid data
                      (scrape_outcome (browse (guild_id c) pid) hd) =
                    cycle_of pid data
                      (scrape_outcome (browse (guild_id c) pid) (driver w))).
      { apply cycle_of_read. now rewrite !Hg. }
      split.
      * rewrite Hl, Hc2.
        rewrite (check_project_stored _ _ _ _ _ _
                   (lookup_project_job _ _ _ _ Hwf Hc Hin)).
        reflexivity.
      * intros n Hn. apply Hev. rewrite Hc2.
        now rewrite check_project_events in Hn.
  - intros gid n Hin.
    destruct (Honly gid n Hin) as (pid & data & hd & Hj & Hn).
    apply jobs_In in Hj. destruct Hj as (c & Hc & Hg & Hpd).
    exists c, pid, data. repeat split; auto.
    intros Hf. rewrite (cycle_of_failed _ _ _ (Hf hd)) in Hn. destruct Hn.
Qed.

Lemma two_projects_well_formed : well_formed (store two_projects).
Proof.
  split.
  - constructor; [intros []|constructor].
  - repeat constructor; cbn; try tauto.
    intros [H|[]]. discriminate.
Defined.

Lemma scheduler_isolates_failed_reads_witness :
  let w' := snd (check_prices sample_env one_fails two_projects) in
  lookup_project 1 "a" (store w') =
    Some (mkProjectData "https://tumblbug.com/a" "A" (Some 900000) [1000000])
  /\ fst (check_prices sample_env one_fails two_projects) = Ret tt.
Proof.
  pose proof (scheduler_isolates_failed_reads sample_env one_fails
                two_projects two_projects_well_formed) as (Hr & Hp & _).
  split; [|exact Hr].
  refine (proj1 (Hp (mkServerConfig 1 _ [10]) "a" _ _ _) _).
  - now left.
  - now left.
  - intros [|]; reflexivity.
Defined.

(** ** The scenarios of the specification, run on the model *)

Example scenario_threshold_2m_of_2m_5m :
  let data := sample_data (Some 1000000) [2000000; 5000000] in
  let w := sample_world data in
  let w' := snd (check_project sample_env (sample_page 3000000) 1 "book"
                   data w) in
  filter is_threshold_event (events w w') =
    [ThresholdEvent "Book" 2000000 3000000 "https://tumblbug.com/book"]
  /\ stored_thresholds 1 "book" w' = [5000000]
  /\ outbox w' =
       [(10, MilestoneEvent "Book" 2000000 3000000
               "https://tumblbug.com/book");
        (10, ThresholdEvent "Book" 2000000 3000000
               "https://tumblbug.com/book")].
Proof. repeat split; reflexivity. Qed.

Example scenario_failed_read_logs_and_goes_on :
  let w' := snd (check_prices sample_env one_fails two_projects) in
  map fst (monitored_urls (hd (mkServerConfig 0 [] []) (store w'))) =
    ["a"; "b"]
  /\ stored_initial_funding 1 "a" w' = Some 900000
  /\ stored_thresholds 1 "a" w' = [1000000]
  /\ stored_initial_funding 1 "b" w' = Some 1000000
  /\ emitted two_projects w' =
       [(1, MilestoneEvent "B" 1000000 1050000 "https://tumblbug.com/b")]
  /\ In (LogScrapeFailed "https://tumblbug.com/a" TimeoutException) (log w').
Proof. repeat split; try reflexivity. vm_compute. right. now left. Qed.

(** * Further properties of the code *)

(** ** The page reader and the session *)


(** The session operations of a read, when the session has to be
    created and can be. *)
Lemma get_project_data_creates u page w :
  driver w = false -> launch page = None ->
  let w' := snd (get_project_data u page w) in
  driver w' = true
  /\ exists ops, new_ops w w' = (OpCheck, true) :: (OpCreate, true) :: ops
                 /\ Forall (fun e => fst e <> OpCreate) ops.
Proof.
  intros Hd Hl. destruct page as [l n t p i], w as [s d lk tr ds ob lg].
  cbn in Hd, Hl. subst d l. unfold new_ops.
  unfold get_project_data, read_page, get_driver,
    try_except, finally_, bind, wait_until, session_op,
    logging, set_driver, modify, gets, ret, raise, set_lock.
  cbn -[is_Timeout is_WebDriverException is_Timeout_or_NoSuchElement skipn].
  assert (Hfin : forall ops : list (SessionOp * bool),
            Forall (fun e => fst e <> OpCreate) ops ->
            exists ops',
              skipn (List.length tr)
                (tr ++ (OpCheck, true) :: (OpCreate, true) :: ops) =
              (OpCheck, true) :: (OpCreate, true) :: ops'
              /\ Forall (fun e => fst e <> OpCreate) ops').
  { intros ops H. exists ops.
    rewrite skipn_app, skipn_all, Nat.sub_diag. now split. }
  destruct n as [en|];
    cbn -[is_Timeout is_WebDriverException is_Timeout_or_NoSuchElement skipn].
  2: destruct t as [tt'|et];
    cbn -[is_Timeout is_WebDriverException is_Timeout_or_NoSuchElement skipn];
    [ destruct p as [[pn|]|ep];
      cbn -[is_Timeout is_WebDriverException is_Timeout_or_NoSuchElement
            skipn];
      [ destruct i as [ii|ei];
        cbn -[is_Timeout is_WebDriverException is_Timeout_or_NoSuchElement
              skipn];
        [|destruct (is_Timeout_or_NoSuchElement ei)]
      | | destruct (is_Timeout_or_NoSuchElement ep) ]
    | destruct (is_Timeout et); [|destruct (is_WebDriverException et)] ].
  all: cbn -[skipn]; (split; [reflexivity|]);
    rewrite <- ?app_assoc; cbn [app]; apply Hfin;
    repeat constructor; discriminate.
Qed.

(** The session operations of a read, when the session exists. *)
Lemma get_project_data_reuses u page w :
  driver w = true ->
  let w' := snd (get_project_data u page w) in
  driver w' = true
  /\ Forall (fun e => fst e <> OpCreate) (new_ops w w').
Proof.
  intros Hd. destruct page as [l n t p i], w as [s d lk tr ds ob lg].
  cbn in Hd. subst d. unfold new_ops.
  unfold get_project_data, read_page, get_driver,
    try_except, finally_, bind, wait_until, session_op,
    logging, set_driver, modify, gets, ret, raise, set_lock.
  cbn -[is_Timeout is_WebDriverException is_Timeout_or_NoSuchElement skipn].
  assert (Hfin : forall ops : list (SessionOp * bool),
            Forall (fun e => fst e <> OpCreate) ops ->
            Forall (fun e => fst e <> OpCreate)
              (skipn (List.length tr) (tr ++ ops))).
  { intros ops H. now rewrite skipn_app, skipn_all, Nat.sub_diag. }
  destruct n as [en|];
    cbn -[is_Timeout is_WebDriverException is_Timeout_or_NoSuchElement skipn].
  2: destruct t as [tt'|et];
    cbn -[is_Timeout is_WebDriverException is_Timeout_or_NoSuchElement skipn];
    [ destruct p as [[pn|]|ep];
      cbn -[is_Timeout is_WebDriverException is_Timeout_or_NoSuchElement
            skipn];
      [ destruct i as [ii|ei];
        cbn -[is_Timeout is_WebDriverException is_Timeout_or_NoSuchElement
              skipn];
        [|destruct (is_Timeout_or_NoSuchElement ei)]
      | | destruct (is_Timeout_or_NoSuchElement ep) ]
    | destruct (is_Timeout et); [|destruct (is_WebDriverException et)] ].
  all: cbn -[skipn]; (split; [reflexivity|]);
    rewrite <- ?app_assoc; cbn [app]; apply Hfin;
    repeat constructor; discriminate.
Qed.

(** X2. The session is created lazily and once: a read on a world
    without a session whose launch works creates it under the lock before
    anything else, and a read on a world with a session, such as the next
    read, creates nothing. *)
Theorem session_created_lazily_once :
  forall u page u2 page2 w,
    driver w = false -> launch page = None ->
    let w1 := snd (get_project_data u page w) in
    let w2 := snd (get_project_data u2 page2 w1) in
    driver w1 = true
    /\ In (OpCreate, true) (new_ops w w1)
    /\ driver w2 = true
    /\ forall held, ~ In (OpCreate, held) (new_ops w1 w2).
Proof.
  intros u page u2 page2 w Hd Hl. cbn zeta.
  destruct (get_project_data_creates u page w Hd Hl) as (Hd1 & ops & Ho & _).
  destruct (get_project_data_reuses u2 page2 _ Hd1) as (Hd2 & Hf).
  repeat split; auto.
  - rewrite Ho. right. now left.
  - intros held Hin. rewrite Forall_forall in Hf.
    now apply (Hf _ Hin).
Qed.

Lemma session_created_lazily_once_witness :
  let w := sample_world (sample_data None []) in
  let w1 := snd (get_project_data "https://tumblbug.com/book"
                   (sample_page 5) w) in
  driver w1 = true /\ In (OpCreate, true) (new_ops w w1).
Proof.
  pose proof (session_created_lazily_once "https://tumblbug.com/book"
                (sample_page 5) "https://tumblbug.com/book" (sample_page 5)
                (sample_world (sample_data None [])) eq_refl eq_refl)
    as (H1 & H2 & _).
  split; assumption.
Defined.

(** X3. The memory watchdog.  At or under the limit it changes nothing.
    Over the limit it leaves the world without a session (store,
    dispatched notifications and outbox untouched), and the next read
    whose launch works creates a new session. *)
Theorem watchdog_recycles_session :
  forall memory_usage w,
    let w' := snd (check_memory_and_restart memory_usage w) in
    fst (check_memory_and_restart memory_usage w) = Ret tt
    /\ (memory_usage <= MEMORY_THRESHOLD -> w' = w)
    /\ (MEMORY_THRESHOLD < memory_usage ->
        driver w' = false /\ store w' = store w
        /\ dispatched w' = dispatched w /\ outbox w' = outbox w
        /\ forall u page,
             launch page = None ->
             In (OpCreate, true) (new_ops w' (snd (get_project_data u page w')))).
Proof.
  intros memory_usage w. cbn zeta.
  unfold check_memory_and_restart.
  destruct (memory_usage >? MEMORY_THRESHOLD) eqn:Hm.
  - apply Z.gtb_lt in Hm.
    assert (Hw : let w' := snd ((logging (LogMemoryExceeded memory_usage) ;;
                     d <- gets driver ;;
                     if d then session_op OpQuit ;; set_driver false
                     else ret tt) w) in
                 fst ((logging (LogMemoryExceeded memory_usage) ;;
                     d <- gets driver ;;
                     if d then session_op OpQuit ;; set_driver false
                     else ret tt) w) = Ret tt
                 /\ driver w' = false /\ store w' = store w
                 /\ dispatched w' = dispatched w /\ outbox w' = outbox w).
    { destruct w as [s d lk tr ds ob lg].
      unfold bind, logging, gets, session_op, set_driver, modify, ret. cbn.
      destruct d; cbn; auto. }
    cbn zeta in Hw. destruct Hw as (Hr & Hd & Hs & Hds & Ho).
    split; [exact Hr|]. split; [lia|]. intros _.
    repeat split; auto.
    intros u page Hl.
    destruct (get_project_data_creates u page _ Hd Hl) as (_ & ops & Hops & _).
    rewrite Hops. right. now left.
  - rewrite Z.gtb_ltb in Hm. apply Z.ltb_ge in Hm.
    split; [reflexivity|]. split; [reflexivity|lia].
Qed.

Lemma watchdog_recycles_session_witness :
  let w := snd (get_project_data "https://tumblbug.com/book"
                  (sample_page 5) (sample_world (sample_data None []))) in
  driver w = true
  /\ driver (snd (check_memory_and_restart (MEMORY_THRESHOLD + 1) w)) = false.
Proof.
  split; [reflexivity|].
  refine (proj1 (proj2 (proj2
    (watchdog_recycles_session (MEMORY_THRESHOLD + 1)
       (snd (get_project_data "https://tumblbug.com/book"
               (sample_page 5) (sample_world (sample_data None []))))))
    _)).
  reflexivity.
Defined.

(** ** More on the pricing cycle *)

(** X4. Through a cycle, a set [initial_funding] never decreases: it
    stays, or it becomes the next multiple of 1,000,000, which is above
    the old value and at most the funding just read. *)
Theorem initial_funding_never_decreases :
  forall env page gid pid data w prev,
    initial_funding data = Some prev ->
    prev <> 0 ->
    lookup_project gid pid (store w) = Some data ->
    let w' := snd (check_project env page gid pid data w) in
    let next := prev / 1000000 * 1000000 + 1000000 in
    stored_initial_funding gid pid w' = Some prev
    \/ (stored_initial_funding gid pid w' = Some next
        /\ prev < next /\ next mod 1000000 = 0
        /\ exists t cur i,
             fst (get_project_data (url data) page w) = Ret (t, Some cur, i)
             /\ next <= cur).
Proof.
  intros env page gid pid data w prev Hi Hp Hl. cbn zeta.
  fold (next_1m prev). unfold stored_initial_funding.
  rewrite (check_project_stored _ _ _ _ _ _ Hl).
  rewrite get_project_data_outcome.
  unfold cycle_of, usable_funding.
  destruct (scrape_outcome page (driver w)) as [[[t [cur|]] i]|e];
    try (left; cbn; exact Hi).
  destruct (cur =? 0); [left; cbn; exact Hi|].
  rewrite cycle_after_cycle. unfold after_cycle. rewrite Hi.
  apply Z.eqb_neq in Hp. cbn [truthy]. rewrite Hp. cbn [negb].
  destruct (cur >? prev) eqn:Hgt; [|left; exact Hi].
  destruct ((cur >=? next_1m prev) && (next_1m prev >? prev)) eqn:Hm;
    [|left; reflexivity].
  right. apply andb_true_iff in Hm. destruct Hm as [Hge _].
  apply Z.geb_le in Hge. split; [reflexivity|].
  split; [apply next_1m_above|]. split.
  - unfold next_1m.
    replace (prev / 1000000 * 1000000 + 1000000)
      with ((prev / 1000000 + 1) * 1000000) by ring.
    apply Z.mod_mul. discriminate.
  - exists t, cur, i. split; [reflexivity|exact Hge].
Qed.

Lemma initial_funding_never_decreases_witness :
  let data := sample_data (Some 1900000) [] in
  let w := sample_world data in
  let w' := snd (check_project sample_env (sample_page 1950000) 1 "book"
                   data w) in
  stored_initial_funding 1 "book" w' = Some 1900000
  \/ (stored_initial_funding 1 "book" w' = Some 2000000
      /\ 1900000 < 2000000 /\ 2000000 mod 1000000 = 0
      /\ exists t cur i,
           fst (get_project_data "https://tumblbug.com/book"
                  (sample_page 1950000) w) = Ret (t, Some cur, i)
           /\ 2000000 <= cur).
Proof.
  refine (initial_funding_never_decreases sample_env (sample_page 1950000)
            1 "book" (sample_data (Some 1900000) []) (sample_world _)
            1900000 _ _ _); try reflexivity; discriminate.
Defined.







Lemma resolved_channels_store_after env gid upd s :
  resolved_channels env gid (store_after gid upd s) =
  resolved_channels env gid s.
Proof.
  unfold resolved_channels, store_after.
  destruct (find_one gid s) as [cfg|] eqn:Hf.
  - rewrite find_one_update_one, Z.eqb_refl, Hf. cbn.
    now destruct upd.
  - now rewrite (find_one_app_new _ _ Hf).
Qed.

Lemma notified_outbox env gid w n :
  outbox (notified env gid w n) =
  outbox w ++ map (fun c => (c, n)) (resolved_channels env gid (store w)).
Proof. unfold notified. now rewrite send_notifications_run. Qed.

Lemma notified_all_outbox env gid embeds w :
  outbox (notified_all env gid embeds w) =
  outbox w ++
  flat_map (fun n => map (fun c => (c, n))
                       (resolved_channels env gid (store w))) embeds.
Proof.
  revert w. induction embeds as [|e l IH]; intros w; cbn.
  - now rewrite app_nil_r.
  - unfold notified_all in *. cbn. rewrite IH, notified_outbox.
    rewrite (proj1 (notified_frame env gid e w)).
    now rewrite <- app_assoc.
Qed.

(** X6. Fan-out of a cycle: every notification the cycle dispatches is
    sent, in the order of the notifications and then of the registered
    channels, to every channel of the guild that the client resolves;
    nothing else is sent. *)
Theorem cycle_notifications_reach_every_channel :
  forall env page gid pid data w,
    let w' := snd (check_project env page gid pid data w) in
    outbox w' =
    outbox w ++
    flat_map (fun n => map (fun c => (c, n))
                         (resolved_channels env gid (store w)))
      (events w w').
Proof.
  intros env page gid pid data w. cbn zeta.
  rewrite check_project_events.
  pose proof (get_project_data_outcome (url data) page w) as Ho.
  pose proof (get_project_data_frame (url data) page w) as Hf.
  cbn zeta in Hf. destruct Hf as (Hs & _ & Hob).
  unfold check_project, try_except, bind, send_milestone_notification, ret.
  destruct (get_project_data (url data) page w) as [o w1].
  cbn [fst snd] in *. rewrite <- Ho. clear Ho.
  unfold cycle_of, usable_funding.
  destruct o as [[[t cf] i]|e].
  2:{ cbn. now rewrite app_nil_r. }
  destruct cf as [n|]; cbn [truthy negb].
  2:{ cbn. now rewrite app_nil_r. }
  destruct (n =? 0) eqn:Hn; cbn [negb].
  { cbn. now rewrite app_nil_r. }
  unfold cycle.
  destruct (truthy (initial_funding data)) eqn:Hi; cbn [negb].
  - destruct (initial_funding data) as [init|]; [|discriminate].
    destruct (n >? init) eqn:Hgt.
    2:{ cbn. now rewrite app_nil_r. }
    fold (next_1m init).
    destruct ((n >=? next_1m init) && (next_1m init >? init)) eqn:Hm.
    + rewrite send_notifications_notified, update_server_config_updated.
      rewrite check_custom_thresholds_run. cbn [fst snd app flat_map].
      assert (Hout : outbox
                (notified_all env gid
                   (threshold_events (url data) n (title data)
                      (thresholds data))
                   (updated gid (SetInitialFunding pid (next_1m init))
                      (notified env gid w1
                         (MilestoneEvent (title data) (next_1m init) n
                            (url data))))) =
              outbox w ++
              map (fun c => (c, MilestoneEvent (title data) (next_1m init) n
                                  (url data)))
                (resolved_channels env gid (store w)) ++
              flat_map
                (fun n0 => map (fun c => (c, n0))
                             (resolved_channels env gid (store w)))
                (threshold_events (url data) n (title data)
                   (thresholds data))).
      { rewrite notified_all_outbox.
        rewrite (proj1 (updated_frame _ _ _)).
        rewrite resolved_channels_store_after.
        rewrite (proj1 (notified_frame _ _ _ _)), Hs.
        destruct (updated_frame gid (SetInitialFunding pid (next_1m init))
                    (notified env gid w1
                       (MilestoneEvent (title data) (next_1m init) n
                          (url data)))) as (_ & _ & _ & _ & _ & -> & _).
        rewrite notified_outbox, Hs, Hob. now rewrite <- app_assoc. }
      destruct (crossed n (thresholds data)) eqn:Hc; cbn zeta.
      * exact Hout.
      * destruct (updated_frame gid
                    (SetThresholds pid (remaining n (thresholds data)))
                    (notified_all env gid
                       (threshold_events (url data) n (title data)
                          (thresholds data))
                       (updated gid (SetInitialFunding pid (next_1m init))
                          (notified env gid w1
                             (MilestoneEvent (title data) (next_1m init) n
                                (url data))))))
          as (_ & _ & _ & _ & _ & -> & _).
        exact Hout.
    + rewrite check_custom_thresholds_run. cbn [fst snd app].
      assert (Hout : outbox
                (notified_all env gid
                   (threshold_events (url data) n (title data)
                      (thresholds data)) w1) =
              outbox w ++
              flat_map
                (fun n0 => map (fun c => (c, n0))
                             (resolved_channels env gid (store w)))
                (threshold_events (url data) n (title data)
                   (thresholds data))).
      { now rewrite notified_all_outbox, Hs, Hob. }
      destruct (crossed n (thresholds data)) eqn:Hc; cbn zeta.
      * exact Hout.
      * destruct (updated_frame gid
                    (SetThresholds pid (remaining n (thresholds data)))
                    (notified_all env gid
                       (threshold_events (url data) n (title data)
                          (thresholds data)) w1))
          as (_ & _ & _ & _ & _ & -> & _).
        exact Hout.
  - rewrite update_server_config_updated, send_notifications_notified.
    cbn [fst snd flat_map]. rewrite notified_outbox.
    destruct (updated_frame gid (SetInitialFunding pid n) w1)
      as (-> & _ & _ & _ & _ & -> & _).
    rewrite resolved_channels_store_after, Hs, Hob.
    now rewrite app_nil_r.
Qed.

(** ** The commands on the watch list *)







(** ** The project identifier *)




















Lemma find_existsb {A} (f : A -> bool) (l : list A) :
  existsb f l = match find f l with Some _ => true | None => false end.
Proof.
  induction l as [|a l IH]; cbn; [reflexivity|].
  destruct (f a); [reflexivity|exact IH].
Qed.

Lemma find_one_unset_project gid pid g s :
  find_one g (unset_project gid pid s) =
  if g =? gid
  then option_map
         (fun c => mkServerConfig (guild_id c)
                     (remove_project pid (monitored_urls c))
                     (notification_channels c))
         (find_one g s)
  else find_one g s.
Proof.
  unfold find_one. induction s as [|c s IH]; cbn.
  - now destruct (g =? gid).
  - destruct (guild_id c =? gid) eqn:Hc; cbn.
    + apply Z.eqb_eq in Hc. subst gid. rewrite (Z.eqb_sym g (guild_id c)).
      destruct (guild_id c =? g); reflexivity.
    + destruct (guild_id c =? g) eqn:Hg; cbn.
      * apply Z.eqb_eq in Hg. subst g. now rewrite Hc.
      * apply IH.
Qed.

Lemma get_project_remove_other pid p m :
  p <> pid -> get_project p (remove_project pid m) = get_project p m.
Proof.
  intros Hne. induction m as [|[k d] m IH]; cbn [remove_project get_project];
    [reflexivity|].
  destruct (String.eqb k pid) eqn:Hk.
  - apply String.eqb_eq in Hk. subst k.
    apply String.eqb_neq in Hne. rewrite String.eqb_sym in Hne.
    now rewrite Hne.
  - cbn [get_project]. now rewrite IH.
Qed.

Lemma get_project_none pid m :
  ~ In pid (map fst m) -> get_project pid m = None.
Proof.
  induction m as [|[k d] m IH]; cbn; [reflexivity|].
  intros H. destruct (String.eqb k pid) eqn:Hk.
  - apply String.eqb_eq in Hk. tauto.
  - apply IH. tauto.
Qed.

Lemma get_project_remove_same pid m :
  NoDup (map fst m) -> get_project pid (remove_project pid m) = None.
Proof.
  induction m as [|[k d] m IH]; cbn [remove_project get_project map];
    [reflexivity|].
  intros Hn. inversion Hn as [|? ? Hnotin Hn']. subst.
  destruct (String.eqb k pid) eqn:Hk.
  - apply String.eqb_eq in Hk. cbn in Hnotin. subst k.
    now apply get_project_none.
  - cbn [get_project]. rewrite Hk. now apply IH.
Qed.

(** X11. The project-stop command.  When no watched project of the
    guild has the title, it answers so and changes nothing.  Otherwise it
    drops the first project with that title from the guild's document:
    that project is no longer stored, every other project of every guild
    and the guild's channels are as before. *)
Theorem project_stop_removes_one_project :
  forall gid project_title w,
    let r := project_stop gid project_title w in
    ((forall cfg, find_one gid (store w) = Some cfg ->
        find (has_title project_title) (monitored_urls cfg) = None) ->
     r = (Ret NotWatched, w))
    /\ (forall cfg pid d,
          find_one gid (store w) = Some cfg ->
          find (has_title project_title) (monitored_urls cfg) = Some (pid, d) ->
          NoDup (map fst (monitored_urls cfg)) ->
          fst r = Ret ProjectStopped
          /\ lookup_project gid pid (store (snd r)) = None
          /\ (forall g p, (g, p) <> (gid, pid) ->
                lookup_project g p (store (snd r)) =
                lookup_project g p (store w))
          /\ option_map notification_channels (find_one gid (store (snd r)))
             = Some (notification_channels cfg)).
Proof.
  intros gid project_title w. cbn zeta. unfold project_stop, bind, gets.
  cbn [fst snd]. split.
  - intros Hnone. destruct (find_one gid (store w)) as [cfg|]; [|reflexivity].
    rewrite find_existsb, (Hnone cfg eq_refl). reflexivity.
  - intros cfg pid d Hf Hfind Hn. rewrite Hf, find_existsb, Hfind.
    cbn [negb]. unfold set_store, modify, ret. cbn [fst snd store].
    split; [reflexivity|]. unfold lookup_project.
    repeat split.
    + rewrite find_one_unset_project, Z.eqb_refl, Hf. cbn.
      now apply get_project_remove_same.
    + intros g p Hne. rewrite find_one_unset_project.
      destruct (g =? gid) eqn:Hg; [|reflexivity].
      apply Z.eqb_eq in Hg. subst g. rewrite Hf. cbn.
      apply get_project_remove_other. congruence.
    + rewrite find_one_unset_project, Z.eqb_refl, Hf. reflexivity.
Qed.

Lemma project_stop_removes_one_project_witness :
  let r := project_stop 1 "A" two_projects in
  fst r = Ret ProjectStopped
  /\ lookup_project 1 "a" (store (snd r)) = None.
Proof.
  pose proof (proj2 (project_stop_removes_one_project 1 "A" two_projects)
                (mkServerConfig 1
                   [("a", mkProjectData "https://tumblbug.com/a" "A"
                            (Some 900000) [1000000]);
                    ("b", mkProjectData "https://tumblbug.com/b" "B"
                            (Some 900000) [])] [10])
                "a" _ eq_refl eq_refl) as H.
  assert (Hn : NoDup (map fst
                 [("a", mkProjectData "https://tumblbug.com/a" "A"
                          (Some 900000) [1000000]);
                  ("b", mkProjectData "https://tumblbug.com/b" "B"
                          (Some 900000) [])])).
  { repeat constructor; cbn; try tauto. intros [E|[]]. discriminate. }
  destruct (H Hn) as (H1 & H2 & _). split; assumption.
Defined.

Lemma sort_permutation l : Permutation (sort l) l.
Proof.
  induction l as [|a l IH]; cbn; [constructor|].
  assert (Hi : forall x s, Permutation (insert_sorted x s) (x :: s)).
  { intros x s. induction s as [|b s IHs]; cbn; [apply Permutation_refl|].
    destruct (x <=? b); [apply Permutation_refl|].
    eapply perm_trans; [apply perm_skip, IHs|apply perm_swap]. }
  eapply perm_trans; [apply Hi|]. now apply perm_skip.
Qed.

(** X12. The threshold-add command.  For a watched project found by its
    title: an amount already in its list is refused and nothing changes;
    any other amount is stored, the new list being the ascending
    arrangement of the old thresholds and the amount, while the project's
    funding and every other project are left as they were. *)
Theorem threshold_add_inserts_amount :
  forall gid project_title amount w cfg pid d,
    find_one gid (store w) = Some cfg ->
    find (has_title project_title) (monitored_urls cfg) = Some (pid, d) ->
    NoDup (map fst (monitored_urls cfg)) ->
    let r := threshold_add gid project_title amount w in
    (mem amount (thresholds d) = true ->
       r = (Ret ThresholdAlreadySet, w))
    /\ (mem amount (thresholds d) = false ->
        fst r = Ret (ThresholdSet amount)
        /\ lookup_project gid pid (store (snd r)) =
           Some (mkProjectData (url d) (title d) (initial_funding d)
                   (sort (thresholds d ++ [amount])))
        /\ Permutation (sort (thresholds d ++ [amount]))
             (amount :: thresholds d)
        /\ forall g p, (g, p) <> (gid, pid) ->
             lookup_project g p (store (snd r)) =
             lookup_project g p (store w)).
Proof.
  intros gid project_title amount w cfg pid d Hf Hfind Hn. cbn zeta.
  unfold threshold_add, bind, gets. cbn [fst snd]. rewrite Hf.
  fold (has_title project_title).
  rewrite find_existsb, Hfind. cbn [negb].
  assert (Hl : lookup_project gid pid (store w) = Some d).
  { unfold lookup_project. rewrite Hf. apply get_project_unique; [exact Hn|].
    apply find_some in Hfind. tauto. }
  split.
  - intros Hm. now rewrite Hm.
  - intros Hm. rewrite Hm. unfold set_store, modify, ret. cbn [fst snd store].
    split; [reflexivity|].
    assert (Hsa : update_one gid
                    (SetThresholds pid (sort (thresholds d ++ [amount])))
                    (store w) =
                  store_after gid
                    (SetThresholds pid (sort (thresholds d ++ [amount])))
                    (store w)).
    { unfold store_after. now rewrite Hf. }
    rewrite Hsa. repeat split.
    + rewrite lookup_project_store_after by reflexivity.
      rewrite Z.eqb_refl, Hl. cbn. now rewrite String.eqb_refl.
    + eapply perm_trans; [apply sort_permutation|].
      apply Permutation_sym, Permutation_cons_append.
    + intros g p Hne. rewrite lookup_project_store_after by reflexivity.
      destruct (g =? gid) eqn:Hg; [|reflexivity].
      apply Z.eqb_eq in Hg. subst g.
      destruct (lookup_project gid p (store w)); [|reflexivity]. cbn.
      destruct (String.eqb p pid) eqn:Hp; [|reflexivity].
      apply String.eqb_eq in Hp. subst p. congruence.
Qed.

Lemma threshold_add_inserts_amount_witness :
  let w := sample_world (sample_data (Some 1000000) [2000000; 5000000]) in
  lookup_project 1 "book" (store (snd (threshold_add 1 "Book" 3000000 w))) =
  Some (sample_data (Some 1000000) [2000000; 3000000; 5000000]).
Proof.
  pose proof (threshold_add_inserts_amount 1 "Book" 3000000
                (sample_world (sample_data (Some 1000000) [2000000; 5000000]))
                (mkServerConfig 1
                   [("book", sample_data (Some 1000000) [2000000; 5000000])]
                   [10])
                "book" (sample_data (Some 1000000) [2000000; 5000000])
                eq_refl eq_refl) as H.
  assert (Hn : NoDup (map fst
                 [("book", sample_data (Some 1000000) [2000000; 5000000])])).
  { repeat constructor. cbn. tauto. }
  destruct (H Hn) as [_ H2]. destruct (H2 eq_refl) as (_ & H3 & _).
  exact H3.
Defined.

(** X13. The threshold-remove command clears the whole list of the
    project found by its title and touches nothing else: the project keeps
    its URL, title and starting funding, every other project is as before,
    and a monitoring cycle run on the project afterwards announces no
    threshold, whatever the page shows. *)
Theorem threshold_remove_clears_thresholds :
  forall gid project_title w cfg pid d,
    find_one gid (store w) = Some cfg ->
    find (has_title project_title) (monitored_urls cfg) = Some (pid, d) ->
    NoDup (map fst (monitored_urls cfg)) ->
    let r := threshold_remove gid project_title w in
    let d' := mkProjectData (url d) (title d) (initial_funding d) [] in
    fst r = Ret ThresholdsCleared
    /\ lookup_project gid pid (store (snd r)) = Some d'
    /\ (forall g p, (g, p) <> (gid, pid) ->
          lookup_project g p (store (snd r)) = lookup_project g p (store w))
    /\ (forall env page,
          filter is_threshold_event
            (events (snd r) (snd (check_project env page gid pid d' (snd r))))
          = []).
Proof.
  intros gid project_title w cfg pid d Hf Hfind Hn. cbn zeta.
  unfold threshold_remove, bind, gets. cbn [fst snd]. rewrite Hf.
  rewrite find_existsb, Hfind. cbn [negb].
  unfold set_store, modify, ret. cbn [fst snd store].
  assert (Hl : lookup_project gid pid (store w) = Some d).
  { unfold lookup_project. rewrite Hf. apply get_project_unique; [exact Hn|].
    apply find_some in Hfind. tauto. }
  assert (Hsa : update_one gid (SetThresholds pid []) (store w) =
                store_after gid (SetThresholds pid []) (store w)).
  { unfold store_after. now rewrite Hf. }
  rewrite Hsa. split; [reflexivity|]. split; [|split].
  - rewrite lookup_project_store_after by reflexivity.
    rewrite Z.eqb_refl, Hl. cbn. now rewrite String.eqb_refl.
  - intros g p Hne. rewrite lookup_project_store_after by reflexivity.
    destruct (g =? gid) eqn:Hg; [|reflexivity].
    apply Z.eqb_eq in Hg. subst g.
    destruct (lookup_project gid p (store w)); [|reflexivity]. cbn.
    destruct (String.eqb p pid) eqn:Hp; [|reflexivity].
    apply String.eqb_eq in Hp. subst p. congruence.
  - intros env page. rewrite check_project_events. unfold cycle_of.
    destruct (usable_funding _) as [cur|]; [|reflexivity].
    unfold cycle. cbn [initial_funding url title thresholds].
    destruct (truthy (initial_funding d)); cbn [negb]; [|reflexivity].
    destruct (initial_funding d) as [init|]; [|reflexivity].
    destruct (cur >? init); [|reflexivity].
    destruct ((cur >=? next_1m init) && (next_1m init >? init));
      reflexivity.
Qed.

Lemma threshold_remove_clears_thresholds_witness :
  let w := sample_world (sample_data (Some 1000000) [2000000; 5000000]) in
  lookup_project 1 "book" (store (snd (threshold_remove 1 "Book" w))) =
  Some (sample_data (Some 1000000) []).
Proof.
  pose proof (threshold_remove_clears_thresholds 1 "Book"
                (sample_world (sample_data (Some 1000000) [2000000; 5000000]))
                (mkServerConfig 1
                   [("book", sample_data (Some 1000000) [2000000; 5000000])]
                   [10])
                "book" (sample_data (Some 1000000) [2000000; 5000000])
                eq_refl eq_refl) as H.
  assert (Hn : NoDup (map fst
                 [("book", sample_data (Some 1000000) [2000000; 5000000])])).
  { repeat constructor. cbn. tauto. }
  destruct (H Hn) as (_ & H2 & _). exact H2.
Defined.

Lemma map_snd_pair {A B} (a : A) (l : list B) : map snd (map (pair a) l) = l.
Proof. rewrite map_map. cbn. apply map_id. Qed.

(** X14. The funding-test command, for a watched project with a starting
    funding.  An amount below the starting funding is refused and nothing
    changes.  Otherwise the command announces every threshold the amount
    reaches and then, when the amount reaches the next multiple of
    1,000,000, that milestone; the thresholds it announced are removed
    from the store, while the starting funding stays as it was. *)
Theorem test_funding_consumes_thresholds_only :
  forall env gid project_title test_amount w cfg pid d initial,
    find_one gid (store w) = Some cfg ->
    find (has_title project_title) (monitored_urls cfg) = Some (pid, d) ->
    NoDup (map fst (monitored_urls cfg)) ->
    initial_funding d = Some initial ->
    let r := test_funding env (Some gid) project_title test_amount w in
    (test_amount < initial -> r = (Ret (TestAmountTooLow initial), w))
    /\ (initial <= test_amount ->
        fst r = Ret (TestDone test_amount)
        /\ events w (snd r) =
           threshold_events (url d) test_amount project_title (thresholds d)
           ++ (if test_amount >=? next_1m initial
               then [MilestoneEvent project_title (next_1m initial)
                       test_amount (url d)]
               else [])
        /\ stored_thresholds gid pid (snd r) =
           remaining test_amount (thresholds d)
        /\ stored_initial_funding gid pid (snd r) = Some initial).
Proof.
  intros env gid project_title test_amount w cfg pid d initial
    Hf Hfind Hn Hinit. cbn zeta.
  assert (Hl : lookup_project gid pid (store w) = Some d).
  { unfold lookup_project. rewrite Hf. apply get_project_unique; [exact Hn|].
    apply find_some in Hfind. tauto. }
  unfold test_funding, try_except, bind, gets. cbn [fst snd]. rewrite Hf.
  rewrite find_existsb, Hfind. cbn [negb]. rewrite Hinit.
  split.
  - intros Hlt. apply Z.ltb_lt in Hlt. now rewrite Hlt.
  - intros Hle. apply Z.ltb_ge in Hle. rewrite Hle.
    rewrite check_custom_thresholds_run. cbn zeta.
    fold (next_1m initial).
    set (w1 := notified_all env gid
                 (threshold_events (url d) test_amount project_title
                    (thresholds d)) w).
    set (w2 := match crossed test_amount (thresholds d) with
               | [] => w1
               | _ :: _ =>
                   updated gid
                     (SetThresholds pid
                        (remaining test_amount (thresholds d))) w1
               end).
    assert (Hd2 : dispatched w2 =
                  dispatched w ++
                  map (pair gid)
                    (threshold_events (url d) test_amount project_title
                       (thresholds d))).
    { unfold w2, w1. destruct (crossed test_amount (thresholds d)); frames;
        reflexivity. }
    assert (Hs2 : lookup_project gid pid (store w2) =
                  Some (mkProjectData (url d) (title d) (initial_funding d)
                          (remaining test_amount (thresholds d)))).
    { unfold w2, w1.
      destruct (crossed test_amount (thresholds d)) eqn:Hc; frames.
      - rewrite Hl, (remaining_none _ _ Hc). now destruct d.
      - rewrite lookup_project_store_after by reflexivity.
        rewrite Z.eqb_refl, Hl. cbn. now rewrite String.eqb_refl. }
    unfold send_milestone_notification.
    destruct (test_amount >=? next_1m initial).
    + rewrite send_notifications_notified. unfold ret. cbn [fst snd].
      split; [reflexivity|].
      unfold events, stored_thresholds, stored_initial_funding. frames.
      rewrite Hs2. cbn [thresholds initial_funding].
      repeat split; [|exact Hinit].
      rewrite (emitted_app w _
                 (map (pair gid)
                    (threshold_events (url d) test_amount project_title
                       (thresholds d) ++
                     [MilestoneEvent project_title (next_1m initial)
                        test_amount (url d)]))).
      * apply map_snd_pair.
      * frames. rewrite Hd2, map_app, <- app_assoc. reflexivity.
    + unfold ret. cbn [fst snd]. split; [reflexivity|].
      unfold events, stored_thresholds, stored_initial_funding.
      rewrite Hs2. cbn [thresholds initial_funding].
      repeat split; [|exact Hinit].
      rewrite (emitted_app w _ _ Hd2), app_nil_r. apply map_snd_pair.
Qed.

Lemma test_funding_consumes_thresholds_only_witness :
  let w := sample_world (sample_data (Some 1000000) [1500000; 5000000]) in
  let r := test_funding sample_env (Some 1) "Book" 2000000 w in
  events w (snd r) =
    [ThresholdEvent "Book" 1500000 2000000 "https://tumblbug.com/book";
     MilestoneEvent "Book" 2000000 2000000 "https://tumblbug.com/book"]
  /\ stored_thresholds 1 "book" (snd r) = [5000000]
  /\ stored_initial_funding 1 "book" (snd r) = Some 1000000.
Proof.
  pose proof (test_funding_consumes_thresholds_only sample_env 1 "Book"
                2000000
                (sample_world (sample_data (Some 1000000) [1500000; 5000000]))
                (mkServerConfig 1
                   [("book", sample_data (Some 1000000) [1500000; 5000000])]
                   [10])
                "book" (sample_data (Some 1000000) [1500000; 5000000])
                1000000 eq_refl eq_refl) as H.
  assert (Hn : NoDup (map fst
                 [("book", sample_data (Some 1000000) [1500000; 5000000])])).
  { repeat constructor. cbn. tauto. }
  destruct (H Hn eq_refl) as [_ H2].
  assert (Hle : 1000000 <= 2000000) by lia.
  destruct (H2 Hle) as (_ & He & Ht & Hi).
  repeat split; assumption.
Defined.

Lemma find_one_set_channels gid l g s :
  find_one g (set_channels gid l s) =
  if g =? gid
  then option_map
         (fun c => mkServerConfig (guild_id c) (monitored_urls c) l)
         (find_one g s)
  else find_one g s.
Proof.
  unfold find_one. induction s as [|c s IH]; cbn.
  - now destruct (g =? gid).
  - destruct (guild_id c =? gid) eqn:Hc; cbn.
    + apply Z.eqb_eq in Hc. subst gid. rewrite (Z.eqb_sym g (guild_id c)).
      destruct (guild_id c =? g); reflexivity.
    + destruct (guild_id c =? g) eqn:Hg; cbn.
      * apply Z.eqb_eq in Hg. subst g. now rewrite Hc.
      * apply IH.
Qed.

Lemma find_one_app_fresh g s c :
  find_one g s = None -> guild_id c = g -> find_one g (s ++ [c]) = Some c.
Proof.
  unfold find_one. intros Hn Hg. induction s as [|c0 s IH]; cbn in *.
  - subst g. now rewrite Z.eqb_refl.
  - destruct (guild_id c0 =? g); [discriminate|now apply IH].
Qed.

Lemma set_channels_unique gid l s :
  NoDup l -> channels_unique s -> channels_unique (set_channels gid l s).
Proof.
  intros Hl. unfold channels_unique. induction s as [|c s IH]; cbn;
    [constructor|].
  intros H. inversion H as [|? ? Hc Hs]. subst.
  destruct (guild_id c =? gid); constructor; auto.
Qed.

Lemma remove_first_In x y l : In y (remove_first x l) -> In y l.
Proof.
  induction l as [|z l IH]; cbn; [tauto|].
  destruct (z =? x); cbn; tauto.
Qed.

Lemma remove_first_NoDup x l : NoDup l -> NoDup (remove_first x l).
Proof.
  induction l as [|z l IH]; cbn; [constructor|].
  intros H. inversion H as [|? ? Hnotin Hn]. subst.
  destruct (z =? x); [assumption|].
  constructor; [|now apply IH].
  intros Hin. apply Hnotin. now apply remove_first_In in Hin.
Qed.

Lemma remove_first_gone x l : NoDup l -> ~ In x (remove_first x l).
Proof.
  induction l as [|z l IH]; cbn; [tauto|].
  intros H. inversion H as [|? ? Hnotin Hn]. subst.
  destruct (z =? x) eqn:Hz.
  - apply Z.eqb_eq in Hz. now subst z.
  - apply Z.eqb_neq in Hz. cbn. intros [E|Hin]; [contradiction|].
    now apply IH.
Qed.

Lemma remove_first_last x l : ~ In x l -> remove_first x (l ++ [x]) = l.
Proof.
  induction l as [|z l IH]; cbn.
  - now rewrite Z.eqb_refl.
  - intros H. destruct (z =? x) eqn:Hz.
    + apply Z.eqb_eq in Hz. tauto.
    + rewrite IH; tauto.
Qed.

Lemma find_one_channels_unique gid s cfg :
  channels_unique s -> find_one gid s = Some cfg ->
  NoDup (notification_channels cfg).
Proof.
  unfold channels_unique, find_one. intros Hu Hf.
  apply find_some in Hf. rewrite Forall_forall in Hu. apply Hu. tauto.
Qed.

(** X15. No guild ever has a channel twice in its list through the
    channel commands: when every stored list is duplicate-free, it is so
    after the channel-set command and after the channel-unset command,
    whatever they answer. *)
Theorem channel_commands_keep_channels_unique :
  forall in_guild gid channel_id w,
    channels_unique (store w) ->
    channels_unique (store (snd (set_channel in_guild gid channel_id w)))
    /\ channels_unique
         (store (snd (remove_channel in_guild gid channel_id w))).
Proof.
  intros in_guild gid channel_id w Hu. split.
  - unfold set_channel. destruct in_guild; cbn [negb]; [|exact Hu].
    unfold bind, gets, set_store, modify, ret. cbn [fst snd].
    destruct (find_one gid (store w)) as [cfg|] eqn:Hf; cbn [fst snd store].
    + destruct (mem channel_id (notification_channels cfg)) eqn:Hm;
        [exact Hu|]. cbn [snd store].
      apply set_channels_unique; [|exact Hu].
      apply NoDup_app; repeat split.
      * exact (find_one_channels_unique gid _ cfg Hu Hf).
      * repeat constructor. cbn. tauto.
      * intros x Hx [E|[]]. subst x. apply mem_In in Hx. congruence.
    + unfold channels_unique. apply Forall_app. split; [exact Hu|].
      repeat constructor; cbn; tauto.
  - unfold remove_channel. destruct in_guild; cbn [negb]; [|exact Hu].
    unfold bind, gets, set_store, modify, ret. cbn [fst snd].
    destruct (find_one gid (store w)) as [cfg|] eqn:Hf; [|exact Hu].
    destruct (mem channel_id (notification_channels cfg)); cbn [negb];
      [|exact Hu]. cbn [snd store].
    apply set_channels_unique; [|exact Hu].
    apply remove_first_NoDup.
    exact (find_one_channels_unique gid _ cfg Hu Hf).
Qed.

Lemma channel_commands_keep_channels_unique_witness :
  channels_unique (store (snd (set_channel true 1 10 two_projects)))
  /\ channels_unique (store (snd (remove_channel true 1 10 two_projects))).
Proof.
  apply (channel_commands_keep_channels_unique true 1 10 two_projects).
  repeat constructor; cbn; tauto.
Defined.

Lemma remove_first_other x y l :
  y <> x -> In y l -> In y (remove_first x l).
Proof.
  intros Hne. induction l as [|z l IH]; cbn; [tauto|].
  destruct (z =? x) eqn:Hz.
  - apply Z.eqb_eq in Hz. subst z. intros [E|H]; [congruence|assumption].
  - cbn. tauto.
Qed.

Lemma lookup_project_set_channels gid l g p s :
  lookup_project g p (set_channels gid l s) = lookup_project g p s.
Proof.
  unfold lookup_project. rewrite find_one_set_channels.
  destruct (g =? gid); [|reflexivity].
  now destruct (find_one g s).
Qed.

(** X16. The channel-set command used in a guild leaves the channel
    registered for the guild, whatever it answers: when the client
    resolves the channel, a notification sent to the guild afterwards is
    sent to it.  The watched projects of every guild and the documents of
    the other guilds are as before. *)
Theorem set_channel_registers_channel :
  forall env gid channel_id w n,
    get_channel env channel_id = true ->
    let w' := snd (set_channel true gid channel_id w) in
    In channel_id (resolved_channels env gid (store w'))
    /\ In (channel_id, n) (outbox (notified env gid w' n))
    /\ (forall g p,
          lookup_project g p (store w') = lookup_project g p (store w))
    /\ (forall g, g <> gid -> find_one g (store w') = find_one g (store w)).
Proof.
  intros env gid channel_id w n Hres. cbn zeta.
  assert (H : In channel_id
                (resolved_channels env gid
                   (store (snd (set_channel true gid channel_id w))))
              /\ (forall g p,
                    lookup_project g p
                      (store (snd (set_channel true gid channel_id w))) =
                    lookup_project g p (store w))
              /\ (forall g, g <> gid ->
                    find_one g
                      (store (snd (set_channel true gid channel_id w))) =
                    find_one g (store w))).
  { unfold set_channel. cbn [negb].
    unfold bind, gets, set_store, modify, ret. cbn [fst snd].
    destruct (find_one gid (store w)) as [cfg|] eqn:Hf.
    - destruct (mem channel_id (notification_channels cfg)) eqn:Hm;
        cbn [snd store].
      + split; [|split; reflexivity].
        unfold resolved_channels. rewrite Hf. apply filter_In.
        split; [now apply mem_In|exact Hres].
      + split; [|split].
        * unfold resolved_channels. rewrite find_one_set_channels.
          rewrite Z.eqb_refl, Hf. cbn [option_map notification_channels].
          apply filter_In. split; [|exact Hres].
          apply in_or_app. right. now left.
        * intros g p. apply lookup_project_set_channels.
        * intros g Hne. rewrite find_one_set_channels.
          apply Z.eqb_neq in Hne. now rewrite Hne.
    - cbn [snd store]. split; [|split].
      + unfold resolved_channels.
        rewrite (find_one_app_fresh gid (store w)
                   (mkServerConfig gid [] [channel_id]) Hf eq_refl).
        cbn. rewrite Hres. now left.
      + intros g p. unfold lookup_project.
        destruct (Z.eq_dec g gid) as [->|Hne].
        * rewrite (find_one_app_fresh gid (store w)
                     (mkServerConfig gid [] [channel_id]) Hf eq_refl), Hf.
          reflexivity.
        * rewrite find_one_app_miss; [reflexivity|cbn; congruence].
      + intros g Hne. apply find_one_app_miss. cbn. congruence. }
  destruct H as (Hin & Hl & Ho). repeat split; try assumption.
  rewrite notified_outbox. apply in_or_app. right.
  apply in_map_iff. exists channel_id. split; [reflexivity|exact Hin].
Qed.

Lemma set_channel_registers_channel_witness :
  In (11, MonitoringStart "u" 5)
    (outbox (notified sample_env 1
               (snd (set_channel true 1 11 two_projects))
               (MonitoringStart "u" 5))).
Proof.
  apply (set_channel_registers_channel sample_env 1 11 two_projects
           (MonitoringStart "u" 5) eq_refl).
Defined.

(** X17. After the channel-unset command used in a guild whose channel
    lists are duplicate-free, a notification sent to the guild is not sent
    to that channel any more, while every other channel that was reached
    before is still reached. *)
Theorem remove_channel_stops_delivery :
  forall env gid channel_id w,
    channels_unique (store w) ->
    let w' := snd (remove_channel true gid channel_id w) in
    ~ In channel_id (resolved_channels env gid (store w'))
    /\ (forall n m,
          ~ In (channel_id, m)
              (skipn (List.length (outbox w'))
                 (outbox (notified env gid w' n))))
    /\ (forall c, c <> channel_id ->
          In c (resolved_channels env gid (store w)) ->
          In c (resolved_channels env gid (store w'))).
Proof.
  intros env gid channel_id w Hu. cbn zeta.
  assert (H : ~ In channel_id
                  (resolved_channels env gid
                     (store (snd (remove_channel true gid channel_id w))))
              /\ (forall c, c <> channel_id ->
                    In c (resolved_channels env gid (store w)) ->
                    In c (resolved_channels env gid
                            (store
                               (snd (remove_channel true gid channel_id
                                       w)))))).
  { unfold remove_channel. cbn [negb].
    unfold bind, gets, set_store, modify, ret. cbn [fst snd].
    destruct (find_one gid (store w)) as [cfg|] eqn:Hf.
    - destruct (mem channel_id (notification_channels cfg)) eqn:Hm;
        cbn [negb snd store].
      + unfold resolved_channels. rewrite find_one_set_channels.
        rewrite Z.eqb_refl, Hf. cbn [option_map notification_channels].
        split.
        * intros Hin. apply filter_In in Hin. destruct Hin as [Hin _].
          revert Hin. apply remove_first_gone.
          exact (find_one_channels_unique gid _ cfg Hu Hf).
        * intros c Hne Hin. apply filter_In in Hin. apply filter_In.
          split; [|tauto]. apply remove_first_other; tauto.
      + split; [|tauto]. unfold resolved_channels. rewrite Hf.
        intros Hin. apply filter_In in Hin. destruct Hin as [Hin _].
        apply mem_In in Hin. congruence.
    - split; [|tauto]. unfold resolved_channels. cbn [snd]. rewrite Hf.
      tauto. }
  destruct H as [Hgone Hkeep]. split; [exact Hgone|]. split; [|exact Hkeep].
  intros n m. rewrite notified_outbox, skipn_app, skipn_all, Nat.sub_diag.
  cbn [skipn app]. intros Hin. apply in_map_iff in Hin.
  destruct Hin as (c & Heq & Hc). inversion Heq. subst. contradiction.
Qed.

Lemma remove_channel_stops_delivery_witness :
  ~ In 10 (resolved_channels sample_env 1
             (store (snd (remove_channel true 1 10 two_projects)))).
Proof.
  apply (remove_channel_stops_delivery sample_env 1 10 two_projects).
  repeat constructor; cbn; tauto.
Defined.

Lemma set_channels_same gid s cfg :
  find_one gid s = Some cfg ->
  set_channels gid (notification_channels cfg) s = s.
Proof.
  unfold find_one. induction s as [|c s IH]; cbn; [discriminate|].
  destruct (guild_id c =? gid).
  - intros H. inversion H. subst. now destruct cfg.
  - intros H. now rewrite IH.
Qed.

Lemma set_channels_twice gid l l' s :
  set_channels gid l (set_channels gid l' s) = set_channels gid l s.
Proof.
  induction s as [|c s IH]; cbn; [reflexivity|].
  destruct (guild_id c =? gid) eqn:Hc; cbn; rewrite Hc; [reflexivity|].
  now rewrite IH.
Qed.

Lemma set_channels_app_fresh gid l l' s :
  find_one gid s = None ->
  set_channels gid l (s ++ [mkServerConfig gid [] l']) =
  s ++ [mkServerConfig gid [] l].
Proof.
  unfold find_one. induction s as [|c s IH]; cbn.
  - now rewrite Z.eqb_refl.
  - destruct (guild_id c =? gid); [discriminate|].
    intros H. now rewrite IH.
Qed.

(** X18. Setting a channel and then unsetting it.  For a guild that has a
    document without the channel, the two commands succeed and the store
    is exactly as before.  For a guild without a document, the first
    command creates one, and the second leaves it behind with an empty
    channel list. *)
Theorem set_then_remove_channel :
  forall gid channel_id w,
    let r1 := set_channel true gid channel_id w in
    let r2 := remove_channel true gid channel_id (snd r1) in
    (forall cfg,
       find_one gid (store w) = Some cfg ->
       mem channel_id (notification_channels cfg) = false ->
       fst r1 = Ret ChannelAdded /\ fst r2 = Ret ChannelRemoved
       /\ store (snd r2) = store w)
    /\ (find_one gid (store w) = None ->
        fst r1 = Ret ChannelAdded /\ fst r2 = Ret ChannelRemoved
        /\ store (snd r2) = store w ++ [mkServerConfig gid [] []]).
Proof.
  intros gid channel_id w. cbn zeta. split.
  - intros cfg Hf Hm.
    assert (H1 : set_channel true gid channel_id w =
                 (Ret ChannelAdded,
                  snd (set_store
                         (set_channels gid
                            (notification_channels cfg ++ [channel_id])
                            (store w)) w))).
    { unfold set_channel. cbn [negb]. unfold bind, gets. cbn [fst snd].
      now rewrite Hf, Hm. }
    rewrite H1. cbn [fst snd]. split; [reflexivity|].
    unfold remove_channel. cbn [negb].
    unfold bind, gets, set_store, modify, ret. cbn [fst snd store].
    rewrite find_one_set_channels, Z.eqb_refl, Hf.
    cbn [option_map notification_channels].
    assert (Hin : mem channel_id (notification_channels cfg ++ [channel_id])
                  = true).
    { apply mem_In, in_or_app. right. now left. }
    rewrite Hin. cbn [negb fst snd store]. split; [reflexivity|].
    rewrite set_channels_twice, remove_first_last.
    + now apply set_channels_same.
    + intros Hc. apply mem_In in Hc. congruence.
  - intros Hf.
    assert (H1 : set_channel true gid channel_id w =
                 (Ret ChannelAdded,
                  snd (set_store
                         (store w ++ [mkServerConfig gid [] [channel_id]])
                         w))).
    { unfold set_channel. cbn [negb]. unfold bind, gets. cbn [fst snd].
      now rewrite Hf. }
    rewrite H1. cbn [fst snd]. split; [reflexivity|].
    unfold remove_channel. cbn [negb].
    unfold bind, gets, set_store, modify, ret. cbn [fst snd store].
    rewrite (find_one_app_fresh gid (store w)
               (mkServerConfig gid [] [channel_id]) Hf eq_refl).
    cbn [notification_channels mem existsb]. rewrite Z.eqb_refl.
    cbn [orb negb fst snd store remove_first]. rewrite Z.eqb_refl.
    split; [reflexivity|]. now apply set_channels_app_fresh.
Qed.

Lemma set_then_remove_channel_witness :
  store (snd (remove_channel true 1 11
                (snd (set_channel true 1 11 two_projects)))) =
  store two_projects.
Proof.
  apply (proj1 (set_then_remove_channel 1 11 two_projects)
           (mkServerConfig 1
              [("a", mkProjectData "https://tumblbug.com/a" "A"
                       (Some 900000) [1000000]);
               ("b", mkProjectData "https://tumblbug.com/b" "B"
                       (Some 900000) [])] [10])
           eq_refl eq_refl).
Defined.

(** ** The project-list command *)

Lemma chunks_from_concat {A} (n : nat) (l : list A) :
  (List.length l <= 10 * n)%nat ->
  List.concat (map (fun i => firstn 10 (skipn i l))
            (map (fun k => (10 * k)%nat) (seq 0 n))) = l.
Proof.
  revert l. induction n as [|n IH]; intros l Hl.
  - destruct l; [reflexivity|cbn in Hl; lia].
  - rewrite <- cons_seq, <- seq_shift, !map_cons, !map_map.
    cbn [List.concat]. change (10 * 0)%nat with 0%nat. cbn [skipn].
    transitivity (firstn 10 l ++ skipn 10 l); [|apply firstn_skipn].
    f_equal. etransitivity; [|apply (IH (skipn 10 l))].
    + rewrite map_map. f_equal. apply map_ext. intros k.
      rewrite skipn_skipn. do 2 f_equal. lia.
    + rewrite length_skipn. lia.
Qed.

Lemma div_10_bounds (n : nat) :
  (n <= 10 * ((n + 9) / 10) /\ 10 * ((n + 9) / 10) < n + 10)%nat.
Proof.
  pose proof (Nat.div_mod_eq (n + 9) 10) as H.
  pose proof (Nat.mod_upper_bound (n + 9) 10) as H'. lia.
Qed.

Lemma chunks_concat {A} (l : list A) : List.concat (chunks l) = l.
Proof.
  unfold chunks, range_by_10. apply chunks_from_concat.
  apply div_10_bounds.
Qed.

Lemma chunks_sizes {A} (l : list A) :
  Forall (fun c => (1 <= List.length c <= 10)%nat) (chunks l).
Proof.
  unfold chunks, range_by_10. apply Forall_forall. intros c Hc.
  apply in_map_iff in Hc. destruct Hc as (i & <- & Hi).
  apply in_map_iff in Hi. destruct Hi as (k & <- & Hk).
  apply in_seq in Hk. rewrite length_firstn, length_skipn.
  pose proof (div_10_bounds (List.length l)). lia.
Qed.

(** X19. The final loop of the project-list command sends every embed
    exactly once and in order, in [(n + 9) / 10] messages for [n] embeds;
    no message is empty and none has more than ten embeds. *)
Theorem list_is_sent_in_messages_of_ten :
  forall (A : Type) (embeds : list A),
    List.concat (chunks embeds) = embeds
    /\ List.length (chunks embeds) = ((List.length embeds + 9) / 10)%nat
    /\ Forall (fun c => (1 <= List.length c <= 10)%nat) (chunks embeds).
Proof.
  intros A embeds. split; [apply chunks_concat|].
  split; [|apply chunks_sizes].
  unfold chunks, range_by_10. now rewrite !length_map, length_seq.
Qed.

(** What the project-list command shows for a watched project: the error
    embed with the project's URL, or an embed with the funding that the
    page shows and the project's thresholds in ascending order. *)
Lemma list_project_run page d w :
  let r := list_project page d w in
  (fst r = Ret (ListErrorEmbed (url d))
   \/ exists t f i,
        snd (fst (page_reading page)) = Some f
        /\ fst r = Ret (ProjectEmbed t f i (sort (thresholds d))))
  /\ store (snd r) = store w /\ dispatched (snd r) = dispatched w
  /\ outbox (snd r) = outbox w.
Proof.
  cbn zeta. unfold list_project, try_except, bind.
  pose proof (get_project_data_run (url d) page w) as H. cbn zeta in H.
  destruct (get_project_data (url d) page w) as [o w1]. cbn [fst snd] in H.
  destruct H as (Ho & Hs & Hd & Hb). subst o.
  destruct (scrape_outcome page (driver w)) as [[[t f] i]|e] eqn:Hr.
  - assert (Hp : page_reading page = (t, f, i)).
    { unfold scrape_outcome in Hr.
      destruct (driver w), (launch page); congruence. }
    destruct f as [f|]; cbn [raise ret is_Exception fst snd].
    + split; [|auto]. right. rewrite Hp. cbn. eauto.
    + split; [|auto]. now left.
  - cbn [is_Exception ret fst snd]. split; [|auto]. now left.
Qed.

Lemma list_projects_run browse m w :
  exists embeds,
    fst (list_projects browse m w) = Ret embeds
    /\ Forall2
         (fun e embed =>
            embed = ListErrorEmbed (url (snd e))
            \/ exists t f i,
                 snd (fst (page_reading (browse (fst e)))) = Some f
                 /\ embed = ProjectEmbed t f i (sort (thresholds (snd e))))
         m embeds
    /\ store (snd (list_projects browse m w)) = store w
    /\ dispatched (snd (list_projects browse m w)) = dispatched w
    /\ outbox (snd (list_projects browse m w)) = outbox w.
Proof.
  revert w. induction m as [|[pid d] m IH]; intros w.
  - exists []. cbn. repeat split. constructor.
  - cbn [list_projects]. unfold bind.
    pose proof (list_project_run (browse pid) d w) as H. cbn zeta in H.
    destruct (list_project (browse pid) d w) as [o w1]. cbn [fst snd] in H.
    destruct H as (Ho & Hs & Hd & Hb).
    destruct (IH w1) as (embeds & He & Hf & Hs' & Hd' & Hb').
    destruct (list_projects browse m w1) as [o' w2]. cbn [fst snd] in *.
    subst o'.
    destruct Ho as [->|(t & f & i & Hp & ->)]; cbn [ret fst snd].
    + exists (ListErrorEmbed (url d) :: embeds).
      repeat split; try congruence. constructor; [now left|exact Hf].
    + exists (ProjectEmbed t f i (sort (thresholds d)) :: embeds).
      repeat split; try congruence.
      constructor; [right; cbn; eauto|exact Hf].
Qed.

(** X20. The project-list command never raises, notifies no channel and
    leaves the store as it is.  For a guild that watches projects it shows
    one embed per project, in the order of the document: for each project
    either the error embed with the project's URL, or an embed with the
    funding the page shows and the project's thresholds in ascending
    order.  For a guild without projects it shows the single embed that
    says so. *)
Theorem project_list_shows_every_project :
  forall browse gid w,
    let r := project_list browse gid w in
    store (snd r) = store w /\ dispatched (snd r) = dispatched w
    /\ outbox (snd r) = outbox w
    /\ exists messages,
         fst r = Ret messages
         /\ match find_one gid (store w) with
            | Some (mkServerConfig _ (e :: m) _) =>
                Forall2
                  (fun e embed =>
                     embed = ListErrorEmbed (url (snd e))
                     \/ exists t f i,
                          snd (fst (page_reading (browse (fst e)))) = Some f
                          /\ embed =
                             ProjectEmbed t f i (sort (thresholds (snd e))))
                  (e :: m) (List.concat messages)
            | _ => messages = [[NoProjectsEmbed]]
            end.
Proof.
  intros browse gid w. cbn zeta. unfold project_list, bind, gets.
  cbn [fst snd].
  destruct (find_one gid (store w)) as [[g m chs]|].
  - cbn [monitored_urls]. destruct m as [|e m].
    + cbn. repeat split. now exists [[NoProjectsEmbed]].
    + destruct (list_projects_run browse (e :: m) w)
        as (embeds & He & Hf & Hs & Hd & Hb).
      destruct (list_projects browse (e :: m) w) as [o w1].
      cbn [fst snd] in *. subst o. cbn [ret fst snd].
      repeat split; try assumption.
      exists (chunks embeds). split; [reflexivity|].
      now rewrite chunks_concat.
  - cbn. repeat split. now exists [[NoProjectsEmbed]].
Qed.

(** ** The store connection *)

Ltac ensure_connection_cases ping connect :=
  repeat (match goal with
          | |- context [match ping ?k with _ => _ end] =>
              destruct (ping k) eqn:?
          | |- context [if connect ?k then _ else _] =>
              destruct (connect k) eqn:?
          end; cbn).

(** X21. [ensure_connection] pings at most three times and sleeps and
    reconnects at most twice, once after each of the first two failed
    pings.  It returns exactly when some ping among the first three
    succeeds after connection failures only, each followed by a
    successful reconnection; it re-raises the connection failure exactly
    when all three pings fail that way. *)
Theorem ensure_connection_retries :
  forall ping connect,
    let r := fst (ensure_connection ping connect) in
    let acts := snd (ensure_connection ping connect) in
    (List.length (filter is_DoPing acts) <= 3)%nat
    /\ (List.length (filter is_Sleep acts) <= 2)%nat
    /\ List.length (filter is_Reconnect acts) =
       List.length (filter is_Sleep acts)
    /\ (r = DbReturned <->
        exists k, (k < 3)%nat /\ ping k = PingOk
                  /\ forall j, (j < k)%nat ->
                       ping j = PingConnectionFailure /\ connect j = true)
    /\ (r = DbRaisedConnectionFailure <->
        forall j, (j < 3)%nat ->
          ping j = PingConnectionFailure
          /\ ((j < 2)%nat -> connect j = true)).
Proof.
  intros ping connect. cbn zeta. unfold ensure_connection, max_retries.
  cbn. ensure_connection_cases ping connect.
  all: split; [lia|]; split; [lia|]; split; [reflexivity|].
  all: split; split.
  all: try discriminate; try reflexivity.
  all: try (intros _;
            first [ exists 0%nat; split; [lia|]; split; [assumption|];
                    intros j Hj; lia
                  | exists 1%nat; split; [lia|]; split; [assumption|];
                    intros [|j] Hj; [split; assumption|lia]
                  | exists 2%nat; split; [lia|]; split; [assumption|];
                    intros [|[|j]] Hj; [split; assumption..|lia]
                  | intros [|[|[|j]]] Hj; [..|lia];
                    (split; [assumption|intros ?; first [assumption|lia]])
                  ]).
  all: try (intros (k & Hk & Hok & Hprev);
            destruct k as [|[|[|k]]]; [..|lia];
            try congruence;
            try (destruct (Hprev 0%nat ltac:(lia)); congruence);
            try (destruct (Hprev 1%nat ltac:(lia)); congruence)).
  all: try (intros H;
            destruct (H 0%nat ltac:(lia)) as [? Hc0];
            destruct (H 1%nat ltac:(lia)) as [? Hc1];
            destruct (H 2%nat ltac:(lia)) as [? _];
            try congruence;
            try (specialize (Hc0 ltac:(lia)); congruence);
            try (specialize (Hc1 ltac:(lia)); congruence)).
Qed.

(** X22. [on_guild_join] leaves the guild with a document: an existing
    one is kept as it is with everything it watches, a missing one is
    created empty; the documents of other guilds are not touched, and a
    second join of the same guild changes nothing. *)
Theorem on_guild_join_is_idempotent :
  forall gid w,
    let w' := snd (on_guild_join gid w) in
    fst (on_guild_join gid w) = Ret tt
    /\ (forall cfg, find_one gid (store w) = Some cfg -> w' = w)
    /\ (find_one gid (store w) = None ->
        find_one gid (store w') = Some (mkServerConfig gid [] []))
    /\ (forall g, g <> gid -> find_one g (store w') = find_one g (store w))
    /\ on_guild_join gid w' = (Ret tt, w').
Proof.
  intros gid w. cbn zeta.
  destruct (find_one gid (store w)) as [cfg|] eqn:Hf.
  - assert (H1 : on_guild_join gid w = (Ret tt, w)).
    { unfold on_guild_join, bind, gets. cbn [fst snd]. now rewrite Hf. }
    rewrite H1. cbn [fst snd]. rewrite H1.
    repeat split; try reflexivity; discriminate.
  - set (w1 := snd (set_store (store w ++ [mkServerConfig gid [] []]) w)).
    assert (H1 : on_guild_join gid w = (Ret tt, w1)).
    { unfold on_guild_join, bind, gets. cbn [fst snd]. now rewrite Hf. }
    assert (Hs : store w1 = store w ++ [mkServerConfig gid [] []])
      by reflexivity.
    rewrite H1. cbn [fst snd]. rewrite Hs.
    split; [reflexivity|]. split; [discriminate|].
    split; [intros _; now apply find_one_app_new|].
    split; [intros g Hne; apply find_one_app_miss; cbn; congruence|].
    unfold on_guild_join, bind, gets. cbn [fst snd]. rewrite Hs.
    now rewrite (find_one_app_new _ _ Hf).
Qed.



(** ** Successive ticks *)

Lemma store_after_single gid pid d chs upd :
  is_field_update upd = true ->
  store_after gid upd [mkServerConfig gid [(pid, d)] chs] =
  [mkServerConfig gid [(pid, apply_to upd pid d)] chs].
Proof.
  intros Hu. unfold store_after, find_one. cbn [find guild_id].
  rewrite Z.eqb_refl. cbn [update_one guild_id]. rewrite Z.eqb_refl.
  unfold apply_update. cbn [monitored_urls guild_id notification_channels].
  destruct upd as [p v|p l|p nd];
    cbn [set_field apply_to is_field_update] in *; try discriminate;
    destruct (String.eqb pid p); reflexivity.
Qed.

Lemma store_after_all_single gid pid chs upds :
  forallb is_field_update upds = true ->
  forall d,
    store_after_all gid upds [mkServerConfig gid [(pid, d)] chs] =
    [mkServerConfig gid [(pid, apply_all_to upds pid d)] chs].
Proof.
  unfold store_after_all, apply_all_to.
  induction upds as [|upd upds IH]; intros Hu d; cbn; [reflexivity|].
  cbn in Hu. apply andb_true_iff in Hu. destruct Hu as [Hu Hus].
  rewrite (store_after_single _ _ _ _ _ Hu). now apply IH.
Qed.

Lemma filter_threshold_event_thresholds u cur ttl l :
  filter is_threshold_event (threshold_events u cur ttl l) =
  threshold_events u cur ttl l.
Proof.
  unfold threshold_events. induction (crossed cur l); cbn; congruence.
Qed.

(** One tick of a store with one watched project whose page reads
    [cur]. *)
Lemma single_tick env browse gid pid d chs cur t i w :
  launch (browse gid pid) = None ->
  page_reading (browse gid pid) = (t, Some cur, i) ->
  cur <> 0 ->
  store w = [mkServerConfig gid [(pid, d)] chs] ->
  fst (check_prices env browse w) = Ret tt
  /\ dispatched (snd (check_prices env browse w)) =
     dispatched w ++ map (pair gid) (fst (cycle pid d cur))
  /\ store (snd (check_prices env browse w)) =
     [mkServerConfig gid [(pid, after_cycle d cur)] chs].
Proof.
  intros Hl Hp Hc Hs.
  assert (Hrun : check_prices env browse w =
                 check_project env (browse gid pid) gid pid d w).
  { unfold check_prices, bind at 1, gets. cbn [fst snd]. rewrite Hs.
    cbn [for_each monitored_urls guild_id fst snd]. unfold bind.
    pose proof (check_project_returns env (browse gid pid) gid pid d w)
      as Hr.
    destruct (check_project env (browse gid pid) gid pid d w) as [o w1].
    cbn [fst] in Hr. subst o. reflexivity. }
  rewrite Hrun.
  destruct (check_project_effect env (browse gid pid) gid pid d w)
    as (Hr & Hd & Hst).
  assert (Hc' : cycle_of pid d (scrape_outcome (browse gid pid) (driver w))
                = cycle pid d cur).
  { unfold scrape_outcome. rewrite Hl, Hp.
    apply Z.eqb_neq in Hc. unfold cycle_of, usable_funding.
    destruct (driver w); now rewrite Hc. }
  rewrite Hc' in Hd, Hst. repeat split; try assumption.
  rewrite Hst, Hs, store_after_all_single by apply cycle_field_updates.
  now rewrite cycle_after_cycle.
Qed.

Lemma next_1m_div a : next_1m a / 1000000 = a / 1000000 + 1.
Proof.
  unfold next_1m.
  replace (a / 1000000 * 1000000 + 1000000)
    with ((a / 1000000 + 1) * 1000000) by ring.
  now rewrite Z.div_mul.
Qed.

Lemma reaches_next_1m a cur :
  next_1m a <= cur <-> a / 1000000 + 1 <= cur / 1000000.
Proof.
  unfold next_1m.
  pose proof (Z.div_mod cur 1000000 ltac:(lia)).
  pose proof (Z.mod_pos_bound cur 1000000 ltac:(lia)). lia.
Qed.

(** A cycle of a started project at a funding that is not below the
    stored one. *)
Lemma cycle_catch_up pid d a cur :
  initial_funding d = Some a -> 0 < a <= cur ->
  let k := Z.to_nat (cur / 1000000 - a / 1000000) in
  let a' := if cur >=? next_1m a then next_1m a else a in
  filter is_milestone (fst (cycle pid d cur)) =
    milestones_from a cur (title d) (url d) (Nat.min 1 k)
  /\ filter is_threshold_event (fst (cycle pid d cur)) =
     (if cur >? a then threshold_events (url d) cur (title d) (thresholds d)
      else [])
  /\ initial_funding (after_cycle d cur) = Some a'
  /\ title (after_cycle d cur) = title d
  /\ url (after_cycle d cur) = url d
  /\ thresholds (after_cycle d cur) =
     (if cur >? a then remaining cur (thresholds d) else thresholds d)
  /\ 0 < a' <= cur
  /\ Z.to_nat (cur / 1000000 - a' / 1000000) = (k - 1)%nat
  /\ ((cur >=? next_1m a) = true <-> (1 <= k)%nat).
Proof.
  intros Hi Ha. cbn zeta.
  assert (Htr : truthy (initial_funding d) = true).
  { rewrite Hi. cbn. apply negb_true_iff, Z.eqb_neq. lia. }
  pose proof (next_1m_above a) as Hab.
  assert (Hgt : (next_1m a >? a) = true)
    by (rewrite Z.gtb_ltb; now apply Z.ltb_lt).
  assert (Hk : (cur >=? next_1m a) = true <->
               (1 <= Z.to_nat (cur / 1000000 - a / 1000000))%nat).
  { rewrite Z.geb_leb, Z.leb_le, reaches_next_1m. lia. }
  unfold cycle, after_cycle. rewrite Htr, Hi. cbn [negb].
  destruct (cur >? a) eqn:Hca.
  - rewrite Hgt, andb_true_r.
    destruct (cur >=? next_1m a) eqn:Hn.
    + assert (Hk1 : (1 <= Z.to_nat (cur / 1000000 - a / 1000000))%nat)
        by now apply Hk.
      cbn [fst snd app filter is_milestone is_threshold_event
           initial_funding title url thresholds].
      rewrite filter_milestone_thresholds,
        filter_threshold_event_thresholds.
      replace (Nat.min 1 (Z.to_nat (cur / 1000000 - a / 1000000)))
        with 1%nat by lia.
      unfold milestones_from. cbn [seq map Z.of_nat].
      rewrite Z.mul_0_l, Z.add_0_r.
      repeat split; try reflexivity; try tauto.
      * lia.
      * apply Z.geb_le in Hn. lia.
      * rewrite next_1m_div. lia.
    + assert (Hk0 : Z.to_nat (cur / 1000000 - a / 1000000) = 0%nat).
      { destruct (Z.to_nat (cur / 1000000 - a / 1000000)) eqn:E;
          [reflexivity|].
        assert (Hn' : false = true) by (apply Hk; lia). discriminate. }
      rewrite Hk0.
      cbn [fst snd app filter is_milestone is_threshold_event
           initial_funding title url thresholds Nat.min].
      rewrite filter_milestone_thresholds,
        filter_threshold_event_thresholds.
      repeat split; try reflexivity; try tauto; try lia; try discriminate.
  - assert (Hcur : cur = a).
    { rewrite Z.gtb_ltb in Hca. apply Z.ltb_ge in Hca. lia. }
    subst cur.
    assert (Hn : (a >=? next_1m a) = false).
    { rewrite Z.geb_leb. apply Z.leb_gt. exact Hab. }
    rewrite Hn, Z.sub_diag. cbn [Z.to_nat Nat.min fst filter].
    repeat split; try reflexivity; try tauto; try lia; try discriminate.
Qed.

Lemma milestones_from_step a cur ttl u m :
  MilestoneEvent ttl (next_1m a) cur u
  :: milestones_from (next_1m a) cur ttl u m =
  milestones_from a cur ttl u (S m).
Proof.
  unfold milestones_from. rewrite <- cons_seq, <- seq_shift, map_cons, map_map.
  f_equal.
  - f_equal. change (Z.of_nat 0) with 0. lia.
  - apply map_ext. intros j. rewrite next_1m_next, Nat2Z.inj_succ.
    f_equal. lia.
Qed.

Lemma ticks_run env browse gid pid chs cur t i :
  launch (browse gid pid) = None ->
  page_reading (browse gid pid) = (t, Some cur, i) ->
  forall n d w a,
    store w = [mkServerConfig gid [(pid, d)] chs] ->
    initial_funding d = Some a -> 0 < a <= cur ->
    exists L,
      fst (ticks env browse n w) = Ret tt
      /\ dispatched (snd (ticks env browse n w)) =
         dispatched w ++ map (pair gid) L
      /\ filter is_milestone L =
         milestones_from a cur (title d) (url d)
           (Nat.min n (Z.to_nat (cur / 1000000 - a / 1000000)))
      /\ filter is_threshold_event L =
         (if (0 <? n)%nat && (cur >? a)
          then threshold_events (url d) cur (title d) (thresholds d)
          else []).
Proof.
  intros Hl Hp. induction n as [|n IH]; intros d w a Hs Hi Ha.
  - exists []. cbn. rewrite app_nil_r. repeat split.
  - cbn [ticks]. unfold bind.
    destruct (single_tick env browse gid pid d chs cur t i w Hl Hp
                ltac:(lia) Hs) as (Hr & Hd & Hst).
    destruct (check_prices env browse w) as [o w1]. cbn [fst snd] in *.
    subst o.
    destruct (cycle_catch_up pid d a cur Hi Ha)
      as (Hm & Hth & Hi' & Ht' & Hu' & Hths & Ha' & Hk' & Hk).
    destruct (IH (after_cycle d cur) w1 _ Hst Hi' Ha')
      as (L & Hr2 & Hd2 & Hm2 & Hth2).
    exists (fst (cycle pid d cur) ++ L).
    split; [exact Hr2|]. split; [|split].
    + rewrite Hd2, Hd, map_app, app_assoc. reflexivity.
    + rewrite filter_app, Hm, Hm2, Ht', Hu', Hk'.
      destruct (cur >=? next_1m a) eqn:Hn.
      * assert (Hk1 : (1 <= Z.to_nat (cur / 1000000 - a / 1000000))%nat)
          by now apply Hk.
        replace (Nat.min 1 (Z.to_nat (cur / 1000000 - a / 1000000)))
          with 1%nat by lia.
        replace (Nat.min (S n) (Z.to_nat (cur / 1000000 - a / 1000000)))
          with (S (Nat.min n
                     (Z.to_nat (cur / 1000000 - a / 1000000) - 1)))
          by lia.
        rewrite <- !milestones_from_step. reflexivity.
      * assert (Hk0 : Z.to_nat (cur / 1000000 - a / 1000000) = 0%nat).
        { destruct (Z.to_nat (cur / 1000000 - a / 1000000)) eqn:E;
            [reflexivity|].
          assert (Hn' : false = true) by (apply Hk; lia). discriminate. }
        rewrite Hk0. rewrite !Nat.min_0_r. reflexivity.
    + rewrite filter_app, Hth, Hth2, Ht', Hu', Hths.
      change (0 <? S n)%nat with true. cbn [andb].
      destruct (cur >? a) eqn:Hca.
      * rewrite threshold_events_remaining.
        match goal with
        | |- _ ++ (if ?b then [] else []) = _ => destruct b
        end; apply app_nil_r.
      * assert (Hn : (cur >=? next_1m a) = false).
        { rewrite Z.gtb_ltb in Hca. apply Z.ltb_ge in Hca.
          pose proof (next_1m_above a). rewrite Z.geb_leb.
          apply Z.leb_gt. lia. }
        rewrite Hn, Hca, andb_false_r. reflexivity.
Qed.

(** X24. Catching up.  A guild watches one project whose starting funding
    is recorded, and every read of its page gives the same funding, not
    below the recorded one.  Over [n] ticks the scheduler announces the
    milestones above the recorded funding one per tick, each with the
    funding read, until the multiple of 1,000,000 at or below the funding
    has been announced: [min n k] milestones for [k] multiples between
    the two.  Every threshold the funding reaches is announced once, in
    the first tick, provided the funding is above the recorded one. *)
Theorem ticks_catch_up_one_milestone_per_tick :
  forall env browse gid pid d chs w n a cur t i,
    store w = [mkServerConfig gid [(pid, d)] chs] ->
    initial_funding d = Some a ->
    0 < a <= cur ->
    launch (browse gid pid) = None ->
    page_reading (browse gid pid) = (t, Some cur, i) ->
    let r := ticks env browse n w in
    fst r = Ret tt
    /\ filter is_milestone (events w (snd r)) =
       milestones_from a cur (title d) (url d)
         (Nat.min n (Z.to_nat (cur / 1000000 - a / 1000000)))
    /\ filter is_threshold_event (events w (snd r)) =
       (if (0 <? n)%nat && (cur >? a)
        then threshold_events (url d) cur (title d) (thresholds d)
        else []).
Proof.
  intros env browse gid pid d chs w n a cur t i Hs Hi Ha Hl Hp. cbn zeta.
  destruct (ticks_run env browse gid pid chs cur t i Hl Hp n d w a Hs Hi Ha)
    as (L & Hr & Hd & Hm & Hth).
  split; [exact Hr|].
  assert (He : events w (snd (ticks env browse n w)) = L).
  { unfold events. rewrite (emitted_app _ _ _ Hd), map_map. cbn.
    apply map_id. }
  rewrite He. split; assumption.
Qed.

Lemma ticks_catch_up_one_milestone_per_tick_witness :
  let w := sample_world (sample_data (Some 900000) [1500000]) in
  let r := ticks sample_env (fun _ _ => sample_page 3200000) 5 w in
  filter is_milestone (events w (snd r)) =
    [MilestoneEvent "Book" 1000000 3200000 "https://tumblbug.com/book";
     MilestoneEvent "Book" 2000000 3200000 "https://tumblbug.com/book";
     MilestoneEvent "Book" 3000000 3200000 "https://tumblbug.com/book"].
Proof.
  assert (Ha : 0 < 900000 <= 3200000) by lia.
  exact (proj1 (proj2
           (ticks_catch_up_one_milestone_per_tick sample_env
              (fun _ _ => sample_page 3200000) 1 "book"
              (sample_data (Some 900000) [1500000]) [10]
              (sample_world (sample_data (Some 900000) [1500000]))
              5 900000 3200000 (Some "Book") None
              eq_refl eq_refl Ha eq_refl eq_refl))).
Defined.
